(** * Heredity: exact inference over a pedigree (heredity.py)

    A shallow embedding of [src/heredity.py] and the properties of it that
    the specification states.

    Modelling conventions.
    - The program is embedded twice.  The first part reads its arithmetic as
      exact: a Python float is a rational number ([Qc], the canonical
      rationals of the Standard Library), a function returns a value or an
      exception.  The module [Prog] follows the statements of the program
      over an arithmetic [arith] that is a parameter, with the store that the
      statements read and write: its instance [Prog.exact] is the rational
      arithmetic, its instance [Prog.binary64] is that of Python's [float]
      (the primitive floats, IEEE 754 binary64, round to nearest even).
      [joint_probability_exact] and [main_on_exact] relate the two parts.
    - A Python [dict] keyed by person names is a [gmap string _]; a Python
      [set] of names is a [gset string].  The order in which Python iterates
      over a set is unspecified; here it is the order of [elements].
    - Python iterates over a [dict] in insertion order; here a loop over a
      dictionary takes the keys in the order of [map_to_list].  In exact
      arithmetic no result of the program depends on these orders
      ([product_Permutation], [update_in_order_Permutation]); in binary64
      the sums and products do, in their last bits, and the closed
      statements about binary64 are made on tables and pedigrees of one
      individual, where there is one order only.
    - A Python exception is a value [Raise e] of the error monad [outcome];
      in the store-passing functions of [Prog] an exception leaves the store
      as the statements before it left it.
    - The rows of the file are those of a file whose header names the four
      columns [name], [mother], [father] and [trait].
    - [main] is modelled from the loaded rows of the file to the table of
      probabilities that it prints; the check of [sys.argv] and the
      formatting of the output are left out. *)

From Stdlib Require Import QArith Qcanon Floats Uint63.
From stdpp Require Import numbers strings base option sets gmap sorting list.

Local Open Scope Qc_scope.

(** ** Exceptions and the error monad *)

(** [KeyError] and [ZeroDivisionError] are the Python exceptions the program
    can raise.  [InvalidPedigree] and [EvidenceUnsatisfiable] are the error
    kinds named by the specification; no statement of the program constructs
    them. *)
Inductive exn : Type :=
  | KeyError
  | ZeroDivisionError
  | InvalidPedigree
  | EvidenceUnsatisfiable.

Inductive outcome (A : Type) : Type :=
  | Ok (a : A)
  | Raise (e : exn).
Arguments Ok {A} a.
Arguments Raise {A} e.

#[global] Instance outcome_ret : MRet outcome := λ A a, Ok a.
#[global] Instance outcome_bind : MBind outcome := λ A B f m,
  match m with
  | Ok a => f a
  | Raise e => Raise e
  end.

(** A [for] loop threading a state, stopped by the first exception. *)
Fixpoint foldlM {St A : Type} (body : St → A → outcome St) (s : St) (l : list A)
    : outcome St :=
  match l with
  | [] => Ok s
  | x :: l => s' ← body s x; foldlM body s' l
  end.

(** Python's [any] over a generator: stops at the first [True]. *)
Fixpoint any {A : Type} (f : A → outcome bool) (l : list A) : outcome bool :=
  match l with
  | [] => Ok false
  | x :: l => f x ≫= λ b : bool, if b then Ok true else any f l
  end.

(** [d[k]] on a dictionary: [KeyError] when the key is absent. *)
Definition getitem {V : Type} (d : gmap string V) (k : string) : outcome V :=
  match d !! k with
  | Some v => Ok v
  | None => Raise KeyError
  end.

(** [for k in d]: the keys of a dictionary. *)
Definition keys {V : Type} (d : gmap string V) : list string :=
  (map_to_list d).*1.

(** [a / b]: Python raises [ZeroDivisionError] on a zero divisor. *)
Definition truediv (a b : Qc) : outcome Qc :=
  if decide (b = 0) then Raise ZeroDivisionError else Ok (a / b).

(** [math.prod]: left-to-right product starting from 1. *)
Definition product (l : list Qc) : Qc := foldl Qcmult 1 l.

(** [sum]: left-to-right sum starting from 0. *)
Definition sum (l : list Qc) : Qc := foldl Qcplus 0 l.

(** ** The probability tables [PROBS] *)

(** A dictionary with the keys [2], [1], [0]. *)
Record gene_dist : Type := mk_gene_dist {
  gene_2 : Qc;
  gene_1 : Qc;
  gene_0 : Qc
}.

(** A dictionary with the keys [True], [False]. *)
Record trait_dist : Type := mk_trait_dist {
  trait_True : Qc;
  trait_False : Qc
}.

Record trait_table : Type := mk_trait_table {
  given_2 : trait_dist;
  given_1 : trait_dist;
  given_0 : trait_dist
}.

Record probs : Type := mk_probs {
  P_gene : gene_dist;
  P_trait : trait_table;
  P_mutation : Qc
}.

(** The decimal literal [n / d]. *)
Definition lit (n : Z) (d : positive) : Qc := Q2Qc (n # d).

Definition PROBS : probs := {|
  P_gene := {| gene_2 := lit 1 100; gene_1 := lit 3 100; gene_0 := lit 96 100 |};
  P_trait := {|
    given_2 := {| trait_True := lit 65 100; trait_False := lit 35 100 |};
    given_1 := {| trait_True := lit 56 100; trait_False := lit 44 100 |};
    given_0 := {| trait_True := lit 1 100; trait_False := lit 99 100 |}
  |};
  P_mutation := lit 1 100
|}.

(** The literal [.5]. *)
Definition half : Qc := lit 1 2.

(** ** The pedigree *)

Record individual : Type := mk_individual {
  name : string;
  mother : option string;
  father : option string;
  trait : option bool
}.

(** A row of the CSV file, as [csv.DictReader] yields it for a file whose
    header names the four columns; [load_data] reads these four keys of the
    row, and a file without one of the columns is outside the model. *)
Record csv_row : Type := mk_row {
  row_name : string;
  row_mother : string;
  row_father : string;
  row_trait : string
}.

(** A blank field of the file. *)
Definition blank : string := EmptyString.

(** [s or None] on a string. *)
Definition or_None (s : string) : option string :=
  if decide (s = EmptyString) then None else Some s.

Definition load_data (file : list csv_row) : gmap string individual :=
  foldl (λ data row,
    let name := row_name row in
    <[name := {|
        name := name;
        mother := or_None (row_mother row);
        father := or_None (row_father row);
        trait := if decide (row_trait row = "1"%string) then Some true
                 else if decide (row_trait row = "0"%string) then Some false
                 else None
      |}]> data) ∅ file.

(** ** [powerset] *)

(** [itertools.combinations(l, r)], in its lexicographic order. *)
Fixpoint combinations {A : Type} (l : list A) (r : nat) : list (list A) :=
  match r with
  | 0 => [[]]
  | S r' =>
    match l with
    | [] => []
    | x :: l' => (cons x <$> combinations l' r') ++ combinations l' r
    end
  end.

Definition powerset (s : gset string) : list (gset string) :=
  let s := elements s in
  list_to_set <$> (r ← seq 0 (length s + 1); combinations s r).

(** ** [joint_probability] *)

(** [x in s] for a parent reference [x], which may be [None]: the sets hold
    names only, so [None in s] is [False]. *)
Definition member (x : option string) (s : gset string) : bool :=
  match x with
  | Some n => bool_decide (n ∈ s)
  | None => false
  end.

(** [people[person]["mother"] == None and people[person]["father"] == None] *)
Definition no_parents (r : individual) : bool :=
  bool_decide (mother r = None) && bool_decide (father r = None).

(** The body of the loop over [one_gene] (lines 151-185): the number appended
    to [probsToMultiply]. *)
Definition one_gene_prob (people : gmap string individual)
    (one_gene two_genes have_trait : gset string) (person : string)
    : outcome Qc :=
  r ← getitem people person;
  if no_parents r then
    if bool_decide (person ∈ have_trait)
    then Ok (gene_1 (P_gene PROBS) * trait_True (given_1 (P_trait PROBS)))
    else Ok (gene_1 (P_gene PROBS) * trait_False (given_1 (P_trait PROBS)))
  else
    let mom := mother r in
    let dad := father r in
    let momTemp :=
      if member mom one_gene
      then half * (1 - P_mutation PROBS) + half * P_mutation PROBS
      else if member mom two_genes then 1 - P_mutation PROBS
      else P_mutation PROBS in
    let dadTemp :=
      if member dad one_gene
      then half * (1 - P_mutation PROBS) + half * P_mutation PROBS
      else if member dad two_genes then 1 - P_mutation PROBS
      else P_mutation PROBS in
    let childProb := momTemp * (1 - dadTemp) + dadTemp * (1 - momTemp) in
    let childProb :=
      if bool_decide (person ∈ have_trait)
      then childProb * trait_True (given_1 (P_trait PROBS))
      else childProb * trait_False (given_1 (P_trait PROBS)) in
    Ok childProb.

(** The body of the loop over [two_genes] (lines 190-222). *)
Definition two_genes_prob (people : gmap string individual)
    (one_gene two_genes have_trait : gset string) (person : string)
    : outcome Qc :=
  r ← getitem people person;
  if no_parents r then
    if bool_decide (person ∈ have_trait)
    then Ok (gene_2 (P_gene PROBS) * trait_True (given_2 (P_trait PROBS)))
    else Ok (gene_2 (P_gene PROBS) * trait_False (given_2 (P_trait PROBS)))
  else
    let mom := mother r in
    let dad := father r in
    let momTemp :=
      if member mom one_gene
      then half * (1 - P_mutation PROBS) + half * P_mutation PROBS
      else if member mom two_genes then 1 - P_mutation PROBS
      else P_mutation PROBS in
    let dadTemp :=
      if member dad one_gene
      then half * (1 - P_mutation PROBS) + half * P_mutation PROBS
      else if member dad two_genes then 1 - P_mutation PROBS
      else P_mutation PROBS in
    let childProb := momTemp * dadTemp in
    let childProb :=
      if bool_decide (person ∈ have_trait)
      then childProb * trait_True (given_2 (P_trait PROBS))
      else childProb * trait_False (given_2 (P_trait PROBS)) in
    Ok childProb.

(** The body of the loop over [people] (lines 226-268): the numbers appended
    to [probsToMultiply], none for a person in [one_gene] or [two_genes]. *)
Definition no_gene_prob (people : gmap string individual)
    (one_gene two_genes have_trait : gset string) (person : string)
    : outcome (list Qc) :=
  if bool_decide (person ∉ one_gene) && bool_decide (person ∉ two_genes) then
    r ← getitem people person;
    if no_parents r then
      if bool_decide (person ∈ have_trait)
      then Ok [gene_0 (P_gene PROBS) * trait_True (given_0 (P_trait PROBS))]
      else Ok [gene_0 (P_gene PROBS) * trait_False (given_0 (P_trait PROBS))]
    else
      let mom := mother r in
      let dad := father r in
      let momTemp :=
        if member mom one_gene
        then half * (1 - P_mutation PROBS) + half * P_mutation PROBS
        else if member mom two_genes then P_mutation PROBS
        else 1 - P_mutation PROBS in
      let dadTemp :=
        if member dad one_gene
        then half * (1 - P_mutation PROBS) + half * P_mutation PROBS
        else if member dad two_genes then P_mutation PROBS
        else 1 - P_mutation PROBS in
      let childProb := momTemp * dadTemp in
      let childProb :=
        if bool_decide (person ∈ have_trait)
        then childProb * trait_True (given_0 (P_trait PROBS))
        else childProb * trait_False (given_0 (P_trait PROBS)) in
      Ok [childProb]
  else Ok [].

Definition joint_probability (people : gmap string individual)
    (one_gene two_genes have_trait : gset string) : outcome Qc :=
  probs1 ← mapM (one_gene_prob people one_gene two_genes have_trait)
                (elements one_gene);
  probs2 ← mapM (two_genes_prob people one_gene two_genes have_trait)
                (elements two_genes);
  probs0 ← mapM (no_gene_prob people one_gene two_genes have_trait)
                (keys people);
  Ok (product (probs1 ++ probs2 ++ concat probs0)).

(** ** The enumeration loop of [main] (lines 64-83) *)

(** One joint assignment visited by the loop. *)
Record hypothesis : Type := mk_hypothesis {
  h_one_gene : gset string;
  h_two_genes : gset string;
  h_have_trait : gset string
}.

(** [fails_evidence] (lines 69-73). *)
Definition fails_evidence (people : gmap string individual)
    (names have_trait : gset string) : outcome bool :=
  any (λ person,
         r ← getitem people person;
         Ok (bool_decide (trait r ≠ None) &&
             bool_decide (trait r ≠ Some (bool_decide (person ∈ have_trait)))))
      (elements names).

(** The three nested loops, with the innermost statements as [body]. *)
Definition enumerate {St : Type} (people : gmap string individual)
    (body : St → hypothesis → outcome St) (s : St) : outcome St :=
  let names := dom people in
  foldlM (λ s have_trait,
    fails ← fails_evidence people names have_trait;
    if (fails : bool) then Ok s
    else
      foldlM (λ s one_gene,
        foldlM (λ s two_genes,
                  body s (mk_hypothesis one_gene two_genes have_trait))
               s (powerset (names ∖ one_gene)))
        s (powerset names))
    s (powerset names).

(** The hypotheses the loop visits, in the order of the visits. *)
Definition visited (people : gmap string individual) : outcome (list hypothesis) :=
  enumerate people (λ seen h, Ok (seen ++ [h])) [].

(** ** [update] and [normalize] *)

(** The value of [probabilities[person]]. *)
Record distributions : Type := mk_distributions {
  d_gene : gene_dist;
  d_trait : trait_dist
}.

(** The body of the loop of [update] (lines 282-292), on the entry of
    [person]. *)
Definition update_person (one_gene two_genes have_trait : gset string)
    (p : Qc) (person : string) (d : distributions) : distributions :=
  let g := d_gene d in
  let g :=
    if bool_decide (person ∈ one_gene)
    then {| gene_2 := gene_2 g; gene_1 := gene_1 g + p; gene_0 := gene_0 g |}
    else if bool_decide (person ∈ two_genes)
    then {| gene_2 := gene_2 g + p; gene_1 := gene_1 g; gene_0 := gene_0 g |}
    else {| gene_2 := gene_2 g; gene_1 := gene_1 g; gene_0 := gene_0 g + p |} in
  let t := d_trait d in
  let t :=
    if bool_decide (person ∈ have_trait)
    then {| trait_True := trait_True t + p; trait_False := trait_False t |}
    else {| trait_True := trait_True t; trait_False := trait_False t + p |} in
  {| d_gene := g; d_trait := t |}.

(** [update], with the persons taken in the order [order]. *)
Definition update_in_order (order : list string)
    (probabilities : gmap string distributions)
    (one_gene two_genes have_trait : gset string) (p : Qc)
    : gmap string distributions :=
  foldl (λ probabilities person,
           alter (update_person one_gene two_genes have_trait p person)
                 person probabilities)
        probabilities order.

Definition update (probabilities : gmap string distributions)
    (one_gene two_genes have_trait : gset string) (p : Qc)
    : gmap string distributions :=
  update_in_order (keys probabilities) probabilities
                  one_gene two_genes have_trait p.

(** The body of the loop of [normalize] (lines 305-313), on one entry. *)
Definition normalize_person (d : distributions) : outcome distributions :=
  let g := d_gene d in
  let geneTotal := sum [gene_2 g; gene_1 g; gene_0 g] in
  sf ← truediv 1 geneTotal;
  let g := {| gene_2 := gene_2 g * sf;
              gene_1 := gene_1 g * sf;
              gene_0 := gene_0 g * sf |} in
  let t := d_trait d in
  let traitTotal := sum [trait_True t; trait_False t] in
  sf ← truediv 1 traitTotal;
  let t := {| trait_True := trait_True t * sf;
              trait_False := trait_False t * sf |} in
  Ok {| d_gene := g; d_trait := t |}.

Definition normalize (probabilities : gmap string distributions)
    : outcome (gmap string distributions) :=
  foldlM (λ probabilities person,
            d ← getitem probabilities person;
            d' ← normalize_person d;
            Ok (<[person := d']> probabilities))
         probabilities (keys probabilities).

(** ** [main] *)

Definition zero_dist : distributions :=
  {| d_gene := {| gene_2 := 0; gene_1 := 0; gene_0 := 0 |};
     d_trait := {| trait_True := 0; trait_False := 0 |} |}.

(** The innermost statements of the loop (lines 82-83). *)
Definition score_and_update (people : gmap string individual)
    (probabilities : gmap string distributions) (h : hypothesis)
    : outcome (gmap string distributions) :=
  p ← joint_probability people (h_one_gene h) (h_two_genes h) (h_have_trait h);
  Ok (update probabilities (h_one_gene h) (h_two_genes h) (h_have_trait h) p).

(** Lines 49-83: the accumulated, not yet normalized, probabilities. *)
Definition accumulate (people : gmap string individual)
    : outcome (gmap string distributions) :=
  let probabilities := (λ _, zero_dist) <$> people in
  enumerate people (score_and_update people) probabilities.

(** [main] from the loaded pedigree on; its result is the table that the
    program prints. *)
Definition main_on (people : gmap string individual)
    : outcome (gmap string distributions) :=
  probabilities ← accumulate people;
  normalize probabilities.

Definition main (file : list csv_row) : outcome (gmap string distributions) :=
  main_on (load_data file).

(** ** The formulas of the specification (section 4.2)

    These definitions follow the words of the specification; the theorems
    below compare them with the functions embedded from the source. *)

(** The gene count a hypothesis assigns to the individual [x]. *)
Definition copies (one_gene two_genes : gset string) (x : string) : nat :=
  if bool_decide (x ∈ one_gene) then 1
  else if bool_decide (x ∈ two_genes) then 2
  else 0.

(** The probability that a parent with [c] copies transmits the variant. *)
Definition spec_transmit (c : nat) : Qc :=
  match c with
  | 2 => 1 - P_mutation PROBS
  | 1 => half * (1 - P_mutation PROBS) + half * P_mutation PROBS
  | _ => P_mutation PROBS
  end.

(** P(child = c), with [m] and [f] the transmit-probabilities of the mother
    and of the father. *)
Definition spec_inherit (m f : Qc) (c : nat) : Qc :=
  match c with
  | 0 => (1 - m) * (1 - f)
  | 1 => m * (1 - f) + f * (1 - m)
  | _ => m * f
  end.

(** The prior of a founder. *)
Definition spec_prior (c : nat) : Qc :=
  match c with
  | 0 => gene_0 (P_gene PROBS)
  | 1 => gene_1 (P_gene PROBS)
  | _ => gene_2 (P_gene PROBS)
  end.

(** traitGivenGene[c][b] *)
Definition spec_trait_given (c : nat) (b : bool) : Qc :=
  let row :=
    match c with
    | 0 => given_0 (P_trait PROBS)
    | 1 => given_1 (P_trait PROBS)
    | _ => given_2 (P_trait PROBS)
    end in
  if b then trait_True row else trait_False row.

(** The gene count of a parent reference; a reference that is [None] stands
    for no copy (the specification leaves that case open). *)
Definition parent_copies (one_gene two_genes : gset string)
    (x : option string) : nat :=
  match x with
  | Some n => copies one_gene two_genes n
  | None => 0
  end.

(** P(geneCount | parents) × P(trait | geneCount) for one individual. *)
Definition spec_factor (one_gene two_genes have_trait : gset string)
    (person : string) (r : individual) : Qc :=
  let c := copies one_gene two_genes person in
  let gene_factor :=
    match mother r, father r with
    | None, None => spec_prior c
    | mom, dad =>
      spec_inherit (spec_transmit (parent_copies one_gene two_genes mom))
                   (spec_transmit (parent_copies one_gene two_genes dad)) c
    end in
  gene_factor * spec_trait_given c (bool_decide (person ∈ have_trait)).

(** The product of the factors of all individuals. *)
Definition spec_joint (people : gmap string individual)
    (one_gene two_genes have_trait : gset string) : Qc :=
  product ((λ '(person, r), spec_factor one_gene two_genes have_trait person r)
             <$> map_to_list people).

(** A hypothesis of the specification: a trait subset that agrees with the
    evidence, and two disjoint subsets of the individuals. *)
Definition consistent (people : gmap string individual)
    (have_trait : gset string) : Prop :=
  ∀ person r, people !! person = Some r →
    (trait r = Some true → person ∈ have_trait) ∧
    (trait r = Some false → person ∉ have_trait).

Definition spec_hypothesis (people : gmap string individual) (h : hypothesis)
    : Prop :=
  h_have_trait h ⊆ dom people ∧ consistent people (h_have_trait h) ∧
  h_one_gene h ⊆ dom people ∧ h_two_genes h ⊆ dom people ∧
  h_one_gene h ## h_two_genes h.

(** The sums of the bins of one individual. *)
Definition gene_total (d : distributions) : Qc :=
  gene_2 (d_gene d) + gene_1 (d_gene d) + gene_0 (d_gene d).

Definition trait_total (d : distributions) : Qc :=
  trait_True (d_trait d) + trait_False (d_trait d).

(** Accumulation of a stream of (hypothesis, probability) pairs. *)
Definition accumulate_pairs (probabilities : gmap string distributions)
    (pairs : list (hypothesis * Qc)) : gmap string distributions :=
  foldl (λ probabilities '(h, p),
           update probabilities (h_one_gene h) (h_two_genes h)
                  (h_have_trait h) p)
        probabilities pairs.

(** The factor of the individual named [person], looked up in [people]. *)
Definition factor_of (people : gmap string individual)
    (one_gene two_genes have_trait : gset string) (person : string) : Qc :=
  match people !! person with
  | Some r => spec_factor one_gene two_genes have_trait person r
  | None => 1
  end.

(** The test of [fails_evidence] on one individual. *)
Definition contradicts (people : gmap string individual)
    (have_trait : gset string) (person : string) : bool :=
  match people !! person with
  | Some r =>
    bool_decide (trait r ≠ None) &&
    bool_decide (trait r ≠ Some (bool_decide (person ∈ have_trait)))
  | None => false
  end.

(** The enumeration as a list: every trait subset that passes the evidence
    test, combined with every [one_gene] and every [two_genes] of the inner
    loops. *)
Definition hypotheses (people : gmap string individual) : list hypothesis :=
  let names := dom people in
  have_trait ←
    filter (λ have_trait,
              existsb (contradicts people have_trait) (elements names) = false)
           (powerset names);
  one_gene ← powerset names;
  (λ two_genes, mk_hypothesis one_gene two_genes have_trait)
    <$> powerset (names ∖ one_gene).

(** The entry of [person] after a stream of pairs has been accumulated. *)
Definition accumulate_person (person : string) (d : distributions)
    (pairs : list (hypothesis * Qc)) : distributions :=
  foldl (λ d '(h, p),
           update_person (h_one_gene h) (h_two_genes h) (h_have_trait h)
                         p person d)
        d pairs.

(** The hypotheses of a pedigree, each with its joint probability. *)
Definition scored (people : gmap string individual)
    (hs : list hypothesis) : list (hypothesis * Qc) :=
  (λ h, (h, spec_joint people (h_one_gene h) (h_two_genes h)
                       (h_have_trait h))) <$> hs.

(** An entry with each bin divided by the total of its distribution. *)
Definition scale_person (d : distributions) : distributions :=
  {| d_gene :=
       {| gene_2 := gene_2 (d_gene d) * (1 / gene_total d);
          gene_1 := gene_1 (d_gene d) * (1 / gene_total d);
          gene_0 := gene_0 (d_gene d) * (1 / gene_total d) |};
     d_trait :=
       {| trait_True := trait_True (d_trait d) * (1 / trait_total d);
          trait_False := trait_False (d_trait d) * (1 / trait_total d) |} |}.

(** What the final loop of [main] prints (lines 89-95), as data: for every
    person the gene bins 2, 1, 0 and the trait bins True, False. *)
Definition report (result : outcome (gmap string distributions))
    : option (list (string * list Q)) :=
  match result with
  | Ok probabilities =>
    Some ((λ '(person, d),
             (person, [this (gene_2 (d_gene d)); this (gene_1 (d_gene d));
                       this (gene_0 (d_gene d));
                       this (trait_True (d_trait d));
                       this (trait_False (d_trait d))]))
            <$> map_to_list probabilities)
  | Raise _ => None
  end.

(** The probability of the evidence: the sum of the joint probabilities of
    all the hypotheses visited. *)
Definition evidence_mass (people : gmap string individual) : Qc :=
  sum (scored people (hypotheses people)).*2.

(** The pedigrees that the specification calls invalid. *)
Definition parent_of (people : gmap string individual)
    (child parent : string) : Prop :=
  ∃ r, people !! child = Some r ∧
       (mother r = Some parent ∨ father r = Some parent).

Definition invalid_pedigree (people : gmap string individual) : Prop :=
  (∃ person r, people !! person = Some r ∧
     ((mother r = None ∧ father r ≠ None) ∨
      (mother r ≠ None ∧ father r = None))) ∨
  (∃ person parent, parent_of people person parent ∧ people !! parent = None) ∨
  (∃ person, tc (parent_of people) person person).

(** A person whose parents are her own children. *)
Definition cyclic : list csv_row :=
  [ mk_row "A" "B" "B" blank; mk_row "B" "A" "A" "1" ].

(** ** Notions for the further properties *)

(** The record that [load_data] stores for a row (lines 110-116). *)
Definition row_record (row : csv_row) : individual :=
  {| name := row_name row;
     mother := or_None (row_mother row);
     father := or_None (row_father row);
     trait := if decide (row_trait row = "1"%string) then Some true
              else if decide (row_trait row = "0"%string) then Some false
              else None |}.

(** The total probability of the pairs whose hypothesis satisfies [sel]. *)
Definition mass_where (sel : hypothesis → bool)
    (pairs : list (hypothesis * Qc)) : Qc :=
  sum (filter (λ hp, sel hp.1 = true) pairs).*2.

(** The individuals with a given entry in the column [trait]. *)
Definition with_trait (people : gmap string individual) (t : option bool)
    : gset string :=
  dom (filter (λ kr, trait kr.2 = t) people).

(** A record with the two parent references exchanged. *)
Definition swap_parents (r : individual) : individual :=
  {| name := name r; mother := father r; father := mother r;
     trait := trait r |}.

(** Two rows for the same name. *)
Definition twice : list csv_row :=
  [ mk_row "A" "B" "C" "1"; mk_row "B" blank blank blank;
    mk_row "A" blank blank "0" ].

(** ** The program as written: mutable store and binary64 arithmetic

    The definitions above read the arithmetic of the program as exact.  The
    module [Prog] embeds the same functions once more, statement by
    statement, over an arithmetic [A]: at [exact] the operations are those of
    the rationals, at [binary64] they are the IEEE 754 binary64 operations of
    Python's [float].  The functions run in a monad with a store (the objects
    that a call can reach) and exceptions; an exception leaves the store as
    it stands at that point. *)
Module Prog.

Record arith : Type := mk_arith {
  num : Type;
  plus : num → num → num;
  minus : num → num → num;
  times : num → num → num;
  over : num → num → num;
  is_zero : num → bool;
  literal : Z → positive → num
}.

(** Rational arithmetic. *)
Definition exact : arith := {|
  num := Qc;
  plus := Qcplus; minus := Qcminus; times := Qcmult; over := Qcdiv;
  is_zero := λ x, bool_decide (x = 0);
  literal := lit
|}.

(** The integer [n] as a float. *)
Definition float_of_Z (n : Z) : PrimFloat.float :=
  PrimFloat.of_uint63 (Uint63.of_Z n).

(** Python's [float]: a decimal literal [n / d] denotes the binary64 number
    nearest to it, which is also what the correctly rounded division of the
    two integers gives. *)
Definition binary64 : arith := {|
  num := PrimFloat.float;
  plus := PrimFloat.add; minus := PrimFloat.sub;
  times := PrimFloat.mul; over := PrimFloat.div;
  is_zero := λ x, PrimFloat.eqb x PrimFloat.zero;
  literal := λ n d, PrimFloat.div (float_of_Z n) (float_of_Z (Z.pos d))
|}.

(** *** Store and exceptions *)

Definition prog (S A : Type) : Type := S → S * outcome A.

#[global] Instance prog_ret {S} : MRet (prog S) := λ A a s, (s, Ok a).
#[global] Instance prog_bind {S} : MBind (prog S) := λ A B f m s,
  match m s with
  | (s', Ok a) => f a s'
  | (s', Raise e) => (s', Raise e)
  end.

Definition get {S} : prog S S := λ s, (s, Ok s).
Definition modify {S} (f : S → S) : prog S unit := λ s, (f s, Ok tt).
Definition lift {S A} (o : outcome A) : prog S A := λ s, (s, o).

(** A [for] loop. *)
Fixpoint for_each {S A} (body : A → prog S unit) (l : list A) : prog S unit :=
  match l with
  | [] => mret tt
  | x :: l => body x ≫= λ _, for_each body l
  end.

(** *** Tables *)

Record gene_bins (A : arith) : Type := mk_gene_bins {
  bin_2 : num A;
  bin_1 : num A;
  bin_0 : num A
}.
Arguments mk_gene_bins {A}.
Arguments bin_2 {A}.
Arguments bin_1 {A}.
Arguments bin_0 {A}.

Record trait_bins (A : arith) : Type := mk_trait_bins {
  bin_True : num A;
  bin_False : num A
}.
Arguments mk_trait_bins {A}.
Arguments bin_True {A}.
Arguments bin_False {A}.

Record tables (A : arith) : Type := mk_tables {
  t_gene : gene_bins A;
  t_trait_2 : trait_bins A;
  t_trait_1 : trait_bins A;
  t_trait_0 : trait_bins A;
  t_mutation : num A
}.
Arguments mk_tables {A}.
Arguments t_gene {A}.
Arguments t_trait_2 {A}.
Arguments t_trait_1 {A}.
Arguments t_trait_0 {A}.
Arguments t_mutation {A}.

Definition PROBS (A : arith) : tables A := {|
  t_gene := {| bin_2 := literal A 1 100; bin_1 := literal A 3 100;
               bin_0 := literal A 96 100 |};
  t_trait_2 := {| bin_True := literal A 65 100; bin_False := literal A 35 100 |};
  t_trait_1 := {| bin_True := literal A 56 100; bin_False := literal A 44 100 |};
  t_trait_0 := {| bin_True := literal A 1 100; bin_False := literal A 99 100 |};
  t_mutation := literal A 1 100
|}.

(** The value of [probabilities[person]]. *)
Record entry (A : arith) : Type := mk_entry {
  e_gene : gene_bins A;
  e_trait : trait_bins A
}.
Arguments mk_entry {A}.
Arguments e_gene {A}.
Arguments e_trait {A}.

(** [a / b] *)
Definition truediv (A : arith) (a b : num A) : outcome (num A) :=
  if is_zero A b then Raise ZeroDivisionError else Ok (over A a b).

(** [math.prod] and [sum], from the integers 1 and 0. *)
Definition product (A : arith) (l : list (num A)) : num A :=
  foldl (times A) (literal A 1 1) l.

Definition sum (A : arith) (l : list (num A)) : num A :=
  foldl (plus A) (literal A 0 1) l.

(** *** [joint_probability] *)

(** The objects that a call of [joint_probability] can reach: its four
    arguments and the module-level [PROBS]. *)
Record jp_store (A : arith) : Type := mk_jp_store {
  jp_people : gmap string individual;
  jp_one_gene : gset string;
  jp_two_genes : gset string;
  jp_have_trait : gset string;
  jp_PROBS : tables A
}.
Arguments mk_jp_store {A}.
Arguments jp_people {A}.
Arguments jp_one_gene {A}.
Arguments jp_two_genes {A}.
Arguments jp_have_trait {A}.
Arguments jp_PROBS {A}.

(** The body of the loop over [one_gene] (lines 151-185). *)
Definition one_gene_body (A : arith) (person : string)
    : prog (jp_store A) (num A) :=
  s ← get;
  r ← lift (getitem (jp_people s) person);
  let PROBS := jp_PROBS s in
  let one := literal A 1 1 in
  let half := literal A 1 2 in
  if no_parents r then
    if bool_decide (person ∈ jp_have_trait s)
    then mret (times A (bin_1 (t_gene PROBS)) (bin_True (t_trait_1 PROBS)))
    else mret (times A (bin_1 (t_gene PROBS)) (bin_False (t_trait_1 PROBS)))
  else
    let mom := mother r in
    let dad := father r in
    let momTemp :=
      if member mom (jp_one_gene s)
      then plus A (times A half (minus A one (t_mutation PROBS)))
                  (times A half (t_mutation PROBS))
      else if member mom (jp_two_genes s) then minus A one (t_mutation PROBS)
      else t_mutation PROBS in
    let dadTemp :=
      if member dad (jp_one_gene s)
      then plus A (times A half (minus A one (t_mutation PROBS)))
                  (times A half (t_mutation PROBS))
      else if member dad (jp_two_genes s) then minus A one (t_mutation PROBS)
      else t_mutation PROBS in
    let childProb :=
      plus A (times A momTemp (minus A one dadTemp))
             (times A dadTemp (minus A one momTemp)) in
    let childProb :=
      if bool_decide (person ∈ jp_have_trait s)
      then times A childProb (bin_True (t_trait_1 PROBS))
      else times A childProb (bin_False (t_trait_1 PROBS)) in
    mret childProb.

(** The body of the loop over [two_genes] (lines 190-222). *)
Definition two_genes_body (A : arith) (person : string)
    : prog (jp_store A) (num A) :=
  s ← get;
  r ← lift (getitem (jp_people s) person);
  let PROBS := jp_PROBS s in
  let one := literal A 1 1 in
  let half := literal A 1 2 in
  if no_parents r then
    if bool_decide (person ∈ jp_have_trait s)
    then mret (times A (bin_2 (t_gene PROBS)) (bin_True (t_trait_2 PROBS)))
    else mret (times A (bin_2 (t_gene PROBS)) (bin_False (t_trait_2 PROBS)))
  else
    let mom := mother r in
    let dad := father r in
    let momTemp :=
      if member mom (jp_one_gene s)
      then plus A (times A half (minus A one (t_mutation PROBS)))
                  (times A half (t_mutation PROBS))
      else if member mom (jp_two_genes s) then minus A one (t_mutation PROBS)
      else t_mutation PROBS in
    let dadTemp :=
      if member dad (jp_one_gene s)
      then plus A (times A half (minus A one (t_mutation PROBS)))
                  (times A half (t_mutation PROBS))
      else if member dad (jp_two_genes s) then minus A one (t_mutation PROBS)
      else t_mutation PROBS in
    let childProb := times A momTemp dadTemp in
    let childProb :=
      if bool_decide (person ∈ jp_have_trait s)
      then times A childProb (bin_True (t_trait_2 PROBS))
      else times A childProb (bin_False (t_trait_2 PROBS)) in
    mret childProb.

(** The body of the loop over [people] (lines 226-268). *)
Definition no_gene_body (A : arith) (person : string)
    : prog (jp_store A) (list (num A)) :=
  s ← get;
  if bool_decide (person ∉ jp_one_gene s)
     && bool_decide (person ∉ jp_two_genes s) then
    r ← lift (getitem (jp_people s) person);
    let PROBS := jp_PROBS s in
    let one := literal A 1 1 in
    let half := literal A 1 2 in
    if no_parents r then
      if bool_decide (person ∈ jp_have_trait s)
      then mret [times A (bin_0 (t_gene PROBS)) (bin_True (t_trait_0 PROBS))]
      else mret [times A (bin_0 (t_gene PROBS)) (bin_False (t_trait_0 PROBS))]
    else
      let mom := mother r in
      let dad := father r in
      let momTemp :=
        if member mom (jp_one_gene s)
        then plus A (times A half (minus A one (t_mutation PROBS)))
                    (times A half (t_mutation PROBS))
        else if member mom (jp_two_genes s) then t_mutation PROBS
        else minus A one (t_mutation PROBS) in
      let dadTemp :=
        if member dad (jp_one_gene s)
        then plus A (times A half (minus A one (t_mutation PROBS)))
                    (times A half (t_mutation PROBS))
        else if member dad (jp_two_genes s) then t_mutation PROBS
        else minus A one (t_mutation PROBS) in
      let childProb := times A momTemp dadTemp in
      let childProb :=
        if bool_decide (person ∈ jp_have_trait s)
        then times A childProb (bin_True (t_trait_0 PROBS))
        else times A childProb (bin_False (t_trait_0 PROBS)) in
      mret [childProb]
  else mret [].

Definition joint_probability (A : arith) : prog (jp_store A) (num A) :=
  s ← get;
  probs1 ← mapM (one_gene_body A) (elements (jp_one_gene s));
  s ← get;
  probs2 ← mapM (two_genes_body A) (elements (jp_two_genes s));
  s ← get;
  probs0 ← mapM (no_gene_body A) (keys (jp_people s));
  mret (product A (probs1 ++ probs2 ++ concat probs0)).

(** *** [update] and [normalize], on the store [probabilities] *)

(** The body of the loop of [update] (lines 282-292). *)
Definition update_entry (A : arith) (one_gene two_genes have_trait : gset string)
    (p : num A) (person : string) (d : entry A) : entry A :=
  let g := e_gene d in
  let g :=
    if bool_decide (person ∈ one_gene)
    then {| bin_2 := bin_2 g; bin_1 := plus A (bin_1 g) p; bin_0 := bin_0 g |}
    else if bool_decide (person ∈ two_genes)
    then {| bin_2 := plus A (bin_2 g) p; bin_1 := bin_1 g; bin_0 := bin_0 g |}
    else {| bin_2 := bin_2 g; bin_1 := bin_1 g; bin_0 := plus A (bin_0 g) p |} in
  let t := e_trait d in
  let t :=
    if bool_decide (person ∈ have_trait)
    then {| bin_True := plus A (bin_True t) p; bin_False := bin_False t |}
    else {| bin_True := bin_True t; bin_False := plus A (bin_False t) p |} in
  {| e_gene := g; e_trait := t |}.

Definition update (A : arith) (one_gene two_genes have_trait : gset string)
    (p : num A) : prog (gmap string (entry A)) unit :=
  probabilities ← get;
  for_each (λ person,
              modify (alter (update_entry A one_gene two_genes have_trait
                                          p person) person))
           (keys probabilities).

(** The gene bins of an entry multiplied by [sf], in place (lines 307-308). *)
Definition scale_gene (A : arith) (sf : num A) (d : entry A) : entry A :=
  {| e_gene := {| bin_2 := times A (bin_2 (e_gene d)) sf;
                  bin_1 := times A (bin_1 (e_gene d)) sf;
                  bin_0 := times A (bin_0 (e_gene d)) sf |};
     e_trait := e_trait d |}.

(** The trait bins of an entry multiplied by [sf], in place (lines 312-313). *)
Definition scale_trait (A : arith) (sf : num A) (d : entry A) : entry A :=
  {| e_gene := e_gene d;
     e_trait := {| bin_True := times A (bin_True (e_trait d)) sf;
                   bin_False := times A (bin_False (e_trait d)) sf |} |}.

Definition gene_sum (A : arith) (d : entry A) : num A :=
  sum A [bin_2 (e_gene d); bin_1 (e_gene d); bin_0 (e_gene d)].

Definition trait_sum (A : arith) (d : entry A) : num A :=
  sum A [bin_True (e_trait d); bin_False (e_trait d)].

(** The body of the loop of [normalize] (lines 305-313). *)
Definition normalize_body (A : arith) (person : string)
    : prog (gmap string (entry A)) unit :=
  probabilities ← get;
  d ← lift (getitem probabilities person);
  let geneTotal := gene_sum A d in
  sf ← lift (truediv A (literal A 1 1) geneTotal);
  _ ← modify (alter (scale_gene A sf) person);
  probabilities ← get;
  d ← lift (getitem probabilities person);
  let traitTotal := trait_sum A d in
  sf ← lift (truediv A (literal A 1 1) traitTotal);
  modify (alter (scale_trait A sf) person).

Definition normalize (A : arith) : prog (gmap string (entry A)) unit :=
  probabilities ← get;
  for_each (normalize_body A) (keys probabilities).

(** *** [main] *)

Definition zero_entry (A : arith) : entry A :=
  {| e_gene := {| bin_2 := literal A 0 1; bin_1 := literal A 0 1;
                  bin_0 := literal A 0 1 |};
     e_trait := {| bin_True := literal A 0 1; bin_False := literal A 0 1 |} |}.

(** The innermost statements of the loop (lines 82-83): the call of
    [joint_probability] with the objects of [main], then [update]. *)
Definition score_and_update (A : arith) (people : gmap string individual)
    (probabilities : gmap string (entry A)) (h : hypothesis)
    : outcome (gmap string (entry A)) :=
  p ← (joint_probability A
         (mk_jp_store people (h_one_gene h) (h_two_genes h) (h_have_trait h)
                      (PROBS A))).2;
  Ok (update A (h_one_gene h) (h_two_genes h) (h_have_trait h) p
             probabilities).1.

(** [main] from the loaded pedigree on: the table as the program leaves it,
    and the exception that ends the program, if any. *)
(** [main] up to the call of [normalize]: the table of zeros (lines 49-62)
    and the enumeration loop around [score_and_update]. *)
Definition accumulate (A : arith) (people : gmap string individual)
    : outcome (gmap string (entry A)) :=
  enumerate people (score_and_update A people) ((λ _, zero_entry A) <$> people).

(** [main] from the loaded pedigree on: the table as [normalize] leaves it,
    and the exception that ends [normalize], if any.  Should the loop
    before it raise, the table is given as it was initialised. *)
Definition main_on (A : arith) (people : gmap string individual)
    : gmap string (entry A) * outcome unit :=
  match accumulate A people with
  | Ok probabilities => normalize A probabilities
  | Raise e => ((λ _, zero_entry A) <$> people, Raise e)
  end.

(** *** Runs and tests used in the statements *)

(** An entry of the rational model as an entry of the store. *)
Definition of_distributions (d : distributions) : entry exact :=
  mk_entry (A := exact)
    (mk_gene_bins (A := exact)
       (gene_2 (d_gene d)) (gene_1 (d_gene d)) (gene_0 (d_gene d)))
    (mk_trait_bins (A := exact)
       (trait_True (d_trait d)) (trait_False (d_trait d))).

(** The loop of [update] with the persons taken in the order [order]. *)
Definition update_in_order (A : arith) (order : list string)
    (one_gene two_genes have_trait : gset string) (p : num A)
    : prog (gmap string (entry A)) unit :=
  for_each (λ person,
              modify (alter (update_entry A one_gene two_genes have_trait
                                          p person) person))
           order.

(** [update] called for every pair of a stream of hypotheses with their
    probabilities, in the order of the stream. *)
Definition update_pairs (A : arith) (pairs : list (hypothesis * num A))
    : prog (gmap string (entry A)) unit :=
  for_each (λ hp, update A (h_one_gene hp.1) (h_two_genes hp.1)
                         (h_have_trait hp.1) hp.2)
           pairs.

(** The hypotheses [hs] with the probabilities that [joint_probability]
    returns for them. *)
Definition scored (A : arith) (people : gmap string individual)
    (hs : list hypothesis) : list (hypothesis * num A) :=
  omap (λ h,
          match (joint_probability A
                   (mk_jp_store people (h_one_gene h) (h_two_genes h)
                                (h_have_trait h) (PROBS A))).2 with
          | Ok p => Some (h, p)
          | Raise _ => None
          end) hs.

(** The addition of [update] into the bin of [c] copies and the bin of the
    trait [b]. *)
Definition add_at (A : arith) (c : nat) (b : bool) (p : num A) (d : entry A)
    : entry A :=
  let g := e_gene d in
  let g :=
    match c with
    | 1 => {| bin_2 := bin_2 g; bin_1 := plus A (bin_1 g) p; bin_0 := bin_0 g |}
    | 2 => {| bin_2 := plus A (bin_2 g) p; bin_1 := bin_1 g; bin_0 := bin_0 g |}
    | _ => {| bin_2 := bin_2 g; bin_1 := bin_1 g; bin_0 := plus A (bin_0 g) p |}
    end in
  let t := e_trait d in
  let t :=
    if b
    then {| bin_True := plus A (bin_True t) p; bin_False := bin_False t |}
    else {| bin_True := bin_True t; bin_False := plus A (bin_False t) p |} in
  {| e_gene := g; e_trait := t |}.

(** The number that [joint_probability] appends for a founder with [c]
    copies and the trait [b]. *)
Definition founder_prob (A : arith) (c : nat) (b : bool) : num A :=
  match c with
  | 1 => times A (bin_1 (t_gene (PROBS A)))
                 (if b then bin_True (t_trait_1 (PROBS A))
                  else bin_False (t_trait_1 (PROBS A)))
  | 2 => times A (bin_2 (t_gene (PROBS A)))
                 (if b then bin_True (t_trait_2 (PROBS A))
                  else bin_False (t_trait_2 (PROBS A)))
  | _ => times A (bin_0 (t_gene (PROBS A)))
                 (if b then bin_True (t_trait_0 (PROBS A))
                  else bin_False (t_trait_0 (PROBS A)))
  end.

(** The entry of a lone founder after the six calls of [update], in the
    order of the enumeration. *)
Definition founder_totals (A : arith) : entry A :=
  foldl (λ d cb, add_at A cb.1 cb.2 (product A [founder_prob A cb.1 cb.2]) d)
        (zero_entry A)
        [(0, false); (2, false); (1, false); (0, true); (2, true); (1, true)]%nat.


(** [abs(x - 1) <= 1e-9] *)
Definition within_tolerance (x : PrimFloat.float) : bool :=
  PrimFloat.leb (PrimFloat.abs (PrimFloat.sub x (literal binary64 1 1)))
                (literal binary64 1 1000000000).

(** The entry that the body of the loop of [normalize] leaves when neither
    division raises: the gene bins times [1 / geneTotal], then the trait bins
    times [1 / traitTotal]. *)
Definition rescaled (A : arith) (d : entry A) : entry A :=
  let d := scale_gene A (over A (literal A 1 1) (gene_sum A d)) d in
  scale_trait A (over A (literal A 1 1) (trait_sum A d)) d.



(** The smallest positive float, [5e-324]. *)
Definition tiny : PrimFloat.float := Z.ldexp 1 (-1074)%Z.

(** The five bins of an entry, in the order 2, 1, 0, True, False. *)
Definition bins {A : arith} (d : entry A) : list (num A) :=
  [bin_2 (e_gene d); bin_1 (e_gene d); bin_0 (e_gene d);
   bin_True (e_trait d); bin_False (e_trait d)].

End Prog.

(** ** Example pedigrees *)

Definition family0 : list csv_row :=
  [ mk_row "Harry" "Lily" "James" blank;
    mk_row "James" blank blank "1";
    mk_row "Lily" blank blank "0" ].

(** One founder without evidence. *)
Definition lone_founder : gmap string individual :=
  {["A"%string := mk_individual "A" None None None]}.



Definition tiny_totals : gmap string (Prog.entry Prog.binary64) :=
  {["A"%string :=
      Prog.mk_entry (A := Prog.binary64)
        (Prog.mk_gene_bins (A := Prog.binary64) Prog.tiny Prog.tiny Prog.tiny)
        (Prog.mk_trait_bins (A := Prog.binary64) Prog.tiny Prog.tiny)]}.


(** A record with a mother that is no individual, and no father. *)
Definition half_orphan : list csv_row :=
  [ mk_row "A" "B" blank blank ].

(** * Properties *)

(** ** The per-person factor *)

Lemma getitem_Some {V} (d : gmap string V) k v :
  d !! k = Some v → getitem d k = Ok v.
Proof. unfold getitem. by intros ->. Qed.

Lemma copies_member o t n :
  (member (Some n) o = true ∧ copies o t n = 1%nat) ∨
  (member (Some n) o = false ∧ member (Some n) t = true ∧ copies o t n = 2%nat) ∨
  (member (Some n) o = false ∧ member (Some n) t = false ∧ copies o t n = 0%nat).
Proof.
  unfold copies, member.
  destruct (bool_decide (n ∈ o)); [by left|].
  destruct (bool_decide (n ∈ t)); [right; by left | right; by right].
Qed.

Lemma parent_copies_member o t x :
  (member x o = true ∧ parent_copies o t x = 1%nat) ∨
  (member x o = false ∧ member x t = true ∧ parent_copies o t x = 2%nat) ∨
  (member x o = false ∧ member x t = false ∧ parent_copies o t x = 0%nat).
Proof.
  destruct x as [n|]; [apply copies_member|]. right; right. done.
Qed.

(** What the three loop bodies compute for a person whose record names a
    parent, in terms of the formulas of the specification. *)
Lemma branch_formulas people one_gene two_genes have_trait person r :
  people !! person = Some r →
  no_parents r = false →
  let m := spec_transmit (parent_copies one_gene two_genes (mother r)) in
  let f := spec_transmit (parent_copies one_gene two_genes (father r)) in
  let b := bool_decide (person ∈ have_trait) in
  one_gene_prob people one_gene two_genes have_trait person
    = Ok (spec_inherit m f 1 * spec_trait_given 1 b) ∧
  two_genes_prob people one_gene two_genes have_trait person
    = Ok (spec_inherit m f 2 * spec_trait_given 2 b) ∧
  (person ∉ one_gene → person ∉ two_genes →
   no_gene_prob people one_gene two_genes have_trait person
    = Ok [spec_inherit m f 0 * spec_trait_given 0 b]).
Proof.
  intros Hr Hnp m f b.
  unfold one_gene_prob, two_genes_prob, no_gene_prob.
  rewrite (getitem_Some _ _ _ Hr). cbn [mbind outcome_bind]. rewrite Hnp.
  subst m f b. unfold spec_trait_given, spec_inherit.
  destruct (parent_copies_member one_gene two_genes (mother r))
    as [[-> ->]|[(-> & -> & ->)|(-> & -> & ->)]];
  destruct (parent_copies_member one_gene two_genes (father r))
    as [[-> ->]|[(-> & -> & ->)|(-> & -> & ->)]];
  cbn [spec_transmit];
  (split; [by destruct (bool_decide (person ∈ have_trait))|]);
  (split; [by destruct (bool_decide (person ∈ have_trait))|]);
  intros Ho Ht; rewrite !bool_decide_eq_true_2 by done; cbn [andb];
  destruct (bool_decide (person ∈ have_trait)); f_equal; f_equal; ring.
Qed.

(** C1.  For a person with both parents, the number that each loop of
    [joint_probability] appends is the gene-count factor of the
    specification, computed from the transmit-probabilities [m], [f] of the
    parents' assigned copies, times the trait entry: [m(1-f) + f(1-m)] in the
    loop over [one_gene], [m·f] in the loop over [two_genes], and
    [(1-m)(1-f)] for a person in neither set. *)
Theorem C1_gene_factor_formulas people one_gene two_genes have_trait
    person r mom dad :
  people !! person = Some r →
  mother r = Some mom →
  father r = Some dad →
  let m := spec_transmit (copies one_gene two_genes mom) in
  let f := spec_transmit (copies one_gene two_genes dad) in
  let b := bool_decide (person ∈ have_trait) in
  spec_transmit 2 = 1 - P_mutation PROBS ∧
  spec_transmit 1 = half * (1 - P_mutation PROBS) + half * P_mutation PROBS ∧
  spec_transmit 0 = P_mutation PROBS ∧
  one_gene_prob people one_gene two_genes have_trait person
    = Ok ((m * (1 - f) + f * (1 - m)) * spec_trait_given 1 b) ∧
  two_genes_prob people one_gene two_genes have_trait person
    = Ok (m * f * spec_trait_given 2 b) ∧
  (person ∉ one_gene → person ∉ two_genes →
   no_gene_prob people one_gene two_genes have_trait person
    = Ok [(1 - m) * (1 - f) * spec_trait_given 0 b]).
Proof.
  intros Hr Hmom Hdad m f b.
  split; [done|]. split; [done|]. split; [done|].
  assert (no_parents r = false) as Hnp.
  { unfold no_parents. by rewrite Hmom. }
  pose proof (branch_formulas people one_gene two_genes have_trait
                person r Hr Hnp) as H.
  rewrite Hmom, Hdad in H. exact H.
Qed.

Lemma C1_witness :
  let people := load_data family0 in
  let one_gene : gset string := {["Harry"%string]} in
  let two_genes : gset string := {["James"%string]} in
  let have_trait : gset string := {["James"%string]} in
  let m := spec_transmit (copies one_gene two_genes "Lily") in
  let f := spec_transmit (copies one_gene two_genes "James") in
  one_gene_prob people one_gene two_genes have_trait "Harry"
    = Ok ((m * (1 - f) + f * (1 - m)) * spec_trait_given 1 false) ∧
  two_genes_prob people one_gene two_genes have_trait "Harry"
    = Ok (m * f * spec_trait_given 2 false).
Proof.
  intros people one_gene two_genes have_trait m f.
  pose proof (C1_gene_factor_formulas people one_gene two_genes have_trait
                "Harry" (mk_individual "Harry" (Some "Lily"%string)
                                       (Some "James"%string) None)
                "Lily" "James") as H.
  destruct H as (_ & _ & _ & H1 & H2 & _).
  - vm_compute. reflexivity.
  - reflexivity.
  - reflexivity.
  - split; [exact H1|exact H2].
Defined.

(** ** Products, sums and loops *)

Lemma foldl_Qcmult a l : foldl Qcmult a l = a * foldr Qcmult 1 l.
Proof.
  revert a. induction l as [|x l IH]; intros a; cbn [foldl foldr].
  - ring.
  - rewrite IH. ring.
Qed.

Lemma product_nil : product [] = 1.
Proof. reflexivity. Qed.

Lemma product_cons x l : product (x :: l) = x * product l.
Proof. unfold product. rewrite !foldl_Qcmult. cbn [foldr]. ring. Qed.

Lemma product_app l k : product (l ++ k) = product l * product k.
Proof.
  induction l as [|x l IH]; cbn [app].
  - rewrite product_nil. ring.
  - rewrite !product_cons, IH. ring.
Qed.

Lemma product_Permutation l k : l ≡ₚ k → product l = product k.
Proof.
  induction 1 as [|x l k _ IH|x y l|l k j _ IH1 _ IH2].
  - done.
  - by rewrite !product_cons, IH.
  - rewrite !product_cons. ring.
  - congruence.
Qed.

Lemma foldl_Qcplus a l : foldl Qcplus a l = a + foldr Qcplus 0 l.
Proof.
  revert a. induction l as [|x l IH]; intros a; cbn [foldl foldr].
  - ring.
  - rewrite IH. ring.
Qed.

Lemma sum_nil : sum [] = 0.
Proof. reflexivity. Qed.

Lemma sum_cons x l : sum (x :: l) = x + sum l.
Proof. unfold sum. rewrite !foldl_Qcplus. cbn [foldr]. ring. Qed.

Lemma mapM_Ok {A B} (f : A → outcome B) (g : A → B) l :
  (∀ x, x ∈ l → f x = Ok (g x)) → mapM f l = Ok (g <$> l).
Proof.
  induction l as [|x l IH]; intros H; [done|].
  cbn [mapM]. rewrite (H x) by left. cbn [mbind outcome_bind].
  rewrite IH by (intros; apply H; by right). done.
Qed.

Lemma foldlM_app {St A} (body : St → A → outcome St) s l k :
  foldlM body s (l ++ k) = (s' ← foldlM body s l; foldlM body s' k).
Proof.
  revert s. induction l as [|x l IH]; intros s; [done|].
  cbn [app foldlM]. destruct (body s x); cbn [mbind outcome_bind]; [apply IH|done].
Qed.

Lemma foldlM_bind {St A B} (body : St → B → outcome St) (f : A → list B) s l :
  foldlM (λ s x, foldlM body s (f x)) s l = foldlM body s (l ≫= f).
Proof.
  revert s. induction l as [|x l IH]; intros s; [done|].
  cbn [foldlM]. change ((x :: l) ≫= f) with (f x ++ (l ≫= f)).
  rewrite foldlM_app. destruct (foldlM body s (f x)); cbn [mbind outcome_bind];
    [apply IH|done].
Qed.

(** ** Dictionaries and their keys *)

Lemma NoDup_keys {V} (d : gmap string V) : NoDup (keys d).
Proof. apply NoDup_fst_map_to_list. Qed.

Lemma elem_of_keys {V} (d : gmap string V) k : k ∈ keys d ↔ is_Some (d !! k).
Proof.
  unfold keys. rewrite list_elem_of_fmap. split.
  - intros [[k' v] [-> H]]. apply elem_of_map_to_list in H. by exists v.
  - intros [v H]. exists (k, v). split; [done|]. by apply elem_of_map_to_list.
Qed.

Lemma elem_of_keys_dom {V} (d : gmap string V) k : k ∈ keys d ↔ k ∈ dom d.
Proof. by rewrite elem_of_keys, elem_of_dom. Qed.

(** ** [joint_probability] is the product of the per-person factors *)

Lemma no_parents_false r :
  no_parents r = false →
  match mother r, father r with
  | None, None => False
  | _, _ => True
  end.
Proof. unfold no_parents. by destruct (mother r), (father r). Qed.

Section branches.
Context (people : gmap string individual).
Context (one_gene two_genes have_trait : gset string).
Context (person : string) (r : individual).
Hypothesis Hr : people !! person = Some r.

Lemma one_gene_prob_spec :
  person ∈ one_gene →
  one_gene_prob people one_gene two_genes have_trait person
    = Ok (spec_factor one_gene two_genes have_trait person r).
Proof using Hr.
  intros Ho. unfold one_gene_prob, spec_factor, copies.
  rewrite (getitem_Some _ _ _ Hr), (bool_decide_eq_true_2 _ Ho).
  cbn [mbind outcome_bind]. unfold spec_trait_given.
  destruct (no_parents r) eqn:Hnp.
  - unfold no_parents in Hnp. destruct (mother r), (father r); try done.
    by destruct (bool_decide (person ∈ have_trait)).
  - apply no_parents_false in Hnp.
    destruct (parent_copies_member one_gene two_genes (mother r))
      as [[-> Hm]|[(-> & -> & Hm)|(-> & -> & Hm)]];
    destruct (parent_copies_member one_gene two_genes (father r))
      as [[-> Hf]|[(-> & -> & Hf)|(-> & -> & Hf)]];
    destruct (mother r), (father r); try done; rewrite Hm, Hf;
    by destruct (bool_decide (person ∈ have_trait)).
Qed.

Lemma two_genes_prob_spec :
  person ∉ one_gene → person ∈ two_genes →
  two_genes_prob people one_gene two_genes have_trait person
    = Ok (spec_factor one_gene two_genes have_trait person r).
Proof using Hr.
  intros Ho Ht. unfold two_genes_prob, spec_factor, copies.
  rewrite (getitem_Some _ _ _ Hr), (bool_decide_eq_false_2 _ Ho),
    (bool_decide_eq_true_2 _ Ht).
  cbn [mbind outcome_bind]. unfold spec_trait_given.
  destruct (no_parents r) eqn:Hnp.
  - unfold no_parents in Hnp. destruct (mother r), (father r); try done.
    by destruct (bool_decide (person ∈ have_trait)).
  - apply no_parents_false in Hnp.
    destruct (parent_copies_member one_gene two_genes (mother r))
      as [[-> Hm]|[(-> & -> & Hm)|(-> & -> & Hm)]];
    destruct (parent_copies_member one_gene two_genes (father r))
      as [[-> Hf]|[(-> & -> & Hf)|(-> & -> & Hf)]];
    destruct (mother r), (father r); try done; rewrite Hm, Hf;
    by destruct (bool_decide (person ∈ have_trait)).
Qed.

Lemma no_gene_prob_spec :
  person ∉ one_gene → person ∉ two_genes →
  no_gene_prob people one_gene two_genes have_trait person
    = Ok [spec_factor one_gene two_genes have_trait person r].
Proof using Hr.
  intros Ho Ht. unfold no_gene_prob, spec_factor, copies.
  rewrite (getitem_Some _ _ _ Hr), (bool_decide_eq_false_2 _ Ho),
    (bool_decide_eq_false_2 _ Ht), !bool_decide_eq_true_2 by done.
  cbn [mbind outcome_bind andb]. unfold spec_trait_given.
  destruct (no_parents r) eqn:Hnp.
  - unfold no_parents in Hnp. destruct (mother r), (father r); try done.
    by destruct (bool_decide (person ∈ have_trait)).
  - apply no_parents_false in Hnp.
    destruct (parent_copies_member one_gene two_genes (mother r))
      as [[-> Hm]|[(-> & -> & Hm)|(-> & -> & Hm)]];
    destruct (parent_copies_member one_gene two_genes (father r))
      as [[-> Hf]|[(-> & -> & Hf)|(-> & -> & Hf)]];
    destruct (mother r), (father r); try done; rewrite Hm, Hf;
    cbn [spec_transmit spec_inherit];
    destruct (bool_decide (person ∈ have_trait)); f_equal; f_equal; ring.
Qed.
End branches.

Lemma no_gene_prob_skip people one_gene two_genes have_trait person :
  person ∈ one_gene ∨ person ∈ two_genes →
  no_gene_prob people one_gene two_genes have_trait person = Ok [].
Proof.
  intros H. unfold no_gene_prob.
  destruct (bool_decide_reflect (person ∉ one_gene)); [|done].
  destruct (bool_decide_reflect (person ∉ two_genes)); [|done].
  by destruct H.
Qed.

Section joint.
Context (people : gmap string individual).
Context (one_gene two_genes have_trait : gset string).
Hypothesis Hone : one_gene ⊆ dom people.
Hypothesis Htwo : two_genes ⊆ dom people.
Hypothesis Hdisj : one_gene ## two_genes.

Local Abbreviation F := (factor_of people one_gene two_genes have_trait).

Lemma spec_joint_keys :
  spec_joint people one_gene two_genes have_trait = product (F <$> keys people).
Proof.
  unfold spec_joint, keys. f_equal. rewrite <-list_fmap_compose.
  apply Forall_fmap_ext_1, Forall_forall.
  intros [k r] Hk%elem_of_map_to_list.
  cbn. unfold factor_of. by rewrite Hk.
Qed.

Lemma elements_filter_keys (s : gset string) :
  s ⊆ dom people → elements s ≡ₚ filter (λ k, k ∈ s) (keys people).
Proof.
  intros Hs. apply NoDup_Permutation.
  - apply NoDup_elements.
  - apply NoDup_filter, NoDup_keys.
  - intros k. rewrite elem_of_elements, list_elem_of_filter, elem_of_keys_dom.
    split; [intros Hk; split; [done|by apply Hs]|tauto].
Qed.

Lemma product_three_ways (l : list string) :
  product (F <$> l)
  = product (F <$> filter (λ k, k ∈ one_gene) l)
    * product (F <$> filter (λ k, k ∈ two_genes) l)
    * product (F <$> filter (λ k, (k ∉ one_gene) ∧ k ∉ two_genes) l).
Proof using Hdisj.
  clear Hone Htwo. induction l as [|k l IH].
  { rewrite !filter_nil. cbn [fmap list_fmap]. rewrite product_nil. ring. }
  rewrite !filter_cons. cbn [fmap list_fmap]. rewrite product_cons, IH.
  destruct (decide (k ∈ one_gene)) as [Ho|Ho];
    destruct (decide (k ∈ two_genes)) as [Ht|Ht];
    try (exfalso; set_solver);
    repeat case_decide; try (exfalso; tauto);
    cbn [fmap list_fmap]; rewrite ?product_cons; ring.
Qed.

Lemma no_gene_probs (l : list string) :
  (∀ k, k ∈ l → is_Some (people !! k)) →
  mapM (no_gene_prob people one_gene two_genes have_trait) l
  = Ok ((λ k, if decide ((k ∉ one_gene) ∧ k ∉ two_genes) then [F k] else [])
          <$> l).
Proof.
  intros Hl. apply mapM_Ok. intros k [r Hr]%Hl.
  case_decide as Hk.
  - unfold factor_of. rewrite Hr. apply no_gene_prob_spec; tauto.
  - apply no_gene_prob_skip.
    destruct (decide (k ∈ one_gene)); [by left|].
    destruct (decide (k ∈ two_genes)); [by right|tauto].
Qed.

Lemma concat_filter (l : list string) :
  concat ((λ k, if decide ((k ∉ one_gene) ∧ k ∉ two_genes) then [F k] else [])
            <$> l)
  = F <$> filter (λ k, (k ∉ one_gene) ∧ k ∉ two_genes) l.
Proof.
  induction l as [|k l IH]; [done|].
  rewrite filter_cons. cbn [fmap list_fmap concat]. rewrite IH.
  by case_decide.
Qed.

Lemma joint_probability_spec :
  joint_probability people one_gene two_genes have_trait
  = Ok (spec_joint people one_gene two_genes have_trait).
Proof using Hone Htwo Hdisj.
  unfold joint_probability.
  rewrite (mapM_Ok (one_gene_prob _ _ _ _) F).
  2:{ intros k Hk%elem_of_elements.
      assert (is_Some (people !! k)) as [r Hr] by (apply elem_of_dom; auto).
      unfold factor_of. rewrite Hr. by apply one_gene_prob_spec. }
  cbn [mbind outcome_bind].
  rewrite (mapM_Ok (two_genes_prob _ _ _ _) F).
  2:{ intros k Hk%elem_of_elements.
      assert (is_Some (people !! k)) as [r Hr] by (apply elem_of_dom; auto).
      unfold factor_of. rewrite Hr. apply two_genes_prob_spec; set_solver. }
  cbn [mbind outcome_bind].
  rewrite no_gene_probs by (intros k; apply elem_of_keys).
  cbn [mbind outcome_bind]. f_equal.
  rewrite concat_filter, !product_app, spec_joint_keys.
  rewrite (product_three_ways (keys people)).
  rewrite (product_Permutation (F <$> elements one_gene)
             (F <$> filter (λ k, k ∈ one_gene) (keys people)))
    by (by apply fmap_Permutation, elements_filter_keys).
  rewrite (product_Permutation (F <$> elements two_genes)
             (F <$> filter (λ k, k ∈ two_genes) (keys people)))
    by (by apply fmap_Permutation, elements_filter_keys).
  ring.
Qed.
End joint.

(** ** [powerset] lists every subset once *)

Lemma elem_of_combinations {A} (l : list A) r k :
  k ∈ combinations l r ↔ k `sublist_of` l ∧ length k = r.
Proof.
  revert r k. induction l as [|x l IH]; intros [|r] k; cbn [combinations].
  - rewrite list_elem_of_singleton, sublist_nil_r.
    split; [by intros ->|by intros [-> _]].
  - rewrite sublist_nil_r. split; [by intros ?%not_elem_of_nil|].
    by intros [-> ?].
  - rewrite list_elem_of_singleton. split.
    + intros ->. split; [apply sublist_nil_l|done].
    + intros [_ Hk]. by destruct k.
  - rewrite elem_of_app, list_elem_of_fmap, sublist_cons_r, IH. split.
    + intros [(k' & -> & [Hs Hl]%IH)|[Hs Hl]].
      * split; [right; by exists k'|by rewrite <-Hl].
      * split; [by left|done].
    + intros [[Hs|(k' & -> & Hs)] Hl].
      * by right.
      * left. exists k'. split; [done|]. apply IH. split; [done|].
        cbn in Hl. lia.
Qed.

Lemma NoDup_combinations {A} (l : list A) r :
  NoDup l → NoDup (combinations l r).
Proof.
  intros Hl. revert r. induction Hl as [|x l Hx Hl IH]; intros [|r];
    cbn [combinations]; try apply NoDup_singleton; [apply NoDup_nil_2|].
  apply NoDup_app. split; [|split].
  - apply NoDup_fmap_2; [|apply IH]. by intros ?? [=].
  - intros k (k' & -> & _)%list_elem_of_fmap [Hs _]%elem_of_combinations.
    apply Hx. eapply elem_of_sublist; [|exact Hs]. by left.
  - apply IH.
Qed.

Lemma filter_ext_elem_of {A} (P Q : A → Prop)
    `{!∀ x, Decision (P x)} `{!∀ x, Decision (Q x)} (l : list A) :
  (∀ x, x ∈ l → P x ↔ Q x) → filter P l = filter Q l.
Proof.
  induction l as [|x l IH]; intros Hext; [done|].
  rewrite !filter_cons.
  rewrite IH by (intros; apply Hext; by right).
  destruct (decide (P x)) as [HP|HP], (decide (Q x)) as [HQ|HQ]; try done.
  - exfalso. apply HQ, Hext; [by left|done].
  - exfalso. apply HP, Hext; [by left|done].
Qed.

Lemma sublist_filter_elem_of {A} `{!EqDecision A} (k l : list A) :
  NoDup l → k `sublist_of` l → k = filter (λ x, x ∈ k) l.
Proof.
  intros Hl Hs. induction Hs as [|x k l Hs IH|x k l Hs IH].
  - done.
  - apply NoDup_cons in Hl as [Hx Hl].
    rewrite filter_cons, decide_True by left. f_equal.
    rewrite (IH Hl) at 1. apply filter_ext_elem_of.
    intros y Hy. rewrite elem_of_cons. split; [by right|].
    intros [->|?]; [done|done].
  - apply NoDup_cons in Hl as [Hx Hl].
    rewrite filter_cons, decide_False; [by apply IH|].
    intros Hk. apply Hx. by eapply elem_of_sublist.
Qed.

Lemma sublist_same_elements {A} `{!EqDecision A} (k1 k2 l : list A) :
  NoDup l → k1 `sublist_of` l → k2 `sublist_of` l →
  (∀ x, x ∈ k1 ↔ x ∈ k2) → k1 = k2.
Proof.
  intros Hl H1 H2 H.
  rewrite (sublist_filter_elem_of k1 l Hl H1),
    (sublist_filter_elem_of k2 l Hl H2).
  apply filter_ext_elem_of. intros x _. apply H.
Qed.

Lemma elem_of_powerset (s X : gset string) : X ∈ powerset s ↔ X ⊆ s.
Proof.
  unfold powerset. rewrite list_elem_of_fmap. split.
  - intros (k & -> & (r & [Hs _]%elem_of_combinations & _)%list_elem_of_bind).
    intros x Hx%elem_of_list_to_set.
    apply elem_of_elements. by eapply elem_of_sublist.
  - intros HX. exists (filter (λ x, x ∈ X) (elements s)). split.
    + apply set_eq. intros x.
      rewrite elem_of_list_to_set, list_elem_of_filter, elem_of_elements.
      split; [intros Hx; split; [done|by apply HX]|tauto].
    + apply list_elem_of_bind.
      exists (length (filter (λ x, x ∈ X) (elements s))). split.
      * apply elem_of_combinations. split; [apply sublist_filter|done].
      * apply elem_of_seq.
        pose proof (length_filter (λ x, x ∈ X) (elements s)). lia.
Qed.

Lemma NoDup_powerset (s : gset string) : NoDup (powerset s).
Proof.
  unfold powerset. apply NoDup_fmap_2_strong.
  - intros k1 k2 (r1 & [H1 _]%elem_of_combinations & _)%list_elem_of_bind
      (r2 & [H2 _]%elem_of_combinations & _)%list_elem_of_bind Heq.
    apply (sublist_same_elements k1 k2 (elements s));
      [apply NoDup_elements|done|done|].
    intros x. by rewrite <-!(elem_of_list_to_set (C := gset string)), Heq.
  - apply NoDup_bind; [| |apply NoDup_seq].
    + intros r1 r2 k _ _ [_ H1]%elem_of_combinations
        [_ H2]%elem_of_combinations. congruence.
    + intros r _. apply NoDup_combinations, NoDup_elements.
Qed.

(** ** The enumeration loop visits the list [hypotheses] *)

Lemma foldlM_ext {St A} (f g : St → A → outcome St) s l :
  (∀ s x, x ∈ l → f s x = g s x) → foldlM f s l = foldlM g s l.
Proof.
  revert s. induction l as [|x l IH]; intros s H; [done|].
  cbn [foldlM]. rewrite (H s x) by left.
  destruct (g s x); cbn [mbind outcome_bind]; [|done].
  apply IH. intros; apply H; by right.
Qed.

Lemma foldlM_fmap {St A B} (body : St → B → outcome St) (f : A → B) s l :
  foldlM (λ s x, body s (f x)) s l = foldlM body s (f <$> l).
Proof.
  revert s. induction l as [|x l IH]; intros s; [done|].
  cbn [foldlM fmap list_fmap]. destruct (body s (f x));
    cbn [mbind outcome_bind]; [apply IH|done].
Qed.

Lemma foldlM_log {A} (seen l : list A) :
  foldlM (λ seen x, Ok (seen ++ [x])) seen l = Ok (seen ++ l).
Proof.
  revert seen. induction l as [|x l IH]; intros seen; cbn [foldlM].
  - by rewrite app_nil_r.
  - cbn [mbind outcome_bind]. rewrite IH. by rewrite <-app_assoc.
Qed.

Lemma any_Ok {A} (f : A → outcome bool) (g : A → bool) l :
  (∀ x, x ∈ l → f x = Ok (g x)) → any f l = Ok (existsb g l).
Proof.
  induction l as [|x l IH]; intros H; [done|].
  cbn [any existsb]. rewrite (H x) by left. cbn [mbind outcome_bind].
  destruct (g x); [done|]. apply IH. intros; apply H; by right.
Qed.

Lemma fails_evidence_Ok people have_trait :
  fails_evidence people (dom people) have_trait
  = Ok (existsb (contradicts people have_trait) (elements (dom people))).
Proof.
  unfold fails_evidence. apply any_Ok.
  intros person [r Hr]%elem_of_elements%elem_of_dom.
  unfold contradicts. by rewrite (getitem_Some _ _ _ Hr), Hr.
Qed.

Lemma enumerate_outer {St} people (body : St → hypothesis → outcome St)
    (L : list (gset string)) s :
  foldlM (λ s have_trait,
    fails ← fails_evidence people (dom people) have_trait;
    if (fails : bool) then Ok s
    else
      foldlM (λ s one_gene,
        foldlM (λ s two_genes,
                  body s (mk_hypothesis one_gene two_genes have_trait))
               s (powerset (dom people ∖ one_gene)))
        s (powerset (dom people)))
    s L
  = foldlM body s
      (have_trait ←
         filter (λ have_trait,
                   existsb (contradicts people have_trait)
                           (elements (dom people)) = false) L;
       one_gene ← powerset (dom people);
       (λ two_genes, mk_hypothesis one_gene two_genes have_trait)
         <$> powerset (dom people ∖ one_gene)).
Proof.
  revert s. induction L as [|have_trait L IH]; intros s; [done|].
  cbn [foldlM]. rewrite fails_evidence_Ok. cbn [mbind outcome_bind].
  rewrite filter_cons.
  destruct (existsb _ _) eqn:Hfails.
  - rewrite decide_False by done. apply IH.
  - rewrite decide_True by done.
    match goal with
    | |- _ = foldlM _ _ ((_ :: ?l) ≫= ?f) =>
      change ((have_trait :: l) ≫= f) with (f have_trait ++ (l ≫= f))
    end.
    cbv beta. rewrite foldlM_app, <-foldlM_bind.
    rewrite (foldlM_ext _
      (λ s one_gene, foldlM body s
         ((λ two_genes, mk_hypothesis one_gene two_genes have_trait)
            <$> powerset (dom people ∖ one_gene)))).
    2:{ intros s' one_gene _. apply foldlM_fmap. }
    destruct (foldlM _ s (powerset (dom people))); cbn [mbind outcome_bind];
      [apply IH|done].
Qed.

Lemma enumerate_hypotheses {St} people (body : St → hypothesis → outcome St) s :
  enumerate people body s = foldlM body s (hypotheses people).
Proof. apply enumerate_outer. Qed.

Lemma visited_hypotheses people : visited people = Ok (hypotheses people).
Proof. unfold visited. by rewrite enumerate_hypotheses, foldlM_log. Qed.

Lemma existsb_false {A} (g : A → bool) l :
  existsb g l = false ↔ ∀ x, x ∈ l → g x = false.
Proof.
  induction l as [|x l IH]; cbn [existsb].
  - split; [by intros _ ? ?%not_elem_of_nil|done].
  - rewrite orb_false_iff, IH. split.
    + intros [Hx Hl] y [->|Hy]%elem_of_cons; auto.
    + intros H. split; [apply H; by left|]. intros; apply H; by right.
Qed.

Lemma evidence_test (o : option bool) (b : bool) :
  bool_decide (o ≠ None) && bool_decide (o ≠ Some b) = false
  ↔ o = None ∨ o = Some b.
Proof.
  destruct o as [[]|], b; split; intros H;
    try (by left); try (by right); try done;
    destruct H as [H|H]; discriminate.
Qed.

Lemma contradicts_false people have_trait :
  (∀ person, person ∈ elements (dom people) →
     contradicts people have_trait person = false)
  ↔ consistent people have_trait.
Proof.
  unfold consistent, contradicts. split.
  - intros H person r Hr.
    specialize (H person). rewrite Hr in H.
    assert (person ∈ elements (dom people)) as Hin
      by (apply elem_of_elements, elem_of_dom; eauto).
    specialize (H Hin). apply evidence_test in H.
    destruct H as [H|H]; split; intros Ht; rewrite Ht in H;
      try discriminate; injection H as H.
    + by apply (bool_decide_eq_true_1 (person ∈ have_trait)).
    + by apply (bool_decide_eq_false_1 (person ∈ have_trait)).
  - intros H person _. destruct (people !! person) as [r|] eqn:Hr; [|done].
    destruct (H person r Hr) as [H1 H2]. apply evidence_test.
    destruct (trait r) as [[]|].
    + right. f_equal. symmetry. apply bool_decide_eq_true_2. auto.
    + right. f_equal. symmetry. apply bool_decide_eq_false_2. auto.
    + by left.
Qed.

Lemma elem_of_hypotheses people h :
  h ∈ hypotheses people ↔ spec_hypothesis people h.
Proof.
  unfold hypotheses, spec_hypothesis. rewrite list_elem_of_bind. split.
  - intros (ht & (o & (t & -> & Htw)%list_elem_of_fmap & Ho)%list_elem_of_bind
              & [Hev Hht]%list_elem_of_filter).
    apply elem_of_powerset in Htw, Ho, Hht. cbn.
    rewrite existsb_false, contradicts_false in Hev.
    split; [done|]. split; [done|]. split; [done|]. split.
    + intros x Hx%Htw%elem_of_difference. tauto.
    + apply elem_of_disjoint. intros x Hxo Hxt%Htw%elem_of_difference. tauto.
  - intros (Hht & Hev & Ho & Ht & Hd). exists (h_have_trait h). split.
    + apply list_elem_of_bind. exists (h_one_gene h). split.
      * apply list_elem_of_fmap. exists (h_two_genes h).
        split; [by destruct h|]. apply elem_of_powerset. set_solver.
      * by apply elem_of_powerset.
    + apply list_elem_of_filter. split.
      * by apply existsb_false, contradicts_false.
      * by apply elem_of_powerset.
Qed.

Lemma NoDup_hypotheses people : NoDup (hypotheses people).
Proof.
  unfold hypotheses. apply NoDup_bind.
  - intros ht1 ht2 h _ _
      (o1 & (t1 & -> & _)%list_elem_of_fmap & _)%list_elem_of_bind
      (o2 & (t2 & [=] & _)%list_elem_of_fmap & _)%list_elem_of_bind.
    done.
  - intros ht _. apply NoDup_bind.
    + intros o1 o2 h _ _ (t1 & -> & _)%list_elem_of_fmap
        (t2 & [=] & _)%list_elem_of_fmap. done.
    + intros o _. apply NoDup_fmap_2; [|apply NoDup_powerset].
      by intros ?? [=].
    + apply NoDup_powerset.
  - apply NoDup_filter, NoDup_powerset.
Qed.

(** C3.  The loop of [main] visits the hypotheses of the specification and
    no others: a hypothesis is visited exactly when its trait subset is a
    subset of the individuals that agrees with the evidence and its
    [one_gene] and [two_genes] are disjoint subsets of the individuals; none
    is visited twice; the accumulation runs over this very sequence; and the
    empty pedigree has the one, empty, hypothesis. *)
Theorem C3_enumeration_is_exact people :
  ∃ hs,
    visited people = Ok hs ∧
    NoDup hs ∧
    (∀ h, h ∈ hs ↔ spec_hypothesis people h) ∧
    accumulate people
      = foldlM (score_and_update people) ((λ _, zero_dist) <$> people) hs ∧
    (people = ∅ → hs = [mk_hypothesis ∅ ∅ ∅]).
Proof.
  exists (hypotheses people). split; [apply visited_hypotheses|].
  split; [apply NoDup_hypotheses|].
  split; [apply elem_of_hypotheses|].
  split; [apply enumerate_hypotheses|].
  intros ->. vm_compute. reflexivity.
Qed.

Example visited_family0 :
  (λ hs, length hs) <$> (match visited (load_data family0) with
                         | Ok hs => Some hs
                         | Raise _ => None
                         end) = Some 54%nat.
Proof. vm_compute. reflexivity. Qed.

(** ** [update] *)

Lemma lookup_foldl_alter {V} (f : string → V → V) order (P : gmap string V) k :
  NoDup order →
  foldl (λ P k, alter (f k) k P) P order !! k
  = if decide (k ∈ order) then f k <$> P !! k else P !! k.
Proof.
  intros Hnd. revert P.
  induction Hnd as [|k0 order Hk0 Hnd IH]; intros P; cbn [foldl].
  - by rewrite decide_False by apply not_elem_of_nil.
  - rewrite IH, lookup_alter.
    destruct (decide (k0 = k)) as [->|Hne].
    + rewrite (decide_False (P := k ∈ order)) by done.
      by rewrite decide_True by left.
    + destruct (decide (k ∈ order)) as [Hin|Hin].
      * by rewrite decide_True by (by right).
      * rewrite decide_False; [done|].
        intros [->|?]%elem_of_cons; done.
Qed.

Lemma lookup_update_in_order order P o t h p k :
  NoDup order →
  update_in_order order P o t h p !! k
  = if decide (k ∈ order) then update_person o t h p k <$> P !! k
    else P !! k.
Proof. apply (lookup_foldl_alter (update_person o t h p)). Qed.

Lemma lookup_update P o t h p k :
  update P o t h p !! k = update_person o t h p k <$> P !! k.
Proof.
  unfold update. rewrite lookup_update_in_order by apply NoDup_keys.
  case_decide as Hk; [done|].
  rewrite elem_of_keys in Hk. apply eq_None_not_Some in Hk. by rewrite Hk.
Qed.

Lemma update_in_order_Permutation order P o t h p :
  order ≡ₚ keys P → update_in_order order P o t h p = update P o t h p.
Proof.
  intros Hp. apply map_eq. intros k.
  rewrite lookup_update, lookup_update_in_order
    by (rewrite Hp; apply NoDup_keys).
  case_decide as Hk; [done|].
  rewrite Hp, elem_of_keys in Hk. apply eq_None_not_Some in Hk.
  by rewrite Hk.
Qed.

Lemma update_person_comm o1 t1 h1 p1 o2 t2 h2 p2 k d :
  update_person o1 t1 h1 p1 k (update_person o2 t2 h2 p2 k d)
  = update_person o2 t2 h2 p2 k (update_person o1 t1 h1 p1 k d).
Proof.
  unfold update_person.
  destruct (bool_decide (k ∈ o1)), (bool_decide (k ∈ t1)),
    (bool_decide (k ∈ h1)), (bool_decide (k ∈ o2)), (bool_decide (k ∈ t2)),
    (bool_decide (k ∈ h2)); cbn; f_equal; f_equal; ring.
Qed.

Lemma update_comm P o1 t1 h1 p1 o2 t2 h2 p2 :
  update (update P o2 t2 h2 p2) o1 t1 h1 p1
  = update (update P o1 t1 h1 p1) o2 t2 h2 p2.
Proof.
  apply map_eq. intros k. rewrite !lookup_update.
  destruct (P !! k) as [d|]; [|done]. cbn. f_equal.
  apply update_person_comm.
Qed.

Lemma accumulate_pairs_Permutation P pairs pairs' :
  pairs ≡ₚ pairs' → accumulate_pairs P pairs = accumulate_pairs P pairs'.
Proof.
  unfold accumulate_pairs. intros Hp. revert P.
  induction Hp as [|[h p] l l' _ IH|[h1 p1] [h2 p2] l|l1 l2 l3 _ IH1 _ IH2];
    intros P; cbn [foldl].
  - done.
  - apply IH.
  - by rewrite update_comm.
  - by rewrite IH1.
Qed.

Lemma lookup_accumulate_pairs P pairs k :
  accumulate_pairs P pairs !! k
  = (λ d, accumulate_person k d pairs) <$> P !! k.
Proof.
  unfold accumulate_pairs, accumulate_person. revert P.
  induction pairs as [|[h p] pairs IH]; intros P; cbn [foldl].
  - by destruct (P !! k).
  - rewrite IH, lookup_update. by destruct (P !! k).
Qed.

Lemma update_person_totals o t h p k d :
  gene_total (update_person o t h p k d) = gene_total d + p ∧
  trait_total (update_person o t h p k d) = trait_total d + p.
Proof.
  unfold update_person, gene_total, trait_total.
  destruct (bool_decide (k ∈ o)), (bool_decide (k ∈ t)),
    (bool_decide (k ∈ h)); cbn; split; ring.
Qed.

Lemma accumulate_person_totals k d pairs :
  gene_total (accumulate_person k d pairs) = gene_total d + sum pairs.*2 ∧
  trait_total (accumulate_person k d pairs) = trait_total d + sum pairs.*2.
Proof.
  unfold accumulate_person. revert d.
  induction pairs as [|[h p] pairs IH]; intros d; cbn [foldl fmap list_fmap].
  - rewrite sum_nil. split; ring.
  - destruct (IH (update_person (h_one_gene h) (h_two_genes h)
                                (h_have_trait h) p k d)) as [-> ->].
    destruct (update_person_totals (h_one_gene h) (h_two_genes h)
                                   (h_have_trait h) p k d) as [-> ->].
    cbn [snd]. rewrite sum_cons. split; ring.
Qed.

(** ** The accumulated table *)

Lemma joint_probability_hypothesis people h :
  spec_hypothesis people h →
  joint_probability people (h_one_gene h) (h_two_genes h) (h_have_trait h)
  = Ok (spec_joint people (h_one_gene h) (h_two_genes h) (h_have_trait h)).
Proof.
  intros (_ & _ & Ho & Ht & Hd). by apply joint_probability_spec.
Qed.

Lemma score_and_update_Ok people P h :
  spec_hypothesis people h →
  score_and_update people P h
  = Ok (update P (h_one_gene h) (h_two_genes h) (h_have_trait h)
          (spec_joint people (h_one_gene h) (h_two_genes h) (h_have_trait h))).
Proof.
  intros H. unfold score_and_update.
  by rewrite joint_probability_hypothesis.
Qed.

Lemma foldlM_score people P hs :
  (∀ h, h ∈ hs → spec_hypothesis people h) →
  foldlM (score_and_update people) P hs
  = Ok (accumulate_pairs P (scored people hs)).
Proof.
  unfold accumulate_pairs, scored. revert P.
  induction hs as [|h hs IH]; intros P H; [done|].
  cbn [foldlM fmap list_fmap foldl].
  rewrite score_and_update_Ok by (apply H; by left).
  cbn [mbind outcome_bind]. apply IH. intros; apply H; by right.
Qed.

Lemma accumulate_Ok people :
  accumulate people
  = Ok (accumulate_pairs ((λ _, zero_dist) <$> people)
                         (scored people (hypotheses people))).
Proof.
  unfold accumulate. rewrite enumerate_hypotheses.
  apply foldlM_score. intros h. apply elem_of_hypotheses.
Qed.

Lemma mapM_joint_probability people :
  mapM (λ h, joint_probability people (h_one_gene h) (h_two_genes h)
                               (h_have_trait h)) (hypotheses people)
  = Ok (scored people (hypotheses people)).*2.
Proof.
  unfold scored. rewrite <-list_fmap_compose. apply mapM_Ok.
  intros h Hh%elem_of_hypotheses. by apply joint_probability_hypothesis.
Qed.

(** ** [normalize] *)

Lemma sum_gene d :
  sum [gene_2 (d_gene d); gene_1 (d_gene d); gene_0 (d_gene d)] = gene_total d.
Proof. unfold sum, gene_total. cbn [foldl]. ring. Qed.

Lemma sum_trait d :
  sum [trait_True (d_trait d); trait_False (d_trait d)] = trait_total d.
Proof. unfold sum, trait_total. cbn [foldl]. ring. Qed.

Lemma normalize_person_Ok d :
  gene_total d ≠ 0 → trait_total d ≠ 0 →
  normalize_person d = Ok (scale_person d).
Proof.
  intros Hg Ht. unfold normalize_person, truediv.
  rewrite sum_gene, sum_trait, !decide_False by done.
  reflexivity.
Qed.

Lemma normalize_person_Raise d :
  gene_total d = 0 ∨ trait_total d = 0 →
  normalize_person d = Raise ZeroDivisionError.
Proof.
  intros H. unfold normalize_person, truediv.
  rewrite sum_gene, sum_trait.
  destruct (decide (gene_total d = 0)); [done|].
  cbn [mbind outcome_bind].
  destruct (decide (trait_total d = 0)); [done|]. by destruct H.
Qed.

Lemma normalize_loop_Ok ks (P : gmap string distributions) :
  NoDup ks →
  (∀ k, k ∈ ks → ∃ d, P !! k = Some d ∧ gene_total d ≠ 0 ∧ trait_total d ≠ 0) →
  foldlM (λ P person,
            d ← getitem P person;
            d' ← normalize_person d;
            Ok (<[person := d']> P)) P ks
  = Ok (foldl (λ P k, alter scale_person k P) P ks).
Proof.
  intros Hnd. revert P.
  induction Hnd as [|k0 ks Hk0 Hnd IH]; intros P H; [done|].
  cbn [foldlM foldl].
  destruct (H k0) as (d & Hd & Hg & Ht); [by left|].
  rewrite (getitem_Some _ _ _ Hd). cbn [mbind outcome_bind].
  rewrite normalize_person_Ok by done. cbn [mbind outcome_bind].
  assert (<[k0 := scale_person d]> P = alter scale_person k0 P) as ->.
  { apply map_eq. intros k. rewrite lookup_alter, lookup_insert.
    case_decide; [by rewrite Hd|done]. }
  apply IH. intros k Hk. destruct (H k) as (d' & Hd' & ?); [by right|].
  exists d'. split; [|done].
  rewrite lookup_alter_ne; [done|]. by intros ->.
Qed.

Lemma normalize_loop_Raise ks (P : gmap string distributions) :
  NoDup ks →
  (∀ k, k ∈ ks → is_Some (P !! k)) →
  (∃ k d, k ∈ ks ∧ P !! k = Some d ∧ (gene_total d = 0 ∨ trait_total d = 0)) →
  foldlM (λ P person,
            d ← getitem P person;
            d' ← normalize_person d;
            Ok (<[person := d']> P)) P ks
  = Raise ZeroDivisionError.
Proof.
  intros Hnd. revert P.
  induction Hnd as [|k0 ks Hk0 Hnd IH]; intros P Hin (k & d & Hk & Hd & Hz).
  { by apply not_elem_of_nil in Hk. }
  cbn [foldlM]. destruct (Hin k0) as [d0 Hd0]; [by left|].
  rewrite (getitem_Some _ _ _ Hd0). cbn [mbind outcome_bind].
  destruct (decide (gene_total d0 = 0 ∨ trait_total d0 = 0)) as [Hz0|Hnz0].
  { by rewrite normalize_person_Raise. }
  rewrite normalize_person_Ok by tauto. cbn [mbind outcome_bind].
  apply elem_of_cons in Hk as [->|Hk]; [congruence|].
  assert (k0 ≠ k) as Hne by (by intros ->).
  apply IH.
  - intros k' Hk'. rewrite lookup_insert. case_decide; [done|].
    apply Hin. by right.
  - exists k, d. by rewrite lookup_insert_ne.
Qed.

Lemma normalize_Ok (P : gmap string distributions) :
  (∀ person d, P !! person = Some d →
     gene_total d ≠ 0 ∧ trait_total d ≠ 0) →
  normalize P = Ok (scale_person <$> P).
Proof.
  intros H. unfold normalize. rewrite normalize_loop_Ok.
  - f_equal. apply map_eq. intros k.
    rewrite (lookup_foldl_alter (λ _, scale_person)) by apply NoDup_keys.
    rewrite lookup_fmap. case_decide as Hk; [done|].
    rewrite elem_of_keys in Hk. apply eq_None_not_Some in Hk.
    by rewrite Hk.
  - apply NoDup_keys.
  - intros k [d Hd]%elem_of_keys. exists d. split; [done|]. by apply (H k).
Qed.

Lemma normalize_Raise (P : gmap string distributions) :
  (∃ person d, P !! person = Some d ∧
     (gene_total d = 0 ∨ trait_total d = 0)) →
  normalize P = Raise ZeroDivisionError.
Proof.
  intros (k & d & Hd & Hz). unfold normalize. apply normalize_loop_Raise.
  - apply NoDup_keys.
  - intros k'. apply elem_of_keys.
  - exists k, d. split; [|done]. apply elem_of_keys. eauto.
Qed.

Lemma scale_person_totals d :
  gene_total d ≠ 0 → trait_total d ≠ 0 →
  gene_total (scale_person d) = 1 ∧ trait_total (scale_person d) = 1.
Proof.
  intros Hg Ht. unfold scale_person, gene_total, trait_total in *. cbn.
  split; field; done.
Qed.

(** ** Every run of [main] reaches a table with positive totals *)

Lemma copies_le o t k : (copies o t k ≤ 2)%nat.
Proof.
  unfold copies. destruct (bool_decide (k ∈ o)), (bool_decide (k ∈ t)); lia.
Qed.

Lemma parent_copies_le o t x : (parent_copies o t x ≤ 2)%nat.
Proof. destruct x; [apply copies_le|cbn; lia]. Qed.

Lemma spec_inherit_pos a b c :
  (a ≤ 2)%nat → (b ≤ 2)%nat → (c ≤ 2)%nat →
  0 < spec_inherit (spec_transmit a) (spec_transmit b) c.
Proof.
  intros Ha Hb Hc.
  destruct a as [|[|[|a]]]; [| | |lia];
    (destruct b as [|[|[|b]]]; [| | |lia]);
    (destruct c as [|[|[|c]]]; [| | |lia]); by vm_compute.
Qed.

Lemma spec_prior_pos c : (c ≤ 2)%nat → 0 < spec_prior c.
Proof. intros Hc. destruct c as [|[|[|c]]]; [| | |lia]; by vm_compute. Qed.

Lemma spec_trait_given_pos c b : (c ≤ 2)%nat → 0 < spec_trait_given c b.
Proof.
  intros Hc. destruct c as [|[|[|c]]]; [| | |lia]; destruct b; by vm_compute.
Qed.

Lemma spec_factor_pos o t h k r : 0 < spec_factor o t h k r.
Proof.
  unfold spec_factor. apply Qcmult_pos_pos.
  - pose proof (copies_le o t k).
    pose proof (parent_copies_le o t (mother r)).
    pose proof (parent_copies_le o t (father r)).
    destruct (mother r), (father r);
      auto using spec_inherit_pos, spec_prior_pos.
  - apply spec_trait_given_pos, copies_le.
Qed.

Lemma product_pos l : (∀ x, x ∈ l → 0 < x) → 0 < product l.
Proof.
  induction l as [|x l IH]; intros H.
  - by vm_compute.
  - rewrite product_cons. apply Qcmult_pos_pos; [apply H; by left|].
    apply IH. intros; apply H; by right.
Qed.

Lemma spec_joint_pos people o t h : 0 < spec_joint people o t h.
Proof.
  unfold spec_joint. apply product_pos.
  intros x ([k r] & -> & _)%list_elem_of_fmap. apply spec_factor_pos.
Qed.

Lemma sum_pos l : l ≠ [] → (∀ x, x ∈ l → 0 < x) → 0 < sum l.
Proof.
  induction l as [|x l IH]; intros Hne H; [done|].
  rewrite sum_cons. destruct l as [|y l].
  - rewrite sum_nil, Qcplus_0_r. apply H. by left.
  - apply Qcplus_pos_pos; [apply H; by left|].
    apply IH; [done|]. intros; apply H; by right.
Qed.

Lemma hypotheses_nonempty people : hypotheses people ≠ [].
Proof.
  pose (ht := dom (filter (λ kr, trait kr.2 = Some true) people)).
  assert (mk_hypothesis ∅ ∅ ht ∈ hypotheses people) as Hin.
  { apply elem_of_hypotheses. unfold spec_hypothesis. cbn.
    split; [apply dom_filter_subseteq|].
    split; [|split; [|split]]; [|apply empty_subseteq..|apply disjoint_empty_l].
    intros person r Hr. subst ht. rewrite elem_of_dom. split.
    - intros Ht. exists r. by apply map_lookup_filter_Some.
    - intros Ht [r' [Hr' Htrue]%map_lookup_filter_Some].
      cbn in Htrue. congruence. }
  intros Heq. rewrite Heq in Hin. by apply not_elem_of_nil in Hin.
Qed.

Lemma evidence_mass_pos people : 0 < evidence_mass people.
Proof.
  unfold evidence_mass, scored. rewrite <-list_fmap_compose. apply sum_pos.
  - pose proof (hypotheses_nonempty people).
    by destruct (hypotheses people).
  - intros x (h & -> & _)%list_elem_of_fmap. apply spec_joint_pos.
Qed.

Lemma accumulated_totals people person d :
  accumulate_pairs ((λ _, zero_dist) <$> people)
                   (scored people (hypotheses people)) !! person = Some d →
  gene_total d = evidence_mass people ∧ trait_total d = evidence_mass people.
Proof.
  rewrite lookup_accumulate_pairs, lookup_fmap.
  destruct (people !! person) as [r|]; [|done]. cbn. intros [= <-].
  destruct (accumulate_person_totals person zero_dist
              (scored people (hypotheses people))) as [-> ->].
  unfold gene_total, trait_total, zero_dist, evidence_mass. cbn.
  split; ring.
Qed.

Lemma main_on_Ok people :
  main_on people
  = Ok (scale_person
          <$> accumulate_pairs ((λ _, zero_dist) <$> people)
                               (scored people (hypotheses people))).
Proof.
  unfold main_on. rewrite accumulate_Ok. cbn [mbind outcome_bind].
  apply normalize_Ok. intros person d [Hg Ht]%accumulated_totals.
  rewrite Hg, Ht. pose proof (evidence_mass_pos people) as Hpos.
  apply Qclt_not_eq in Hpos. split; congruence.
Qed.

(** C7, as the program has it.  Whatever the parent references of the file
    are, no check is made: [load_data] builds the pedigree, the enumeration
    is entered, the accumulation succeeds and [main] returns the normalized
    table; [InvalidPedigree] is never reported. *)
Theorem C7_no_pedigree_validation (file : list csv_row) :
  ∃ hs P P',
    visited (load_data file) = Ok hs ∧ hs ≠ [] ∧
    accumulate (load_data file) = Ok P ∧
    main file = Ok P' ∧
    main file ≠ Raise InvalidPedigree.
Proof.
  exists (hypotheses (load_data file)).
  eexists. eexists.
  split; [apply visited_hypotheses|].
  split; [apply hypotheses_nonempty|].
  split; [apply accumulate_Ok|].
  unfold main. rewrite main_on_Ok. split; [reflexivity|discriminate].
Qed.

(** The claim C7 as the specification states it fails: the record of
    [half_orphan] has a mother and no father, and [main] returns a table. *)
Lemma C7_counterexample :
  ¬ (∀ file, invalid_pedigree (load_data file) →
             main file = Raise InvalidPedigree).
Proof.
  intros H. specialize (H half_orphan).
  unfold main in H. rewrite main_on_Ok in H. discriminate H.
  left. exists "A"%string, (mk_individual "A" (Some "B"%string) None None).
  split; [reflexivity|]. right. split; [discriminate|reflexivity].
Qed.

Example main_half_orphan :
  report (main half_orphan)
  = Some [("A"%string,
           [1 # 10000; 99 # 5000; 9801 # 10000;
            10477 # 500000; 489523 # 500000]%Q)].
Proof. vm_compute. reflexivity. Qed.

Example invalid_cyclic : invalid_pedigree (load_data cyclic).
Proof.
  right. right. exists "A"%string.
  apply tc_l with "B"%string.
  - exists (mk_individual "A" (Some "B"%string) (Some "B"%string) None).
    split; [reflexivity|by left].
  - apply tc_once.
    exists (mk_individual "B" (Some "A"%string) (Some "A"%string) (Some true)).
    split; [reflexivity|by left].
Qed.

Example main_cyclic :
  report (main cyclic)
  = Some [("A"%string,
           [3135797033 # 3914021866; 358167500 # 1957010933;
            61889833 # 3914021866; 122001728489 # 195701093300;
            73699364811 # 195701093300]%Q);
          ("B"%string,
           [3138024565 # 3914021866; 363860000 # 1957010933;
            48277301 # 3914021866; 1; 0]%Q)].
Proof. vm_compute. reflexivity. Qed.

Example main_family0 :
  report (main family0)
  = Some [("James"%string, [65 # 329; 24 # 47; 96 # 329; 1; 0]%Q);
          ("Lily"%string, [35 # 9671; 132 # 9671; 9504 # 9671; 0; 1]%Q);
          ("Harry"%string,
           [41740677 # 4545370000; 1035658623 # 2272685000;
            2432312077 # 4545370000; 60569610929 # 227268500000;
            166698889071 # 227268500000]%Q)].
Proof. vm_compute. reflexivity. Qed.

(** C10.  For a person whose record names a parent, every loop body of
    [joint_probability] computes its factor from the two parent references
    through their membership in [one_gene] and [two_genes] alone; a reference
    that is [None], or a name in neither set, is in neither set for the
    program and has the transmit-probability [PROBS["mutation"]] of a parent
    without a copy; and [joint_probability] returns a positive number, with
    no exception. *)
Theorem C10_absent_parent_counts_as_zero_copies
    people one_gene two_genes have_trait person r :
  people !! person = Some r →
  no_parents r = false →
  one_gene ⊆ dom people →
  two_genes ⊆ dom people →
  one_gene ## two_genes →
  let m := spec_transmit (parent_copies one_gene two_genes (mother r)) in
  let f := spec_transmit (parent_copies one_gene two_genes (father r)) in
  let b := bool_decide (person ∈ have_trait) in
  (∀ x : option string,
     x = None ∨ (∃ n, x = Some n ∧ (n ∉ one_gene) ∧ n ∉ two_genes) →
     member x one_gene = false ∧ member x two_genes = false ∧
     spec_transmit (parent_copies one_gene two_genes x) = P_mutation PROBS) ∧
  one_gene_prob people one_gene two_genes have_trait person
    = Ok (spec_inherit m f 1 * spec_trait_given 1 b) ∧
  two_genes_prob people one_gene two_genes have_trait person
    = Ok (spec_inherit m f 2 * spec_trait_given 2 b) ∧
  (person ∉ one_gene → person ∉ two_genes →
   no_gene_prob people one_gene two_genes have_trait person
    = Ok [spec_inherit m f 0 * spec_trait_given 0 b]) ∧
  ∃ q, joint_probability people one_gene two_genes have_trait = Ok q ∧ 0 < q.
Proof.
  intros Hr Hnp Hone Htwo Hdisj m f b. split; [|split; [|split; [|split]]].
  - intros x [->|(n & -> & Ho & Ht)]; [done|].
    unfold member, parent_copies, copies.
    by rewrite !bool_decide_eq_false_2 by done.
  - apply (branch_formulas people one_gene two_genes have_trait person r Hr Hnp).
  - apply (branch_formulas people one_gene two_genes have_trait person r Hr Hnp).
  - apply (branch_formulas people one_gene two_genes have_trait person r Hr Hnp).
  - exists (spec_joint people one_gene two_genes have_trait).
    split; [by apply joint_probability_spec|apply spec_joint_pos].
Qed.

Lemma C10_witness :
  one_gene_prob (load_data half_orphan) {["A"%string]} ∅ ∅ "A"
    = Ok (spec_inherit (P_mutation PROBS) (P_mutation PROBS) 1
          * spec_trait_given 1 false) ∧
  ∃ q, joint_probability (load_data half_orphan) {["A"%string]} ∅ ∅ = Ok q ∧
       0 < q.
Proof.
  destruct (C10_absent_parent_counts_as_zero_copies
              (load_data half_orphan) {["A"%string]} ∅ ∅ "A"
              (mk_individual "A" (Some "B"%string) None None))
    as (_ & H1 & _ & _ & H2).
  - reflexivity.
  - reflexivity.
  - apply (bool_decide_unpack _). vm_compute. reflexivity.
  - apply empty_subseteq.
  - apply disjoint_empty_r.
  - split; [exact H1|exact H2].
Defined.

(** ** A single founder without evidence *)

Lemma powerset_empty : powerset ∅ = [∅].
Proof. unfold powerset. by rewrite elements_empty. Qed.

Lemma powerset_singleton n : powerset {[n]} = [∅; {[n]}].
Proof.
  unfold powerset. rewrite elements_singleton. cbn.
  by rewrite (right_id_L ∅ (∪)).
Qed.

Lemma hypotheses_founder n r :
  trait r = None →
  hypotheses {[n := r]}
  = [ mk_hypothesis ∅ ∅ ∅; mk_hypothesis ∅ {[n]} ∅;
      mk_hypothesis {[n]} ∅ ∅;
      mk_hypothesis ∅ ∅ {[n]}; mk_hypothesis ∅ {[n]} {[n]};
      mk_hypothesis {[n]} ∅ {[n]} ].
Proof.
  intros Ht. unfold hypotheses.
  rewrite dom_singleton_L, powerset_singleton, elements_singleton.
  assert (∀ ht, contradicts {[n := r]} ht n = false) as Hc.
  { intros ht. unfold contradicts. rewrite lookup_singleton_eq, Ht.
    by rewrite (bool_decide_eq_false_2 (None ≠ None)) by auto. }
  rewrite !filter_cons, filter_nil. cbn [existsb]. rewrite !Hc. cbn [orb].
  rewrite !decide_True by done. cbn.
  by rewrite difference_empty_L, difference_diag_L, powerset_singleton,
    powerset_empty.
Qed.

Lemma spec_joint_singleton n r o t h :
  spec_joint {[n := r]} o t h = spec_factor o t h n r.
Proof.
  unfold spec_joint. rewrite map_to_list_singleton. cbn [fmap list_fmap].
  rewrite product_cons, product_nil. ring.
Qed.

Lemma accumulate_pairs_singleton n d pairs :
  accumulate_pairs {[n := d]} pairs = {[n := accumulate_person n d pairs]}.
Proof.
  apply map_eq. intros k. rewrite lookup_accumulate_pairs.
  destruct (decide (k = n)) as [->|Hne].
  - by rewrite !lookup_singleton_eq.
  - by rewrite !lookup_singleton_ne.
Qed.

Lemma update_person_bins o t h p k g2 g1 g0 tT tF :
  update_person o t h p k
    {| d_gene := {| gene_2 := g2; gene_1 := g1; gene_0 := g0 |};
       d_trait := {| trait_True := tT; trait_False := tF |} |}
  = {| d_gene :=
         {| gene_2 := if bool_decide (k ∈ o) then g2
                      else if bool_decide (k ∈ t) then g2 + p else g2;
            gene_1 := if bool_decide (k ∈ o) then g1 + p else g1;
            gene_0 := if bool_decide (k ∈ o) then g0
                      else if bool_decide (k ∈ t) then g0 else g0 + p |};
       d_trait :=
         {| trait_True := if bool_decide (k ∈ h) then tT + p else tT;
            trait_False := if bool_decide (k ∈ h) then tF else tF + p |} |}.
Proof.
  unfold update_person. cbn.
  by destruct (bool_decide (k ∈ o)), (bool_decide (k ∈ t)),
    (bool_decide (k ∈ h)).
Qed.

Lemma founder_factor n nm o t h :
  spec_factor o t h n (mk_individual nm None None None)
  = spec_prior (copies o t n)
    * spec_trait_given (copies o t n) (bool_decide (n ∈ h)).
Proof. reflexivity. Qed.

Lemma founder_table n nm :
  scale_person
    (accumulate_person n zero_dist
       (scored {[n := mk_individual nm None None None]}
               (hypotheses {[n := mk_individual nm None None None]})))
  = {| d_gene := P_gene PROBS;
       d_trait := {| trait_True := lit 329 10000;
                     trait_False := lit 9671 10000 |} |}.
Proof.
  rewrite hypotheses_founder by done.
  unfold scored. cbn [fmap list_fmap].
  rewrite !spec_joint_singleton, !founder_factor.
  unfold accumulate_person, zero_dist, copies.
  cbn [foldl h_one_gene h_two_genes h_have_trait].
  rewrite !(bool_decide_eq_false_2 (n ∈ (∅ : gset string)))
    by apply not_elem_of_empty.
  rewrite !(bool_decide_eq_true_2 (n ∈ ({[n]} : gset string)))
    by (by apply elem_of_singleton).
  repeat (rewrite update_person_bins;
          rewrite ?(bool_decide_eq_false_2 (n ∈ (∅ : gset string)))
            by apply not_elem_of_empty;
          rewrite ?(bool_decide_eq_true_2 (n ∈ ({[n]} : gset string)))
            by (by apply elem_of_singleton);
          cbv iota).
  unfold scale_person, gene_total, trait_total.
  cbn [d_gene d_trait gene_2 gene_1 gene_0 trait_True trait_False].
  change (P_gene PROBS)
    with {| gene_2 := lit 1 100; gene_1 := lit 3 100; gene_0 := lit 96 100 |}.
  f_equal; f_equal; apply Qc_is_canon; vm_compute; reflexivity.
Qed.

(** * Further properties of the program *)

(** ** [load_data] *)

Lemma load_data_foldl file :
  load_data file
  = foldl (λ data row, <[row_name row := row_record row]> data) ∅ file.
Proof. reflexivity. Qed.

Lemma load_loop_lookup (data : gmap string individual) file k r :
  foldl (λ data row, <[row_name row := row_record row]> data) data file !! k
    = Some r →
  data !! k = Some r ∨
  ∃ row, row ∈ file ∧ row_name row = k ∧ r = row_record row.
Proof.
  revert data. induction file as [|row file IH]; intros data; cbn [foldl].
  - by left.
  - intros [H|(row' & Hin & Hk & Hr)]%IH.
    + rewrite lookup_insert in H. case_decide as Hk.
      * right. exists row. split; [by left|]. by injection H as <-.
      * by left.
    + right. exists row'. split; [by right|done].
Qed.

Lemma load_loop_dom (data : gmap string individual) file :
  dom (foldl (λ data row, <[row_name row := row_record row]> data) data file)
  = dom data ∪ list_to_set (row_name <$> file).
Proof.
  revert data. induction file as [|row file IH]; intros data;
    cbn [foldl fmap list_fmap].
  - rewrite list_to_set_nil. by rewrite (right_id_L ∅ (∪)).
  - rewrite IH, dom_insert_L, list_to_set_cons.
    apply set_eq. intros x. rewrite !elem_of_union. tauto.
Qed.

Lemma or_None_not_blank s : or_None s ≠ Some blank.
Proof. unfold or_None. case_decide; [done|]. by intros [= ->]. Qed.

(** X1.  The dictionary that [load_data] returns has exactly the names of
    the rows as its keys; every record in it is the record of some row of the
    file, is stored under its own name, and never has the empty string as a
    parent: a blank field is [None]. *)
Theorem X1_load_data_records (file : list csv_row) :
  dom (load_data file) = list_to_set (row_name <$> file) ∧
  ∀ k r, load_data file !! k = Some r →
    name r = k ∧
    mother r ≠ Some blank ∧ father r ≠ Some blank ∧
    ∃ row, row ∈ file ∧ row_name row = k ∧ r = row_record row.
Proof.
  rewrite load_data_foldl. split.
  - rewrite load_loop_dom, dom_empty_L. by rewrite (left_id_L ∅ (∪)).
  - intros k r [H|(row & Hin & Hk & ->)]%load_loop_lookup; [done|].
    split; [done|]. split; [apply or_None_not_blank|].
    split; [apply or_None_not_blank|]. by exists row.
Qed.

(** X2.  When several rows carry the same name, the last of them is the one
    stored: a row after which no row of that name follows determines the
    record of its name. *)
Theorem X2_load_data_last_row_wins (before after : list csv_row)
    (row : csv_row) :
  (∀ row', row' ∈ after → row_name row' ≠ row_name row) →
  load_data (before ++ row :: after) !! row_name row = Some (row_record row).
Proof.
  intros Hafter. rewrite load_data_foldl, foldl_app. cbn [foldl].
  generalize (foldl (λ (data : gmap string individual) row0,
                       <[row_name row0 := row_record row0]> data)
                    ∅ before).
  intros data.
  assert (∀ data : gmap string individual,
            data !! row_name row = Some (row_record row) →
            foldl (λ data row0, <[row_name row0 := row_record row0]> data)
                  data after !! row_name row = Some (row_record row)) as H.
  { clear data. induction after as [|row' after IH]; intros data Hd; [done|].
    cbn [foldl]. apply IH.
    - intros; apply Hafter; by right.
    - rewrite lookup_insert_ne; [done|]. apply Hafter. by left. }
  apply H. apply lookup_insert_eq.
Qed.

Lemma X2_witness :
  load_data twice !! "A"%string
  = Some (mk_individual "A" None None (Some false)).
Proof.
  apply (X2_load_data_last_row_wins
           [mk_row "A" "B" "C" "1"; mk_row "B" blank blank blank] []
           (mk_row "A" blank blank "0")).
  intros row' Hrow'. by apply not_elem_of_nil in Hrow'.
Defined.

(** ** [powerset] *)

Lemma combinations_too_long {A} (l : list A) r :
  (length l < r)%nat → combinations l r = [].
Proof.
  revert r. induction l as [|x l IH]; intros [|r] Hr; cbn in *; try lia.
  - done.
  - rewrite !IH by lia. done.
Qed.

Lemma combinations_all {A} (l : list A) : combinations l (length l) = [l].
Proof.
  induction l as [|x l IH]; [done|].
  cbn [length combinations]. rewrite IH, combinations_too_long by lia. done.
Qed.

Lemma powerset_blocks (s : gset string) :
  powerset s
  = seq 0 (length (elements s) + 1)
      ≫= λ r, list_to_set <$> combinations (elements s) r.
Proof.
  unfold powerset. generalize (seq 0 (length (elements s) + 1)). intros rs.
  induction rs as [|r rs IH]; [done|].
  rewrite !bind_cons, fmap_app. by rewrite IH.
Qed.

Lemma size_combination (s : gset string) r k :
  k ∈ combinations (elements s) r →
  size (list_to_set k : gset string) = r.
Proof.
  intros [Hs Hl]%elem_of_combinations.
  rewrite size_list_to_set; [done|].
  by apply (sublist_NoDup k (elements s)); [apply NoDup_elements|].
Qed.

Lemma StronglySorted_all {A} (R : relation A) (l : list A) :
  (∀ x y, x ∈ l → y ∈ l → R x y) → StronglySorted R l.
Proof.
  induction l as [|x l IH]; intros H; constructor.
  - apply IH. intros y z Hy Hz. apply H; by right.
  - apply Forall_forall. intros y Hy. apply H; [by left|by right].
Qed.

Lemma StronglySorted_blocks {A} (R : relation A) (f : nat → list A)
    (m : A → nat) a n :
  (∀ r x, x ∈ f r → m x = r) →
  (∀ x y, (m x ≤ m y)%nat → R x y) →
  StronglySorted R (seq a n ≫= f).
Proof.
  intros Hm HR. revert a. induction n as [|n IH]; intros a; cbn [seq].
  - constructor.
  - rewrite bind_cons. apply StronglySorted_app_2.
    + intros x y Hx (r & Hy & Hr%elem_of_seq)%list_elem_of_bind.
      apply HR. rewrite (Hm a x Hx), (Hm r y Hy). lia.
    + apply StronglySorted_all. intros x y Hx Hy. apply HR.
      rewrite (Hm a x Hx), (Hm a y Hy). lia.
    + apply IH.
Qed.

(** X4.  [powerset s] lists the subsets of [s], each of them once, in the
    order of their sizes: no subset comes before a smaller one. *)
Theorem X4_powerset_subsets_by_size (s : gset string) :
  (∀ X, X ∈ powerset s ↔ X ⊆ s) ∧
  NoDup (powerset s) ∧
  StronglySorted (λ X Y, (size X ≤ size Y)%nat) (powerset s).
Proof.
  split; [intros X; apply elem_of_powerset|].
  split; [apply NoDup_powerset|].
  rewrite powerset_blocks.
  apply (StronglySorted_blocks _ _ size); [|auto].
  intros r X (k & -> & Hk)%list_elem_of_fmap.
  by eapply size_combination.
Qed.

Lemma powerset_insert (x : string) (s : gset string) :
  x ∉ s →
  powerset ({[x]} ∪ s) ≡ₚ powerset s ++ ((λ Y, {[x]} ∪ Y) <$> powerset s).
Proof.
  intros Hx. apply NoDup_Permutation.
  - apply NoDup_powerset.
  - apply NoDup_app. split; [apply NoDup_powerset|]. split.
    + intros X HX%elem_of_powerset (Y & -> & _)%list_elem_of_fmap.
      apply Hx, HX, elem_of_union_l. by apply elem_of_singleton.
    + apply NoDup_fmap_2_strong; [|apply NoDup_powerset].
      intros Y1 Y2 H1%elem_of_powerset H2%elem_of_powerset Heq.
      apply set_eq. intros y.
      assert (y ∈ {[x]} ∪ Y1 ↔ y ∈ {[x]} ∪ Y2) as Hy by (by rewrite Heq).
      rewrite !elem_of_union, !elem_of_singleton in Hy.
      split; intros Hin.
      * destruct (proj1 Hy (or_intror Hin)) as [->|?]; [|done].
        exfalso. by apply Hx, H1.
      * destruct (proj2 Hy (or_intror Hin)) as [->|?]; [|done].
        exfalso. by apply Hx, H2.
  - intros X. rewrite elem_of_app, list_elem_of_fmap, elem_of_powerset.
    split.
    + intros HX. destruct (decide (x ∈ X)) as [Hin|Hin].
      * right. exists (X ∖ {[x]}). split.
        { by apply union_difference_singleton_L. }
        apply elem_of_powerset. intros y [Hy Hne]%elem_of_difference.
        apply HX in Hy. apply elem_of_union in Hy as [Hy|Hy]; [done|done].
      * left. apply elem_of_powerset. intros y Hy.
        pose proof (HX y Hy) as [->%elem_of_singleton|?]%elem_of_union;
          [done|done].
    + intros [HX%elem_of_powerset|(Y & -> & HY%elem_of_powerset)].
      * intros y Hy. apply elem_of_union_r. by apply HX.
      * intros y [Hy|Hy]%elem_of_union;
          [by apply elem_of_union_l|apply elem_of_union_r; by apply HY].
Qed.

Lemma length_powerset (s : gset string) :
  length (powerset s) = (2 ^ size s)%nat.
Proof.
  induction s as [|x s Hx IH] using set_ind_L.
  - by rewrite powerset_empty, size_empty.
  - rewrite (Permutation_length (powerset_insert x s Hx)).
    rewrite length_app, length_fmap, IH.
    rewrite size_union, size_singleton by (by apply disjoint_singleton_l).
    cbn [Nat.add Nat.pow]. lia.
Qed.

(** X5.  [powerset s] has 2^|s| members; the first of them is the empty set
    and the last is [s] itself. *)
Theorem X5_powerset_length_and_ends (s : gset string) :
  length (powerset s) = (2 ^ size s)%nat ∧
  head (powerset s) = Some ∅ ∧
  last (powerset s) = Some s.
Proof.
  split; [apply length_powerset|]. rewrite powerset_blocks. split.
  - rewrite Nat.add_1_r. cbn [seq]. rewrite bind_cons.
    by destruct (elements s).
  - rewrite Nat.add_1_r, seq_S, bind_app, bind_singleton.
    cbn [Nat.add]. rewrite combinations_all. cbn [fmap list_fmap].
    by rewrite last_snoc, list_to_set_elements_L.
Qed.

(** ** [joint_probability]: exceptions and range *)

Lemma mapM_ext {A B} (f g : A → outcome B) l :
  (∀ x, x ∈ l → f x = g x) → mapM f l = mapM g l.
Proof.
  induction l as [|x l IH]; intros H; [done|].
  cbn [mapM]. rewrite (H x) by left.
  rewrite IH by (intros; apply H; by right). done.
Qed.

Lemma mapM_Ok_ex {A B} (f : A → outcome B) l :
  (∀ x, x ∈ l → ∃ y, f x = Ok y) → ∃ ys, mapM f l = Ok ys.
Proof.
  induction l as [|x l IH]; intros H; [by exists []|].
  destruct (H x) as [y Hy]; [by left|].
  destruct IH as [ys Hys]; [intros; apply H; by right|].
  exists (y :: ys). cbn [mapM]. rewrite Hy. cbn [mbind outcome_bind].
  rewrite Hys. done.
Qed.

Lemma mapM_Raise {A B} (f : A → outcome B) l e :
  (∀ x, x ∈ l → (∃ y, f x = Ok y) ∨ f x = Raise e) →
  (∃ x, x ∈ l ∧ f x = Raise e) →
  mapM f l = Raise e.
Proof.
  induction l as [|x l IH]; intros Hall (x' & Hin & Hx').
  { by apply not_elem_of_nil in Hin. }
  cbn [mapM]. destruct (Hall x) as [[y Hy]|Hr]; [by left| |by rewrite Hr].
  rewrite Hy. cbn [mbind outcome_bind].
  rewrite IH; [done|intros; apply Hall; by right|].
  apply elem_of_cons in Hin as [->|Hin]; [congruence|]. by exists x'.
Qed.

Lemma one_gene_prob_cases people o t h k :
  match people !! k with
  | Some _ => ∃ q, one_gene_prob people o t h k = Ok q
  | None => one_gene_prob people o t h k = Raise KeyError
  end.
Proof.
  unfold one_gene_prob, getitem. destruct (people !! k) as [r|]; [|done].
  cbn [mbind outcome_bind].
  destruct (no_parents r), (bool_decide (k ∈ h)); by eexists.
Qed.

Lemma two_genes_prob_cases people o t h k :
  match people !! k with
  | Some _ => ∃ q, two_genes_prob people o t h k = Ok q
  | None => two_genes_prob people o t h k = Raise KeyError
  end.
Proof.
  unfold two_genes_prob, getitem. destruct (people !! k) as [r|]; [|done].
  cbn [mbind outcome_bind].
  destruct (no_parents r), (bool_decide (k ∈ h)); by eexists.
Qed.

Lemma no_gene_prob_key people o t h k :
  is_Some (people !! k) → ∃ qs, no_gene_prob people o t h k = Ok qs.
Proof.
  intros [r Hr]. unfold no_gene_prob. rewrite (getitem_Some _ _ _ Hr).
  cbn [mbind outcome_bind].
  destruct (bool_decide (k ∉ o) && bool_decide (k ∉ t)); [|by eexists].
  destruct (no_parents r), (bool_decide (k ∈ h)); by eexists.
Qed.

Lemma not_subseteq_witness (X Y : gset string) :
  ¬ X ⊆ Y → ∃ x, x ∈ X ∧ x ∉ Y.
Proof.
  intros Hn.
  destruct (decide (Forall (λ x, x ∈ Y) (elements X))) as [Hall|Hex].
  - exfalso. apply Hn. intros x Hx%elem_of_elements.
    by apply (proj1 (Forall_forall _ _) Hall).
  - apply not_Forall_Exists in Hex; [|apply _].
    apply Exists_exists in Hex as (x & Hx%elem_of_elements & Hnot).
    by exists x.
Qed.

Lemma mapM_gene_probs (people : gmap string individual)
    (f : string → outcome Qc) (s : gset string) :
  (∀ k, match people !! k with
        | Some _ => ∃ q, f k = Ok q
        | None => f k = Raise KeyError
        end) →
  if decide (s ⊆ dom people)
  then ∃ qs, mapM f (elements s) = Ok qs
  else mapM f (elements s) = Raise KeyError.
Proof.
  intros Hf. case_decide as Hs.
  - apply mapM_Ok_ex. intros k Hk%elem_of_elements%Hs%elem_of_dom.
    specialize (Hf k). destruct Hk as [r Hr]. by rewrite Hr in Hf.
  - apply not_subseteq_witness in Hs as (x & Hx & Hnot).
    apply mapM_Raise.
    + intros k _. specialize (Hf k). destruct (people !! k); auto.
    + exists x. split; [by apply elem_of_elements|].
      specialize (Hf x). apply not_elem_of_dom in Hnot. by rewrite Hnot in Hf.
Qed.

(** X6.  [joint_probability] returns a number exactly when every name in
    [one_gene] and [two_genes] is a key of [people]; otherwise the lookup
    [people[person]] fails and the function raises [KeyError].  No other
    exception is raised. *)
Theorem X6_joint_probability_KeyError people one_gene two_genes have_trait :
  ∃ q, joint_probability people one_gene two_genes have_trait
       = if decide (one_gene ∪ two_genes ⊆ dom people)
         then Ok q else Raise KeyError.
Proof.
  unfold joint_probability.
  pose proof (mapM_gene_probs people
                (one_gene_prob people one_gene two_genes have_trait) one_gene
                (one_gene_prob_cases people one_gene two_genes have_trait))
    as H1.
  pose proof (mapM_gene_probs people
                (two_genes_prob people one_gene two_genes have_trait) two_genes
                (two_genes_prob_cases people one_gene two_genes have_trait))
    as H2.
  destruct (mapM_Ok_ex (no_gene_prob people one_gene two_genes have_trait)
              (keys people)) as [qs0 H0].
  { intros k Hk%elem_of_keys. by apply no_gene_prob_key. }
  destruct (decide (one_gene ⊆ dom people)) as [Ho|Ho].
  - destruct H1 as [qs1 ->]. cbn [mbind outcome_bind].
    destruct (decide (two_genes ⊆ dom people)) as [Ht|Ht].
    + destruct H2 as [qs2 ->]. rewrite H0. cbn [mbind outcome_bind].
      eexists. rewrite decide_True; [reflexivity|].
      intros x [?|?]%elem_of_union; auto.
    + rewrite H2. exists 0. rewrite decide_False; [done|].
      intros Hs. apply Ht. intros x Hx. by apply Hs, elem_of_union_r.
  - rewrite H1. exists 0. rewrite decide_False; [done|].
    intros Hs. apply Ho. intros x Hx. by apply Hs, elem_of_union_l.
Qed.

Example joint_probability_KeyError :
  joint_probability (load_data family0) {["Ron"%string]} ∅ ∅ = Raise KeyError.
Proof. vm_compute. reflexivity. Qed.

Lemma Qcmult_le_1 (a b : Qc) : 0 ≤ a → a ≤ 1 → 0 ≤ b → b ≤ 1 → a * b ≤ 1.
Proof.
  intros Ha0 Ha1 Hb0 Hb1. trans (1 * b).
  - by apply Qcmult_le_mono_nonneg_r.
  - by rewrite Qcmult_1_l.
Qed.

Lemma spec_inherit_le_1 a b c :
  (a ≤ 2)%nat → (b ≤ 2)%nat → (c ≤ 2)%nat →
  spec_inherit (spec_transmit a) (spec_transmit b) c ≤ 1.
Proof.
  intros Ha Hb Hc.
  destruct a as [|[|[|a]]]; [| | |lia];
    (destruct b as [|[|[|b]]]; [| | |lia]);
    (destruct c as [|[|[|c]]]; [| | |lia]); by vm_compute.
Qed.

Lemma spec_prior_le_1 c : (c ≤ 2)%nat → spec_prior c ≤ 1.
Proof. intros Hc. destruct c as [|[|[|c]]]; [| | |lia]; by vm_compute. Qed.

Lemma spec_trait_given_le_1 c b : (c ≤ 2)%nat → spec_trait_given c b ≤ 1.
Proof.
  intros Hc. destruct c as [|[|[|c]]]; [| | |lia]; destruct b; by vm_compute.
Qed.

Lemma spec_factor_le_1 o t h k r : spec_factor o t h k r ≤ 1.
Proof.
  unfold spec_factor.
  pose proof (copies_le o t k).
  pose proof (parent_copies_le o t (mother r)).
  pose proof (parent_copies_le o t (father r)).
  apply Qcmult_le_1.
  - apply Qclt_le_weak.
    destruct (mother r), (father r);
      auto using spec_inherit_pos, spec_prior_pos.
  - destruct (mother r), (father r);
      auto using spec_inherit_le_1, spec_prior_le_1.
  - by apply Qclt_le_weak, spec_trait_given_pos.
  - by apply spec_trait_given_le_1.
Qed.

Lemma product_le_1 l : (∀ x, x ∈ l → 0 < x ∧ x ≤ 1) → product l ≤ 1.
Proof.
  induction l as [|x l IH]; intros H.
  - by vm_compute.
  - rewrite product_cons. destruct (H x) as [Hx0 Hx1]; [by left|].
    apply Qcmult_le_1; [by apply Qclt_le_weak|done| |].
    + apply Qclt_le_weak, product_pos. intros y Hy. apply H. by right.
    + apply IH. intros; apply H; by right.
Qed.

(** X7.  For a hypothesis over the individuals, the number that
    [joint_probability] returns is a probability: it is positive and at
    most 1. *)
Theorem X7_joint_probability_range people one_gene two_genes have_trait :
  one_gene ⊆ dom people →
  two_genes ⊆ dom people →
  one_gene ## two_genes →
  ∃ q, joint_probability people one_gene two_genes have_trait = Ok q ∧
       0 < q ∧ q ≤ 1.
Proof.
  intros Hone Htwo Hdisj.
  exists (spec_joint people one_gene two_genes have_trait).
  split; [by apply joint_probability_spec|].
  split; [apply spec_joint_pos|].
  unfold spec_joint. apply product_le_1.
  intros x ([k r] & -> & _)%list_elem_of_fmap.
  split; [apply spec_factor_pos|apply spec_factor_le_1].
Qed.

Lemma X7_witness :
  ∃ q, joint_probability (load_data family0) {["Harry"%string]}
                         {["James"%string]} {["James"%string]} = Ok q ∧
       0 < q ∧ q ≤ 1.
Proof.
  apply (X7_joint_probability_range (load_data family0) {["Harry"%string]}
           {["James"%string]} {["James"%string]}).
  - apply (bool_decide_unpack _). vm_compute. reflexivity.
  - apply (bool_decide_unpack _). vm_compute. reflexivity.
  - apply (bool_decide_unpack _). vm_compute. reflexivity.
Defined.

Lemma bool_decide_have_trait (people : gmap string individual)
    (h : gset string) k r :
  people !! k = Some r →
  bool_decide (k ∈ h ∩ dom people) = bool_decide (k ∈ h).
Proof.
  intros Hr. apply bool_decide_ext.
  rewrite elem_of_intersection, elem_of_dom. split; [tauto|eauto].
Qed.

(** X8.  [joint_probability] reads [have_trait] only at the keys of
    [people]: names in [have_trait] that are no individuals do not change
    the result. *)
Theorem X8_joint_probability_have_trait people one_gene two_genes have_trait :
  joint_probability people one_gene two_genes have_trait
  = joint_probability people one_gene two_genes (have_trait ∩ dom people).
Proof.
  unfold joint_probability.
  rewrite (mapM_ext (one_gene_prob people one_gene two_genes have_trait)
             (one_gene_prob people one_gene two_genes
                            (have_trait ∩ dom people))).
  2:{ intros k _. unfold one_gene_prob, getitem.
      destruct (people !! k) as [r|] eqn:Hr; [|done].
      cbn [mbind outcome_bind].
      by rewrite (bool_decide_have_trait people have_trait k r Hr). }
  rewrite (mapM_ext (two_genes_prob people one_gene two_genes have_trait)
             (two_genes_prob people one_gene two_genes
                             (have_trait ∩ dom people))).
  2:{ intros k _. unfold two_genes_prob, getitem.
      destruct (people !! k) as [r|] eqn:Hr; [|done].
      cbn [mbind outcome_bind].
      by rewrite (bool_decide_have_trait people have_trait k r Hr). }
  rewrite (mapM_ext (no_gene_prob people one_gene two_genes have_trait)
             (no_gene_prob people one_gene two_genes
                           (have_trait ∩ dom people))).
  2:{ intros k _. unfold no_gene_prob, getitem.
      destruct (people !! k) as [r|] eqn:Hr; [|done].
      cbn [mbind outcome_bind].
      by rewrite (bool_decide_have_trait people have_trait k r Hr). }
  done.
Qed.

Lemma trait_rows c :
  (c ≤ 2)%nat → spec_trait_given c true + spec_trait_given c false = 1.
Proof.
  intros Hc. destruct c as [|[|[|c]]]; [| | |lia];
    apply Qc_is_canon; vm_compute; reflexivity.
Qed.

Lemma spec_inherit_sum m f :
  spec_inherit m f 0 + spec_inherit m f 1 + spec_inherit m f 2 = 1.
Proof. unfold spec_inherit. ring. Qed.

Lemma spec_prior_sum : spec_prior 0 + spec_prior 1 + spec_prior 2 = 1.
Proof. apply Qc_is_canon; vm_compute; reflexivity. Qed.

Lemma founder_formulas people one_gene two_genes have_trait person r :
  people !! person = Some r →
  no_parents r = true →
  let b := bool_decide (person ∈ have_trait) in
  one_gene_prob people one_gene two_genes have_trait person
    = Ok (spec_prior 1 * spec_trait_given 1 b) ∧
  two_genes_prob people one_gene two_genes have_trait person
    = Ok (spec_prior 2 * spec_trait_given 2 b) ∧
  (person ∉ one_gene → person ∉ two_genes →
   no_gene_prob people one_gene two_genes have_trait person
    = Ok [spec_prior 0 * spec_trait_given 0 b]).
Proof.
  intros Hr Hnp b.
  unfold one_gene_prob, two_genes_prob, no_gene_prob.
  rewrite (getitem_Some _ _ _ Hr). cbn [mbind outcome_bind]. rewrite Hnp.
  subst b. unfold spec_trait_given, spec_prior.
  split; [by destruct (bool_decide (person ∈ have_trait))|].
  split; [by destruct (bool_decide (person ∈ have_trait))|].
  intros Ho Ht. rewrite !bool_decide_eq_true_2 by done. cbn [andb].
  by destruct (bool_decide (person ∈ have_trait)).
Qed.

Lemma six_factors (p1 p2 p0 t1 f1 t2 f2 t0 f0 : Qc) :
  t1 + f1 = 1 → t2 + f2 = 1 → t0 + f0 = 1 →
  p1 * t1 + p1 * f1 + p2 * t2 + p2 * f2 + p0 * t0 + p0 * f0 = p0 + p1 + p2.
Proof.
  intros H1 H2 H0.
  transitivity (p1 * (t1 + f1) + p2 * (t2 + f2) + p0 * (t0 + f0)); [ring|].
  rewrite H1, H2, H0. ring.
Qed.

(** X9.  For every individual the numbers that the three loop bodies of
    [joint_probability] compute for the six assignments of (gene count,
    trait) to that individual, the sets of the parents being fixed, sum
    to 1: the factors of one individual form a probability distribution. *)
Theorem X9_person_factors_sum_to_one people one_gene two_genes person r :
  people !! person = Some r →
  person ∉ one_gene →
  person ∉ two_genes →
  ∃ a1 a0 b1 b0 c1 c0,
    one_gene_prob people one_gene two_genes {[person]} person = Ok a1 ∧
    one_gene_prob people one_gene two_genes ∅ person = Ok a0 ∧
    two_genes_prob people one_gene two_genes {[person]} person = Ok b1 ∧
    two_genes_prob people one_gene two_genes ∅ person = Ok b0 ∧
    no_gene_prob people one_gene two_genes {[person]} person = Ok [c1] ∧
    no_gene_prob people one_gene two_genes ∅ person = Ok [c0] ∧
    a1 + a0 + b1 + b0 + c1 + c0 = 1.
Proof.
  intros Hr Ho Ht.
  assert (bool_decide (person ∈ ({[person]} : gset string)) = true) as Hin
    by (by apply bool_decide_eq_true_2, elem_of_singleton).
  pose proof (trait_rows 0) as H0. pose proof (trait_rows 1) as H1.
  pose proof (trait_rows 2) as H2.
  destruct (no_parents r) eqn:Hnp.
  - destruct (founder_formulas people one_gene two_genes {[person]} person r
                Hr Hnp) as (A1 & B1 & C1).
    destruct (founder_formulas people one_gene two_genes ∅ person r
                Hr Hnp) as (A0 & B0 & C0).
    rewrite Hin in A1, B1, C1.
    rewrite (bool_decide_eq_false_2 (person ∈ (∅ : gset string)))
      in A0, B0, C0 by apply not_elem_of_empty.
    do 6 eexists.
    split; [exact A1|]. split; [exact A0|]. split; [exact B1|].
    split; [exact B0|]. split; [by apply C1|]. split; [by apply C0|].
    rewrite six_factors by auto. apply spec_prior_sum.
  - destruct (branch_formulas people one_gene two_genes {[person]} person r
                Hr Hnp) as (A1 & B1 & C1).
    destruct (branch_formulas people one_gene two_genes ∅ person r
                Hr Hnp) as (A0 & B0 & C0).
    rewrite Hin in A1, B1, C1.
    rewrite (bool_decide_eq_false_2 (person ∈ (∅ : gset string)))
      in A0, B0, C0 by apply not_elem_of_empty.
    do 6 eexists.
    split; [exact A1|]. split; [exact A0|]. split; [exact B1|].
    split; [exact B0|]. split; [by apply C1|]. split; [by apply C0|].
    set (m := spec_transmit (parent_copies one_gene two_genes (mother r))).
    set (f := spec_transmit (parent_copies one_gene two_genes (father r))).
    rewrite six_factors by auto. apply spec_inherit_sum.
Qed.

Lemma X9_witness :
  ∃ a1 a0 b1 b0 c1 c0,
    one_gene_prob (load_data family0) ∅ {["James"%string]}
                  {["Harry"%string]} "Harry" = Ok a1 ∧
    one_gene_prob (load_data family0) ∅ {["James"%string]} ∅ "Harry"
      = Ok a0 ∧
    two_genes_prob (load_data family0) ∅ {["James"%string]}
                   {["Harry"%string]} "Harry" = Ok b1 ∧
    two_genes_prob (load_data family0) ∅ {["James"%string]} ∅ "Harry"
      = Ok b0 ∧
    no_gene_prob (load_data family0) ∅ {["James"%string]}
                 {["Harry"%string]} "Harry" = Ok [c1] ∧
    no_gene_prob (load_data family0) ∅ {["James"%string]} ∅ "Harry"
      = Ok [c0] ∧
    a1 + a0 + b1 + b0 + c1 + c0 = 1.
Proof.
  apply (X9_person_factors_sum_to_one (load_data family0) ∅
           {["James"%string]} "Harry"
           (mk_individual "Harry" (Some "Lily"%string) (Some "James"%string)
                          None)).
  - reflexivity.
  - apply not_elem_of_empty.
  - apply (bool_decide_unpack _). vm_compute. reflexivity.
Defined.

(** ** [update]: what one call changes *)

Lemma update_person_copies o t h p k d :
  let d' := update_person o t h p k d in
  gene_2 (d_gene d')
    = gene_2 (d_gene d) + (if decide (copies o t k = 2%nat) then p else 0) ∧
  gene_1 (d_gene d')
    = gene_1 (d_gene d) + (if decide (copies o t k = 1%nat) then p else 0) ∧
  gene_0 (d_gene d')
    = gene_0 (d_gene d) + (if decide (copies o t k = 0%nat) then p else 0) ∧
  trait_True (d_trait d')
    = trait_True (d_trait d) + (if decide (k ∈ h) then p else 0) ∧
  trait_False (d_trait d')
    = trait_False (d_trait d) + (if decide (k ∈ h) then 0 else p).
Proof.
  unfold update_person, copies.
  destruct (bool_decide (k ∈ o)), (bool_decide (k ∈ t));
    destruct (bool_decide_reflect (k ∈ h)); cbn;
    repeat split; repeat case_decide; try (exfalso; tauto); try lia; ring.
Qed.

(** X10.  [update] keeps the persons of the table and, for every person,
    adds [p] to one gene bin, the one of the person's gene count (1 for a
    member of [one_gene], else 2 for a member of [two_genes], else 0), and
    to one trait bin; every other bin keeps its value. *)
Theorem X10_update_adds_to_one_bin_each
    (P : gmap string distributions) one_gene two_genes have_trait p :
  dom (update P one_gene two_genes have_trait p) = dom P ∧
  ∀ k d, P !! k = Some d →
    ∃ d', update P one_gene two_genes have_trait p !! k = Some d' ∧
      gene_2 (d_gene d')
        = gene_2 (d_gene d)
          + (if decide (copies one_gene two_genes k = 2%nat) then p else 0) ∧
      gene_1 (d_gene d')
        = gene_1 (d_gene d)
          + (if decide (copies one_gene two_genes k = 1%nat) then p else 0) ∧
      gene_0 (d_gene d')
        = gene_0 (d_gene d)
          + (if decide (copies one_gene two_genes k = 0%nat) then p else 0) ∧
      trait_True (d_trait d')
        = trait_True (d_trait d) + (if decide (k ∈ have_trait) then p else 0) ∧
      trait_False (d_trait d')
        = trait_False (d_trait d) + (if decide (k ∈ have_trait) then 0 else p).
Proof.
  split.
  - apply set_eq. intros k. rewrite !elem_of_dom, lookup_update.
    by rewrite fmap_is_Some.
  - intros k d Hd.
    exists (update_person one_gene two_genes have_trait p k d).
    split; [by rewrite lookup_update, Hd|].
    apply update_person_copies.
Qed.

Lemma update_person_ext o t h o' t' h' p k d :
  (k ∈ o ↔ k ∈ o') → (k ∈ o ∨ (k ∈ t ↔ k ∈ t')) → (k ∈ h ↔ k ∈ h') →
  update_person o t h p k d = update_person o' t' h' p k d.
Proof.
  intros Ho Ht Hh. unfold update_person.
  rewrite (bool_decide_ext (k ∈ o) (k ∈ o') Ho),
    (bool_decide_ext (k ∈ h) (k ∈ h') Hh).
  destruct (bool_decide_reflect (k ∈ o')) as [Hin|Hin]; [done|].
  destruct Ht as [Ht|Ht]; [tauto|].
  by rewrite (bool_decide_ext (k ∈ t) (k ∈ t') Ht).
Qed.

(** X11.  [update] looks at the three sets only at the persons of the
    table, so names that are no persons of the table have no effect; and a
    person in both [one_gene] and [two_genes] is counted under [one_gene]
    (the [if] comes before the [elif]). *)
Theorem X11_update_reads_sets_at_persons
    (P : gmap string distributions) one_gene two_genes have_trait p :
  update P one_gene two_genes have_trait p
    = update P (one_gene ∩ dom P) (two_genes ∩ dom P) (have_trait ∩ dom P) p ∧
  update P one_gene two_genes have_trait p
    = update P one_gene (two_genes ∖ one_gene) have_trait p.
Proof.
  split; apply map_eq; intros k; rewrite !lookup_update;
    destruct (P !! k) as [d|] eqn:Hd; try done; cbn; f_equal.
  - assert (k ∈ dom P) as Hk by (apply elem_of_dom; eauto).
    apply update_person_ext; [|right|]; rewrite elem_of_intersection; tauto.
  - apply update_person_ext; [done| |done].
    destruct (decide (k ∈ one_gene)); [by left|right].
    rewrite elem_of_difference. tauto.
Qed.

Lemma update_person_add o t h p q k d :
  update_person o t h q k (update_person o t h p k d)
  = update_person o t h (p + q) k d.
Proof.
  unfold update_person.
  destruct (bool_decide (k ∈ o)), (bool_decide (k ∈ t)),
    (bool_decide (k ∈ h)); cbn; f_equal; f_equal; ring.
Qed.

Lemma update_person_zero o t h k d : update_person o t h 0 k d = d.
Proof.
  unfold update_person. destruct d as [[g2 g1 g0] [tT tF]].
  destruct (bool_decide (k ∈ o)), (bool_decide (k ∈ t)),
    (bool_decide (k ∈ h)); cbn; f_equal; f_equal; ring.
Qed.

(** X12.  Two calls of [update] for the same hypothesis add up: they give
    the table of one call with the sum of the two probabilities; and a call
    with probability 0 leaves the table as it is. *)
Theorem X12_update_adds_up
    (P : gmap string distributions) one_gene two_genes have_trait p q :
  update (update P one_gene two_genes have_trait p)
         one_gene two_genes have_trait q
    = update P one_gene two_genes have_trait (p + q) ∧
  update P one_gene two_genes have_trait 0 = P.
Proof.
  split; apply map_eq; intros k; rewrite !lookup_update;
    destruct (P !! k) as [d|]; try done; cbn; f_equal.
  - apply update_person_add.
  - apply update_person_zero.
Qed.

(** ** [main]: what the returned table holds *)

Lemma mass_where_cons sel h p pairs :
  mass_where sel ((h, p) :: pairs)
  = (if sel h then p else 0) + mass_where sel pairs.
Proof.
  unfold mass_where. rewrite filter_cons. cbn [fst].
  destruct (sel h); case_decide; try done.
  - cbn [fmap list_fmap snd]. by rewrite sum_cons.
  - ring.
Qed.

Lemma mass_where_nil sel : mass_where sel [] = 0.
Proof. reflexivity. Qed.

Lemma mass_where_nonneg sel pairs :
  (∀ hp, hp ∈ pairs → 0 < hp.2) → 0 ≤ mass_where sel pairs.
Proof.
  induction pairs as [|[h p] pairs IH]; intros H.
  - by vm_compute.
  - rewrite mass_where_cons. apply Qcplus_nonneg_nonneg.
    + destruct (sel h); [|done]. apply Qclt_le_weak, (H (h, p)). by left.
    + apply IH. intros; apply H; by right.
Qed.

Lemma mass_where_none sel pairs :
  (∀ hp, hp ∈ pairs → sel hp.1 = false) → mass_where sel pairs = 0.
Proof.
  induction pairs as [|[h p] pairs IH]; intros H; [done|].
  assert (sel h = false) as Hh by (apply (H (h, p)); by left).
  rewrite mass_where_cons, Hh.
  rewrite IH by (intros; apply H; by right). ring.
Qed.

Lemma accumulate_person_bins k d pairs :
  let d' := accumulate_person k d pairs in
  gene_2 (d_gene d')
    = gene_2 (d_gene d)
      + mass_where (λ h, bool_decide
                           (copies (h_one_gene h) (h_two_genes h) k = 2%nat))
                   pairs ∧
  gene_1 (d_gene d')
    = gene_1 (d_gene d)
      + mass_where (λ h, bool_decide
                           (copies (h_one_gene h) (h_two_genes h) k = 1%nat))
                   pairs ∧
  gene_0 (d_gene d')
    = gene_0 (d_gene d)
      + mass_where (λ h, bool_decide
                           (copies (h_one_gene h) (h_two_genes h) k = 0%nat))
                   pairs ∧
  trait_True (d_trait d')
    = trait_True (d_trait d)
      + mass_where (λ h, bool_decide (k ∈ h_have_trait h)) pairs ∧
  trait_False (d_trait d')
    = trait_False (d_trait d)
      + mass_where (λ h, bool_decide (k ∉ h_have_trait h)) pairs.
Proof.
  unfold accumulate_person. revert d.
  induction pairs as [|[h p] pairs IH]; intros d; cbn [foldl].
  - rewrite !mass_where_nil. repeat split; ring.
  - destruct (IH (update_person (h_one_gene h) (h_two_genes h)
                                (h_have_trait h) p k d))
      as (-> & -> & -> & -> & ->).
    destruct (update_person_copies (h_one_gene h) (h_two_genes h)
                                   (h_have_trait h) p k d)
      as (-> & -> & -> & -> & ->).
    rewrite !mass_where_cons.
    repeat split; repeat case_decide; repeat case_bool_decide;
      try (exfalso; tauto); try lia; ring.
Qed.

Lemma main_on_lookup people k r :
  people !! k = Some r →
  ∃ P', main_on people = Ok P' ∧
    P' !! k
    = Some (scale_person
              (accumulate_person k zero_dist
                                 (scored people (hypotheses people)))).
Proof.
  intros Hr. eexists. split; [apply main_on_Ok|].
  by rewrite lookup_fmap, lookup_accumulate_pairs, lookup_fmap, Hr.
Qed.

Lemma accumulated_person_totals people k :
  gene_total (accumulate_person k zero_dist
                                (scored people (hypotheses people)))
    = evidence_mass people ∧
  trait_total (accumulate_person k zero_dist
                                 (scored people (hypotheses people)))
    = evidence_mass people.
Proof.
  destruct (accumulate_person_totals k zero_dist
              (scored people (hypotheses people))) as [-> ->].
  unfold gene_total, trait_total, zero_dist, evidence_mass. cbn.
  split; ring.
Qed.

Lemma scored_pos people hs hp : hp ∈ scored people hs → 0 < hp.2.
Proof.
  unfold scored. intros (h & -> & _)%list_elem_of_fmap. apply spec_joint_pos.
Qed.

Lemma scored_zip people :
  zip (hypotheses people) (scored people (hypotheses people)).*2
  = scored people (hypotheses people).
Proof.
  rewrite <-(zip_fst_snd (scored people (hypotheses people))) at 2.
  f_equal. unfold scored. rewrite <-list_fmap_compose.
  by rewrite list_fmap_id.
Qed.

Lemma scaled_bin_nonneg (a T : Qc) : 0 ≤ a → 0 < T → 0 ≤ a * (1 / T).
Proof.
  intros Ha HT. apply Qcmult_nonneg_nonneg; [done|].
  unfold Qcdiv. rewrite Qcmult_1_l. by apply Qclt_le_weak, Qcinv_pos.
Qed.

Lemma summand_le (a b : Qc) : 0 ≤ b → a ≤ a + b.
Proof.
  intros Hb. rewrite <-(Qcplus_0_r a) at 1. by apply Qcplus_le_mono_l.
Qed.

Lemma scaled_person_bins people k :
  let acc := accumulate_person k zero_dist
               (scored people (hypotheses people)) in
  let d' := scale_person acc in
  let pairs := scored people (hypotheses people) in
  gene_2 (d_gene d')
    = mass_where (λ h, bool_decide
                         (copies (h_one_gene h) (h_two_genes h) k = 2%nat))
                 pairs / evidence_mass people ∧
  gene_1 (d_gene d')
    = mass_where (λ h, bool_decide
                         (copies (h_one_gene h) (h_two_genes h) k = 1%nat))
                 pairs / evidence_mass people ∧
  gene_0 (d_gene d')
    = mass_where (λ h, bool_decide
                         (copies (h_one_gene h) (h_two_genes h) k = 0%nat))
                 pairs / evidence_mass people ∧
  trait_True (d_trait d')
    = mass_where (λ h, bool_decide (k ∈ h_have_trait h)) pairs
      / evidence_mass people ∧
  trait_False (d_trait d')
    = mass_where (λ h, bool_decide (k ∉ h_have_trait h)) pairs
      / evidence_mass people.
Proof.
  cbv zeta. unfold scale_person.
  cbn [d_gene d_trait gene_2 gene_1 gene_0 trait_True trait_False].
  destruct (accumulated_person_totals people k) as [-> ->].
  destruct (accumulate_person_bins k zero_dist
              (scored people (hypotheses people)))
    as (-> & -> & -> & -> & ->).
  pose proof (evidence_mass_pos people) as Hpos%Qclt_not_eq.
  unfold zero_dist.
  cbn [d_gene d_trait gene_2 gene_1 gene_0 trait_True trait_False].
  repeat split; field; congruence.
Qed.

(** X15.  The table of [main] holds the marginals: for every individual,
    each gene bin is the total joint probability of the visited hypotheses
    that give the individual that gene count, divided by the total over all
    visited hypotheses, and each trait bin likewise for the trait value. *)
Theorem X15_main_returns_marginals people k r :
  people !! k = Some r →
  ∃ hs ps P' d',
    visited people = Ok hs ∧
    mapM (λ h, joint_probability people (h_one_gene h) (h_two_genes h)
                                 (h_have_trait h)) hs = Ok ps ∧
    main_on people = Ok P' ∧ P' !! k = Some d' ∧
    0 < sum ps ∧
    gene_2 (d_gene d')
      = mass_where (λ h, bool_decide
                           (copies (h_one_gene h) (h_two_genes h) k = 2%nat))
                   (zip hs ps) / sum ps ∧
    gene_1 (d_gene d')
      = mass_where (λ h, bool_decide
                           (copies (h_one_gene h) (h_two_genes h) k = 1%nat))
                   (zip hs ps) / sum ps ∧
    gene_0 (d_gene d')
      = mass_where (λ h, bool_decide
                           (copies (h_one_gene h) (h_two_genes h) k = 0%nat))
                   (zip hs ps) / sum ps ∧
    trait_True (d_trait d')
      = mass_where (λ h, bool_decide (k ∈ h_have_trait h)) (zip hs ps)
        / sum ps ∧
    trait_False (d_trait d')
      = mass_where (λ h, bool_decide (k ∉ h_have_trait h)) (zip hs ps)
        / sum ps.
Proof.
  intros Hr. destruct (main_on_lookup people k r Hr) as (P' & HP' & Hk).
  exists (hypotheses people), (scored people (hypotheses people)).*2, P'.
  eexists.
  split; [apply visited_hypotheses|].
  split; [apply mapM_joint_probability|].
  split; [exact HP'|]. split; [exact Hk|].
  split; [apply evidence_mass_pos|].
  rewrite scored_zip. apply scaled_person_bins.
Qed.

Lemma X15_witness :
  ∃ hs ps P' d',
    visited (load_data family0) = Ok hs ∧
    mapM (λ h, joint_probability (load_data family0) (h_one_gene h)
                                 (h_two_genes h) (h_have_trait h)) hs
      = Ok ps ∧
    main_on (load_data family0) = Ok P' ∧ P' !! "Harry"%string = Some d' ∧
    0 < sum ps ∧
    trait_True (d_trait d')
      = mass_where (λ h, bool_decide ("Harry"%string ∈ h_have_trait h))
                   (zip hs ps) / sum ps.
Proof.
  destruct (X15_main_returns_marginals (load_data family0) "Harry"
              (mk_individual "Harry" (Some "Lily"%string)
                             (Some "James"%string) None))
    as (hs & ps & P' & d' & H1 & H2 & H3 & H4 & H5 & _ & _ & _ & H6 & _).
  - reflexivity.
  - exists hs, ps, P', d'. by repeat split.
Defined.

(** X17.  An observed trait is certain in the result: for an individual
    whose trait the file gives, [main] returns 1 in the trait bin of the
    observed value and 0 in the other. *)
Theorem X17_observed_trait_is_certain people k r (b : bool) :
  people !! k = Some r →
  trait r = Some b →
  ∃ P' d', main_on people = Ok P' ∧ P' !! k = Some d' ∧
    trait_True (d_trait d') = (if b then 1 else 0) ∧
    trait_False (d_trait d') = (if b then 0 else 1).
Proof.
  intros Hr Hb. destruct (main_on_lookup people k r Hr) as (P' & HP' & Hk).
  exists P'. eexists. split; [exact HP'|]. split; [exact Hk|].
  destruct (scaled_person_bins people k) as (_ & _ & _ & HT & HF).
  cbv zeta in HT, HF.
  set (pairs := scored people (hypotheses people)) in *.
  assert (∀ hp, hp ∈ pairs →
            bool_decide (k ∈ h_have_trait hp.1) = b) as Hcons.
  { intros hp (h & -> & Hh%elem_of_hypotheses)%list_elem_of_fmap. cbn [fst].
    destruct Hh as (_ & Hc & _). destruct (Hc k r Hr) as [Hyes Hno].
    destruct b.
    - by apply bool_decide_eq_true_2, Hyes.
    - by apply bool_decide_eq_false_2, Hno. }
  pose proof (evidence_mass_pos people) as Hpos%Qclt_not_eq.
  destruct (accumulated_person_totals people k) as [_ Ht].
  destruct (accumulate_person_bins k zero_dist pairs)
    as (_ & _ & _ & AT & AF).
  unfold trait_total in Ht. fold pairs in Ht. rewrite AT, AF in Ht.
  cbn in Ht. rewrite !Qcplus_0_l in Ht.
  destruct b.
  - assert (mass_where (λ h, bool_decide (k ∉ h_have_trait h)) pairs = 0)
      as Hz.
    { apply mass_where_none. intros hp Hhp%Hcons.
      apply bool_decide_eq_true_1 in Hhp.
      by apply bool_decide_eq_false_2; intros Hn. }
    rewrite Hz, Qcplus_0_r in Ht. rewrite HT, HF, Hz, Ht.
    split; field; congruence.
  - assert (mass_where (λ h, bool_decide (k ∈ h_have_trait h)) pairs = 0)
      as Hz.
    { apply mass_where_none. intros hp Hhp%Hcons. done. }
    rewrite Hz, Qcplus_0_l in Ht. rewrite HT, HF, Hz, Ht.
    split; field; congruence.
Qed.

Lemma X17_witness :
  ∃ P' d', main_on (load_data family0) = Ok P' ∧
    P' !! "James"%string = Some d' ∧
    trait_True (d_trait d') = 1 ∧ trait_False (d_trait d') = 0.
Proof.
  apply (X17_observed_trait_is_certain (load_data family0) "James"
           (mk_individual "James" None None (Some true)) true).
  - reflexivity.
  - reflexivity.
Defined.

(** ** The number of hypotheses *)

Lemma length_bind {A B} (f : A → list B) (l : list A) :
  length (l ≫= f) = sum_list_with (λ x, length (f x)) l.
Proof.
  induction l as [|x l IH]; [done|].
  rewrite bind_cons, length_app, IH. cbn. lia.
Qed.

Lemma sum_list_with_ext {A} (f g : A → nat) (l : list A) :
  (∀ x, x ∈ l → f x = g x) → sum_list_with f l = sum_list_with g l.
Proof.
  induction l as [|x l IH]; intros H; [done|].
  cbn. rewrite (H x) by left. rewrite IH; [done|].
  intros; apply H; by right.
Qed.

Lemma sum_list_with_fmap {A B} (f : B → nat) (g : A → B) (l : list A) :
  sum_list_with f (g <$> l) = sum_list_with (λ x, f (g x)) l.
Proof. induction l as [|x l IH]; [done|]. cbn. by rewrite IH. Qed.

Lemma sum_list_with_const {A} (c : nat) (l : list A) :
  sum_list_with (λ _, c) l = (length l * c)%nat.
Proof. induction l as [|x l IH]; [done|]. cbn. rewrite IH. lia. Qed.

Lemma sum_list_with_cons {A} (f : A → nat) (x : A) (l : list A) :
  sum_list_with f (x :: l) = (f x + sum_list_with f l)%nat.
Proof. reflexivity. Qed.

Lemma sum_list_with_double {A} (f : A → nat) (l : list A) :
  sum_list_with (λ x, 2 * f x)%nat l = (2 * sum_list_with f l)%nat.
Proof.
  induction l as [|x l IH]; [done|].
  rewrite !sum_list_with_cons, IH. lia.
Qed.

Lemma gene_pairs_count (s : gset string) :
  sum_list_with (λ o, length (powerset (s ∖ o))) (powerset s)
  = (3 ^ size s)%nat.
Proof.
  rewrite (sum_list_with_ext _ (λ o, 2 ^ size (s ∖ o))%nat)
    by (intros; apply length_powerset).
  induction s as [|x s Hx IH] using set_ind_L.
  - rewrite powerset_empty. cbn. by rewrite difference_diag_L, size_empty.
  - rewrite (powerset_insert x s Hx), sum_list_with_app, sum_list_with_fmap.
    rewrite (sum_list_with_ext _ (λ o, 2 * 2 ^ size (s ∖ o))%nat).
    2:{ intros o Ho%elem_of_powerset.
        assert (({[x]} ∪ s) ∖ o = {[x]} ∪ s ∖ o) as ->.
        { apply set_eq. intros y.
          rewrite !elem_of_difference, !elem_of_union, elem_of_difference,
            elem_of_singleton.
          split; [tauto|]. intros [->|?]; [|tauto].
          split; [by left|]. intros Hy. by apply Hx, Ho. }
        rewrite size_union, size_singleton; [done|].
        apply disjoint_singleton_l. rewrite elem_of_difference. tauto. }
    rewrite (sum_list_with_ext (λ o, 2 ^ size (({[x]} ∪ s) ∖ ({[x]} ∪ o)))
               (λ o, 2 ^ size (s ∖ o)))%nat.
    2:{ intros o Ho%elem_of_powerset. f_equal. f_equal.
        apply set_eq. intros y.
        rewrite !elem_of_difference, !elem_of_union, elem_of_singleton.
        split; [tauto|]. intros [Hy Hn]. split; [by right|].
        intros [->|?]; [done|done]. }
    rewrite sum_list_with_double, IH.
    rewrite size_union, size_singleton by (by apply disjoint_singleton_l).
    cbn [Nat.add Nat.pow]. lia.
Qed.

Lemma trait_subsets people :
  filter (λ have_trait,
            existsb (contradicts people have_trait) (elements (dom people))
            = false) (powerset (dom people))
  ≡ₚ (λ X, with_trait people (Some true) ∪ X)
       <$> powerset (with_trait people None).
Proof.
  assert (∀ t k, k ∈ with_trait people t
                 ↔ ∃ r, people !! k = Some r ∧ trait r = t) as Hw.
  { intros t k. unfold with_trait. rewrite elem_of_dom. split.
    - intros [r [Hr Ht]%map_lookup_filter_Some]. by exists r.
    - intros (r & Hr & Ht). exists r. by apply map_lookup_filter_Some. }
  apply NoDup_Permutation.
  - apply NoDup_filter, NoDup_powerset.
  - apply NoDup_fmap_2_strong; [|apply NoDup_powerset].
    intros X Y HX%elem_of_powerset HY%elem_of_powerset Heq.
    apply set_eq. intros k.
    assert (k ∈ with_trait people (Some true) ∪ X
            ↔ k ∈ with_trait people (Some true) ∪ Y) as Hk
      by (by rewrite Heq).
    rewrite !elem_of_union in Hk.
    assert (∀ Z, Z ⊆ with_trait people None → k ∈ Z →
                 k ∉ with_trait people (Some true)) as Hd.
    { intros Z HZ [r [Hr Ht]]%HZ%Hw [r' [Hr' Ht']]%Hw. congruence. }
    split; intros Hin.
    + destruct (proj1 Hk (or_intror Hin)) as [?|?]; [|done].
      exfalso. by eapply (Hd X).
    + destruct (proj2 Hk (or_intror Hin)) as [?|?]; [|done].
      exfalso. by eapply (Hd Y).
  - intros ht.
    rewrite list_elem_of_filter, elem_of_powerset, existsb_false,
      contradicts_false, list_elem_of_fmap.
    split.
    + intros [Hc Hsub]. exists (ht ∩ with_trait people None). split.
      * apply set_eq. intros k.
        rewrite elem_of_union, elem_of_intersection, !Hw. split.
        -- intros Hk. destruct (proj1 (elem_of_dom _ _) (Hsub k Hk)) as [r Hr].
           destruct (Hc k r Hr) as [_ Hno].
           destruct (trait r) as [[]|] eqn:Ht.
           ++ left. by exists r.
           ++ exfalso. by apply Hno.
           ++ right. split; [done|]. by exists r.
        -- intros [(r & Hr & Ht)|[Hk _]]; [|done]. by apply (Hc k r Hr).
      * apply elem_of_powerset. intros k [_ Hk]%elem_of_intersection. done.
    + intros (X & -> & HX%elem_of_powerset). split.
      * intros k r Hr. split.
        -- intros Ht. apply elem_of_union_l, Hw. by exists r.
        -- intros Ht [(r' & Hr' & Ht')%Hw|(r' & Hr' & Ht')%HX%Hw]%elem_of_union;
             congruence.
      * intros k [(r & Hr & _)%Hw|(r & Hr & _)%HX%Hw]%elem_of_union;
          apply elem_of_dom; eauto.
Qed.

(** X18.  The loop of [main] visits 2^u · 3^n hypotheses, where n is the
    number of individuals and u the number of individuals whose trait is not
    given. *)
Theorem X18_number_of_hypotheses people :
  ∃ hs, visited people = Ok hs ∧
    length hs
    = (2 ^ size (with_trait people None) * 3 ^ size (dom people))%nat.
Proof.
  exists (hypotheses people). split; [apply visited_hypotheses|].
  unfold hypotheses. rewrite length_bind.
  rewrite (sum_list_with_ext _ (λ _, 3 ^ size (dom people))%nat).
  2:{ intros ht _. rewrite length_bind.
      rewrite (sum_list_with_ext _
                 (λ o, length (powerset (dom people ∖ o))))
        by (intros; apply length_fmap).
      apply gene_pairs_count. }
  rewrite sum_list_with_const, (Permutation_length (trait_subsets people)).
  by rewrite length_fmap, length_powerset.
Qed.

(** ** Mother and father are interchangeable *)

Lemma keys_fmap {A B} (f : A → B) (m : gmap string A) :
  keys (f <$> m) = keys m.
Proof.
  unfold keys. rewrite map_to_list_fmap, <-list_fmap_compose.
  apply Forall_fmap_ext_1, Forall_forall. by intros [k x] _.
Qed.

Lemma no_parents_swap r : no_parents (swap_parents r) = no_parents r.
Proof. unfold no_parents, swap_parents. cbn. apply andb_comm. Qed.

Lemma one_gene_prob_swap people o t h k :
  one_gene_prob (swap_parents <$> people) o t h k
  = one_gene_prob people o t h k.
Proof.
  unfold one_gene_prob, getitem. rewrite lookup_fmap.
  destruct (people !! k) as [r|]; [|done]. cbn [fmap option_fmap option_map
    mbind outcome_bind].
  rewrite no_parents_swap. destruct (no_parents r); [done|].
  cbn [swap_parents mother father].
  destruct (member (mother r) o), (member (mother r) t),
    (member (father r) o), (member (father r) t),
    (bool_decide (k ∈ h)); f_equal; ring.
Qed.

Lemma two_genes_prob_swap people o t h k :
  two_genes_prob (swap_parents <$> people) o t h k
  = two_genes_prob people o t h k.
Proof.
  unfold two_genes_prob, getitem. rewrite lookup_fmap.
  destruct (people !! k) as [r|]; [|done]. cbn [fmap option_fmap option_map
    mbind outcome_bind].
  rewrite no_parents_swap. destruct (no_parents r); [done|].
  cbn [swap_parents mother father].
  destruct (member (mother r) o), (member (mother r) t),
    (member (father r) o), (member (father r) t),
    (bool_decide (k ∈ h)); f_equal; ring.
Qed.

Lemma no_gene_prob_swap people o t h k :
  no_gene_prob (swap_parents <$> people) o t h k
  = no_gene_prob people o t h k.
Proof.
  unfold no_gene_prob, getitem. rewrite lookup_fmap.
  destruct (bool_decide (k ∉ o) && bool_decide (k ∉ t)); [|done].
  destruct (people !! k) as [r|]; [|done]. cbn [fmap option_fmap option_map
    mbind outcome_bind].
  rewrite no_parents_swap. destruct (no_parents r); [done|].
  cbn [swap_parents mother father].
  destruct (member (mother r) o), (member (mother r) t),
    (member (father r) o), (member (father r) t),
    (bool_decide (k ∈ h)); f_equal; f_equal; ring.
Qed.

Lemma joint_probability_swap people o t h :
  joint_probability (swap_parents <$> people) o t h
  = joint_probability people o t h.
Proof.
  unfold joint_probability. rewrite keys_fmap.
  rewrite (mapM_ext (one_gene_prob (swap_parents <$> people) o t h)
             (one_gene_prob people o t h))
    by (intros; apply one_gene_prob_swap).
  rewrite (mapM_ext (two_genes_prob (swap_parents <$> people) o t h)
             (two_genes_prob people o t h))
    by (intros; apply two_genes_prob_swap).
  rewrite (mapM_ext (no_gene_prob (swap_parents <$> people) o t h)
             (no_gene_prob people o t h))
    by (intros; apply no_gene_prob_swap).
  done.
Qed.

Lemma contradicts_swap people ht k :
  contradicts (swap_parents <$> people) ht k = contradicts people ht k.
Proof.
  unfold contradicts. rewrite lookup_fmap. by destruct (people !! k).
Qed.

Lemma hypotheses_swap people :
  hypotheses (swap_parents <$> people) = hypotheses people.
Proof.
  unfold hypotheses. rewrite dom_fmap_L. f_equal.
  apply list_filter_iff. intros ht. rewrite !existsb_false.
  split; intros H k Hk; specialize (H k Hk);
    by rewrite contradicts_swap in *.
Qed.

Lemma foldlM_score_swap people P hs :
  foldlM (score_and_update (swap_parents <$> people)) P hs
  = foldlM (score_and_update people) P hs.
Proof.
  apply foldlM_ext. intros s h _. unfold score_and_update.
  by rewrite joint_probability_swap.
Qed.

(** X19.  Mother and father are interchangeable: with the two parent
    references of every record exchanged, [joint_probability] returns the
    same result for every hypothesis, and [main] the same table. *)
Theorem X19_parents_are_interchangeable
    people one_gene two_genes have_trait :
  joint_probability (swap_parents <$> people) one_gene two_genes have_trait
    = joint_probability people one_gene two_genes have_trait ∧
  main_on (swap_parents <$> people) = main_on people.
Proof.
  split; [apply joint_probability_swap|].
  unfold main_on, accumulate.
  rewrite !enumerate_hypotheses, hypotheses_swap, foldlM_score_swap.
  by rewrite <-map_fmap_compose.
Qed.
(** * The program with its store *)

(** ** The loops *)

Lemma prog_bind_eq {S A B} (m : Prog.prog S A) (f : A → Prog.prog S B) s :
  (m ≫= f) s
  = match m s with
    | (s', Ok a) => f a s'
    | (s', Raise e) => (s', Raise e)
    end.
Proof. done. Qed.

Lemma mapM_prog_pure {S A B} (body : A → Prog.prog S B) (f : A → outcome B)
    l s :
  (∀ x, x ∈ l → body x s = (s, f x)) → mapM body l s = (s, mapM f l).
Proof.
  induction l as [|x l IH]; intros Hb; [done|].
  cbn. unfold mbind at 1, Prog.prog_bind at 1.
  rewrite Hb by left. destruct (f x) as [y|e]; cbn; [|done].
  unfold mbind at 1, Prog.prog_bind at 1.
  rewrite IH by (intros; apply Hb; by right).
  by destruct (mapM f l).
Qed.

Lemma mapM_prog_store {S A B} (body : A → Prog.prog S B) l s :
  (∀ x s, (body x s).1 = s) → (mapM body l s).1 = s.
Proof.
  intros Hb. induction l as [|x l IH]; [done|].
  cbn. unfold mbind at 1, Prog.prog_bind at 1.
  specialize (Hb x s). destruct (body x s) as [s' [y|e]]; cbn in Hb; subst s';
    [|done].
  unfold mbind at 1, Prog.prog_bind at 1.
  destruct (mapM body l s) as [s' [k|e]]; cbn in IH; by subst s'.
Qed.

Lemma for_each_modify {S A} (f : A → S → S) l (s : S) :
  Prog.for_each (λ x, Prog.modify (f x)) l s = (foldl (λ s x, f x s) s l, Ok tt).
Proof. revert s. induction l as [|x l IH]; intros s; [done|]. cbn. apply IH. Qed.

Lemma for_each_app {S A} (body : A → Prog.prog S unit) l k s :
  Prog.for_each body (l ++ k) s
  = match Prog.for_each body l s with
    | (s', Ok _) => Prog.for_each body k s'
    | (s', Raise e) => (s', Raise e)
    end.
Proof.
  revert s. induction l as [|x l IH]; intros s; [done|].
  cbn. unfold mbind, Prog.prog_bind.
  destruct (body x s) as [s' [[]|e]]; [apply IH|done].
Qed.

(** ** [joint_probability] leaves its arguments and [PROBS] as they are *)

Lemma one_gene_body_store A person s : (Prog.one_gene_body A person s).1 = s.
Proof.
  unfold Prog.one_gene_body, mbind, mret, Prog.prog_bind, Prog.prog_ret, Prog.get,
    Prog.lift. cbn.
  destruct (getitem (Prog.jp_people s) person) as [r|]; cbn; [|done].
  destruct (no_parents r); repeat case_bool_decide; done.
Qed.

Lemma two_genes_body_store A person s : (Prog.two_genes_body A person s).1 = s.
Proof.
  unfold Prog.two_genes_body, mbind, mret, Prog.prog_bind, Prog.prog_ret, Prog.get,
    Prog.lift. cbn.
  destruct (getitem (Prog.jp_people s) person) as [r|]; cbn; [|done].
  destruct (no_parents r); repeat case_bool_decide; done.
Qed.

Lemma no_gene_body_store A person s : (Prog.no_gene_body A person s).1 = s.
Proof.
  unfold Prog.no_gene_body, mbind, mret, Prog.prog_bind, Prog.prog_ret, Prog.get,
    Prog.lift. cbn.
  destruct (_ && _); cbn; [|done].
  destruct (getitem (Prog.jp_people s) person) as [r|]; cbn; [|done].
  destruct (no_parents r); repeat case_bool_decide; done.
Qed.

Lemma joint_probability_store A s : (Prog.joint_probability A s).1 = s.
Proof.
  unfold Prog.joint_probability, mbind, mret, Prog.prog_bind, Prog.prog_ret,
    Prog.get. cbn.
  pose proof (mapM_prog_store (Prog.one_gene_body A)
                (elements (Prog.jp_one_gene s)) s (one_gene_body_store A)) as H1.
  destruct (mapM (Prog.one_gene_body A) _ s) as [s1 [probs1|e]]; cbn in H1;
    subst s1; cbn; [|done].
  pose proof (mapM_prog_store (Prog.two_genes_body A)
                (elements (Prog.jp_two_genes s)) s (two_genes_body_store A)) as H2.
  destruct (mapM (Prog.two_genes_body A) _ s) as [s2 [probs2|e]]; cbn in H2;
    subst s2; cbn; [|done].
  pose proof (mapM_prog_store (Prog.no_gene_body A)
                (keys (Prog.jp_people s)) s (no_gene_body_store A)) as H0.
  destruct (mapM (Prog.no_gene_body A) _ s) as [s0 [probs0|e]]; cbn in H0;
    by subst s0.
Qed.

(** ** In exact arithmetic the program is the rational model *)

Lemma one_gene_body_exact people o t h person :
  Prog.one_gene_body Prog.exact person
    (Prog.mk_jp_store people o t h (Prog.PROBS Prog.exact))
  = (Prog.mk_jp_store people o t h (Prog.PROBS Prog.exact),
     one_gene_prob people o t h person).
Proof.
  unfold Prog.one_gene_body, one_gene_prob, mbind, mret, Prog.prog_bind, Prog.prog_ret,
    Prog.get, Prog.lift. cbn.
  destruct (getitem people person) as [r|]; cbn; [|done].
  destruct (no_parents r); repeat case_bool_decide; done.
Qed.

Lemma two_genes_body_exact people o t h person :
  Prog.two_genes_body Prog.exact person
    (Prog.mk_jp_store people o t h (Prog.PROBS Prog.exact))
  = (Prog.mk_jp_store people o t h (Prog.PROBS Prog.exact),
     two_genes_prob people o t h person).
Proof.
  unfold Prog.two_genes_body, two_genes_prob, mbind, mret, Prog.prog_bind, Prog.prog_ret,
    Prog.get, Prog.lift. cbn.
  destruct (getitem people person) as [r|]; cbn; [|done].
  destruct (no_parents r); repeat case_bool_decide; done.
Qed.

Lemma no_gene_body_exact people o t h person :
  Prog.no_gene_body Prog.exact person
    (Prog.mk_jp_store people o t h (Prog.PROBS Prog.exact))
  = (Prog.mk_jp_store people o t h (Prog.PROBS Prog.exact),
     no_gene_prob people o t h person).
Proof.
  unfold Prog.no_gene_body, no_gene_prob, mbind, mret, Prog.prog_bind, Prog.prog_ret,
    Prog.get, Prog.lift. cbn.
  destruct (_ && _); cbn; [|done].
  destruct (getitem people person) as [r|]; cbn; [|done].
  destruct (no_parents r); repeat case_bool_decide; done.
Qed.

Lemma joint_probability_exact people o t h :
  Prog.joint_probability Prog.exact
    (Prog.mk_jp_store people o t h (Prog.PROBS Prog.exact))
  = (Prog.mk_jp_store people o t h (Prog.PROBS Prog.exact),
     joint_probability people o t h).
Proof.
  unfold Prog.joint_probability, joint_probability.
  rewrite prog_bind_eq. cbn [Prog.get Prog.jp_one_gene]. rewrite prog_bind_eq.
  rewrite (mapM_prog_pure _ (one_gene_prob people o t h))
    by (intros; apply one_gene_body_exact).
  destruct (mapM (one_gene_prob people o t h) _) as [probs1|]; [|done].
  rewrite prog_bind_eq. cbn [Prog.get Prog.jp_two_genes mbind outcome_bind].
  rewrite prog_bind_eq.
  rewrite (mapM_prog_pure _ (two_genes_prob people o t h))
    by (intros; apply two_genes_body_exact).
  destruct (mapM (two_genes_prob people o t h) _) as [probs2|]; [|done].
  rewrite prog_bind_eq. cbn [Prog.get Prog.jp_people mbind outcome_bind].
  rewrite prog_bind_eq.
  rewrite (mapM_prog_pure _ (no_gene_prob people o t h))
    by (intros; apply no_gene_body_exact).
  by destruct (mapM (no_gene_prob people o t h) _) as [probs0|].
Qed.

Lemma joint_probability_empty A have_trait (PROBS : Prog.tables A) :
  Prog.joint_probability A (Prog.mk_jp_store ∅ ∅ ∅ have_trait PROBS)
  = (Prog.mk_jp_store ∅ ∅ ∅ have_trait PROBS, Ok (Prog.literal A 1 1)).
Proof.
  unfold Prog.joint_probability.
  rewrite prog_bind_eq. cbn [Prog.get Prog.jp_one_gene].
  rewrite elements_empty, prog_bind_eq. cbn [mapM mret Prog.prog_ret].
  rewrite prog_bind_eq. cbn [Prog.get Prog.jp_two_genes].
  rewrite elements_empty, prog_bind_eq. cbn [mapM mret Prog.prog_ret].
  rewrite prog_bind_eq. cbn [Prog.get Prog.jp_people].
  unfold keys. rewrite map_to_list_empty, prog_bind_eq. done.
Qed.

(** C2.  Run on the store that holds its four arguments and [PROBS], for a
    hypothesis over the individuals of the pedigree (two disjoint subsets of
    them as [one_gene] and [two_genes]), [joint_probability] returns, in
    exact arithmetic, the product over all individuals of
    P(geneCount | parents or prior) × P(trait | geneCount), and leaves the
    store as it found it.  In every arithmetic, also that of floats, and on
    every store, also one that is no hypothesis or on which it raises, the
    call ends with the store it started with: the pedigree, the three sets
    and the tables are not written.  For the empty pedigree the result is
    the number 1, in every arithmetic and for any tables. *)
Theorem C2_joint_probability_is_product
    (people : gmap string individual)
    (one_gene two_genes have_trait : gset string) :
  one_gene ⊆ dom people →
  two_genes ⊆ dom people →
  one_gene ## two_genes →
  Prog.joint_probability Prog.exact
    (Prog.mk_jp_store people one_gene two_genes have_trait
                      (Prog.PROBS Prog.exact))
  = (Prog.mk_jp_store people one_gene two_genes have_trait
                      (Prog.PROBS Prog.exact),
     Ok (foldr Qcmult 1
           ((λ '(person, r),
              spec_factor one_gene two_genes have_trait person r)
            <$> map_to_list people))) ∧
  (∀ A (s : Prog.jp_store A), (Prog.joint_probability A s).1 = s) ∧
  (∀ A (PROBS : Prog.tables A),
     Prog.joint_probability A (Prog.mk_jp_store ∅ ∅ ∅ have_trait PROBS)
     = (Prog.mk_jp_store ∅ ∅ ∅ have_trait PROBS, Ok (Prog.literal A 1 1))).
Proof.
  intros Hone Htwo Hdisj. split; [|split].
  - rewrite joint_probability_exact.
    rewrite (joint_probability_spec people one_gene two_genes have_trait
               Hone Htwo Hdisj).
    unfold spec_joint, product. rewrite foldl_Qcmult. do 3 f_equal. ring.
  - apply joint_probability_store.
  - intros A PROBS. apply joint_probability_empty.
Qed.

Lemma C2_witness :
  Prog.joint_probability Prog.exact
    (Prog.mk_jp_store (load_data family0) {["Harry"%string]}
                      {["James"%string]} {["James"%string]}
                      (Prog.PROBS Prog.exact))
  = (Prog.mk_jp_store (load_data family0) {["Harry"%string]}
                      {["James"%string]} {["James"%string]}
                      (Prog.PROBS Prog.exact),
     Ok (foldr Qcmult 1
           ((λ '(person, r),
              spec_factor {["Harry"%string]} {["James"%string]}
                          {["James"%string]} person r)
            <$> map_to_list (load_data family0)))) ∧
  (∀ A (s : Prog.jp_store A), (Prog.joint_probability A s).1 = s) ∧
  (∀ A (PROBS : Prog.tables A),
     Prog.joint_probability A
       (Prog.mk_jp_store ∅ ∅ ∅ {["James"%string]} PROBS)
     = (Prog.mk_jp_store ∅ ∅ ∅ {["James"%string]} PROBS,
        Ok (Prog.literal A 1 1))).
Proof.
  apply (C2_joint_probability_is_product (load_data family0)
           {["Harry"%string]} {["James"%string]} {["James"%string]}).
  - apply (bool_decide_unpack _). vm_compute. reflexivity.
  - apply (bool_decide_unpack _). vm_compute. reflexivity.
  - apply (bool_decide_unpack _). vm_compute. reflexivity.
Defined.

(** ** [update] on the store *)

Lemma for_each_total {S A} (body : A → Prog.prog S unit) l s :
  (∀ x s, (body x s).2 = Ok tt) →
  Prog.for_each body l s = (foldl (λ s x, (body x s).1) s l, Ok tt).
Proof.
  intros Hb. revert s. induction l as [|x l IH]; intros s; [done|].
  cbn [Prog.for_each foldl]. rewrite prog_bind_eq.
  specialize (Hb x s). destruct (body x s) as [s' [[]|e]]; [apply IH|done].
Qed.

Lemma update_in_order_foldl A order o t h p (P : gmap string (Prog.entry A)) :
  Prog.update_in_order A order o t h p P
  = (foldl (λ P k, alter (Prog.update_entry A o t h p k) k P) P order, Ok tt).
Proof. apply for_each_modify. Qed.

Lemma update_in_order_keys A o t h p (P : gmap string (Prog.entry A)) :
  Prog.update A o t h p P = Prog.update_in_order A (keys P) o t h p P.
Proof. done. Qed.

Lemma prog_lookup_update_in_order A order o t h p (P : gmap string (Prog.entry A)) k :
  NoDup order →
  (Prog.update_in_order A order o t h p P).1 !! k
  = if decide (k ∈ order) then Prog.update_entry A o t h p k <$> P !! k
    else P !! k.
Proof.
  intros Hnd. rewrite update_in_order_foldl. cbn [fst].
  by rewrite lookup_foldl_alter.
Qed.

Lemma lookup_prog_update A o t h p (P : gmap string (Prog.entry A)) k :
  (Prog.update A o t h p P).1 !! k = Prog.update_entry A o t h p k <$> P !! k.
Proof.
  rewrite update_in_order_keys, prog_lookup_update_in_order by apply NoDup_keys.
  case_decide as Hk; [done|].
  rewrite elem_of_keys, <-eq_None_not_Some in Hk. by rewrite Hk.
Qed.

Lemma prog_update_Ok A o t h p (P : gmap string (Prog.entry A)) :
  (Prog.update A o t h p P).2 = Ok tt.
Proof. by rewrite update_in_order_keys, update_in_order_foldl. Qed.

Lemma update_in_order_Permutation_keys A order o t h p
    (P : gmap string (Prog.entry A)) :
  order ≡ₚ keys P →
  Prog.update_in_order A order o t h p P = Prog.update A o t h p P.
Proof.
  intros Hp. rewrite update_in_order_keys.
  pose proof (NoDup_keys P) as Hnd. pose proof Hnd as Hnd'.
  rewrite <-Hp in Hnd'.
  rewrite !update_in_order_foldl. f_equal. apply map_eq. intros k.
  rewrite !lookup_foldl_alter by done.
  destruct (decide (k ∈ order)) as [Hk|Hk].
  - rewrite decide_True; [done|]. by rewrite <-Hp.
  - rewrite decide_False; [done|]. by rewrite <-Hp.
Qed.

Lemma update_pairs_foldl A pairs (P : gmap string (Prog.entry A)) :
  Prog.update_pairs A pairs P
  = (foldl (λ P hp, (Prog.update A (h_one_gene hp.1) (h_two_genes hp.1)
                                 (h_have_trait hp.1) hp.2 P).1) P pairs,
     Ok tt).
Proof.
  unfold Prog.update_pairs.
  apply (for_each_total
           (λ hp, Prog.update A (h_one_gene hp.1) (h_two_genes hp.1)
                              (h_have_trait hp.1) hp.2)).
  intros hp s. apply prog_update_Ok.
Qed.

Lemma foldl_Permutation_comm {S X} (f : S → X → S) l l' :
  (∀ s x y, f (f s x) y = f (f s y) x) →
  l ≡ₚ l' → ∀ s, foldl f s l = foldl f s l'.
Proof.
  intros Hf Hp.
  induction Hp as [|x l l' _ IH|x y l|l1 l2 l3 _ IH1 _ IH2]; intros s.
  - done.
  - cbn. apply IH.
  - cbn. by rewrite Hf.
  - by rewrite IH1.
Qed.

Lemma add_swap (a b c : Qc) : a + b + c = a + c + b.
Proof. ring. Qed.

(** Exact addition into the bins commutes. *)
Lemma update_entry_comm o1 t1 h1 p1 o2 t2 h2 p2 k (d : Prog.entry Prog.exact) :
  Prog.update_entry Prog.exact o1 t1 h1 p1 k
    (Prog.update_entry Prog.exact o2 t2 h2 p2 k d)
  = Prog.update_entry Prog.exact o2 t2 h2 p2 k
      (Prog.update_entry Prog.exact o1 t1 h1 p1 k d).
Proof.
  destruct d as [[g2 g1 g0] [tT tF]]. unfold Prog.update_entry. cbn.
  cbn in *. repeat case_bool_decide; cbn; do 2 f_equal; apply add_swap.
Qed.

Lemma prog_update_comm o1 t1 h1 p1 o2 t2 h2 p2
    (P : gmap string (Prog.entry Prog.exact)) :
  (Prog.update Prog.exact o1 t1 h1 p1 (Prog.update Prog.exact o2 t2 h2 p2 P).1).1
  = (Prog.update Prog.exact o2 t2 h2 p2 (Prog.update Prog.exact o1 t1 h1 p1 P).1).1.
Proof.
  apply map_eq. intros k. rewrite !lookup_prog_update.
  destruct (P !! k) as [d|]; [|done]. cbn. f_equal. apply update_entry_comm.
Qed.

Lemma update_pairs_Permutation pairs pairs'
    (P : gmap string (Prog.entry Prog.exact)) :
  pairs ≡ₚ pairs' →
  Prog.update_pairs Prog.exact pairs P = Prog.update_pairs Prog.exact pairs' P.
Proof.
  intros Hp. rewrite !update_pairs_foldl. f_equal.
  apply foldl_Permutation_comm; [|done].
  intros s x y. apply prog_update_comm.
Qed.

(** ** [normalize] on the store *)



Lemma normalize_body_Ok A person d (P : gmap string (Prog.entry A)) :
  P !! person = Some d →
  Prog.is_zero A (Prog.gene_sum A d) = false →
  Prog.is_zero A (Prog.trait_sum A d) = false →
  Prog.normalize_body A person P = (alter (Prog.rescaled A) person P, Ok tt).
Proof.
  intros Hd Hg Hz. unfold Prog.normalize_body.
  rewrite prog_bind_eq. cbn [Prog.get]. rewrite prog_bind_eq.
  unfold Prog.lift at 1. rewrite (getitem_Some _ _ _ Hd).
  rewrite prog_bind_eq. unfold Prog.lift at 1, Prog.truediv at 1.
  rewrite Hg. rewrite prog_bind_eq. unfold Prog.modify at 1.
  rewrite prog_bind_eq. cbn [Prog.get]. rewrite prog_bind_eq.
  unfold Prog.lift at 1.
  erewrite getitem_Some by (rewrite lookup_alter_eq, Hd; reflexivity).
  rewrite prog_bind_eq. unfold Prog.lift at 1, Prog.truediv at 1.
  change (Prog.trait_sum A (Prog.scale_gene A _ d)) with (Prog.trait_sum A d).
  rewrite Hz. unfold Prog.modify. f_equal.
  apply map_eq. intros k. destruct (decide (k = person)) as [->|Hk].
  - by rewrite !lookup_alter_eq, Hd.
  - by rewrite !lookup_alter_ne.
Qed.

Lemma prog_normalize_loop_Ok A order (P : gmap string (Prog.entry A)) :
  NoDup order →
  (∀ person, person ∈ order → ∃ d, P !! person = Some d ∧
     Prog.is_zero A (Prog.gene_sum A d) = false ∧
     Prog.is_zero A (Prog.trait_sum A d) = false) →
  Prog.for_each (Prog.normalize_body A) order P
  = (foldl (λ P k, alter (Prog.rescaled A) k P) P order, Ok tt).
Proof.
  intros Hnd. revert P.
  induction Hnd as [|k order Hk Hnd IH]; intros P H; [done|].
  cbn [Prog.for_each foldl]. rewrite prog_bind_eq.
  destruct (H k) as (d & Hd & Hg & Ht); [by left|].
  rewrite (normalize_body_Ok A k d P Hd Hg Ht). apply IH.
  intros person Hp. destruct (H person) as (d' & Hd' & H'); [by right|].
  exists d'. split; [|done]. rewrite lookup_alter_ne; [done|].
  intros ->. done.
Qed.

Lemma prog_normalize_Ok A (P : gmap string (Prog.entry A)) :
  (∀ person d, P !! person = Some d →
     Prog.is_zero A (Prog.gene_sum A d) = false ∧
     Prog.is_zero A (Prog.trait_sum A d) = false) →
  Prog.normalize A P = (Prog.rescaled A <$> P, Ok tt).
Proof.
  intros H. unfold Prog.normalize. rewrite prog_bind_eq. cbn [Prog.get].
  rewrite prog_normalize_loop_Ok.
  - f_equal. apply map_eq. intros k.
    rewrite lookup_foldl_alter by apply NoDup_keys. rewrite lookup_fmap.
    case_decide as Hk; [done|].
    rewrite elem_of_keys, <-eq_None_not_Some in Hk. by rewrite Hk.
  - apply NoDup_keys.
  - intros person [d Hd]%elem_of_keys. exists d. split; [done|].
    by apply (H person).
Qed.



(** ** The accumulation of [main] on the store *)

Lemma lookup_update_pairs A pairs (P : gmap string (Prog.entry A)) k :
  (Prog.update_pairs A pairs P).1 !! k
  = (λ d, foldl (λ d hp, Prog.update_entry A (h_one_gene hp.1)
                           (h_two_genes hp.1) (h_have_trait hp.1) hp.2 k d)
                d pairs) <$> P !! k.
Proof.
  rewrite update_pairs_foldl. cbn [fst]. revert P.
  induction pairs as [|hp pairs IH]; intros P; cbn [foldl].
  - by destruct (P !! k).
  - rewrite IH, lookup_prog_update. by destruct (P !! k).
Qed.

Lemma dom_update_pairs A pairs (P : gmap string (Prog.entry A)) :
  dom (Prog.update_pairs A pairs P).1 = dom P.
Proof.
  apply set_eq. intros k.
  by rewrite !elem_of_dom, lookup_update_pairs, fmap_is_Some.
Qed.

Lemma score_and_update_exact people P h :
  spec_hypothesis people h →
  Prog.score_and_update Prog.exact people P h
  = Ok (Prog.update Prog.exact (h_one_gene h) (h_two_genes h) (h_have_trait h)
          (spec_joint people (h_one_gene h) (h_two_genes h) (h_have_trait h))
          P).1.
Proof.
  intros Hh. unfold Prog.score_and_update.
  rewrite joint_probability_exact. cbn [snd].
  by rewrite (joint_probability_hypothesis people h Hh).
Qed.

Lemma foldlM_score_exact people P hs :
  (∀ h, h ∈ hs → spec_hypothesis people h) →
  foldlM (Prog.score_and_update Prog.exact people) P hs
  = Ok (Prog.update_pairs Prog.exact (scored people hs) P).1.
Proof.
  rewrite update_pairs_foldl. cbn [fst]. unfold scored. revert P.
  induction hs as [|h hs IH]; intros P H; [done|].
  cbn [foldlM fmap list_fmap foldl].
  rewrite score_and_update_exact by (apply H; by left).
  cbn [mbind outcome_bind]. apply IH. intros; apply H; by right.
Qed.

Lemma prog_accumulate_exact people :
  Prog.accumulate Prog.exact people
  = Ok (Prog.update_pairs Prog.exact (scored people (hypotheses people))
          ((λ _, Prog.zero_entry Prog.exact) <$> people)).1.
Proof.
  unfold Prog.accumulate. rewrite enumerate_hypotheses.
  apply foldlM_score_exact. intros h. apply elem_of_hypotheses.
Qed.

Lemma add_assoc_swap (a b c : Qc) : a + (b + c) = a + b + c.
Proof. ring. Qed.

Lemma update_entry_sums o t h p k (d : Prog.entry Prog.exact) :
  Prog.gene_sum Prog.exact (Prog.update_entry Prog.exact o t h p k d)
  = Prog.gene_sum Prog.exact d + p ∧
  Prog.trait_sum Prog.exact (Prog.update_entry Prog.exact o t h p k d)
  = Prog.trait_sum Prog.exact d + p.
Proof.
  destruct d as [[g2 g1 g0] [tT tF]].
  unfold Prog.gene_sum, Prog.trait_sum, Prog.sum, Prog.update_entry.
  cbn in *. repeat case_bool_decide; cbn; split;
    change (lit 0 1) with 0; ring.
Qed.

Lemma fold_update_entry_sums k (d : Prog.entry Prog.exact)
    (pairs : list (hypothesis * Qc)) :
  let d' := foldl (λ d hp, Prog.update_entry Prog.exact (h_one_gene hp.1)
                             (h_two_genes hp.1) (h_have_trait hp.1) hp.2 k d)
                  d pairs in
  Prog.gene_sum Prog.exact d'
  = Prog.gene_sum Prog.exact d + foldr Qcplus 0 pairs.*2 ∧
  Prog.trait_sum Prog.exact d'
  = Prog.trait_sum Prog.exact d + foldr Qcplus 0 pairs.*2.
Proof.
  cbn zeta. revert d.
  induction pairs as [|hp pairs IH]; intros d; cbn [foldl fmap list_fmap foldr].
  - split; symmetry; apply Qcplus_0_r.
  - destruct (IH (Prog.update_entry Prog.exact (h_one_gene hp.1)
                    (h_two_genes hp.1) (h_have_trait hp.1) hp.2 k d))
      as [Hg Ht].
    destruct (update_entry_sums (h_one_gene hp.1) (h_two_genes hp.1)
                (h_have_trait hp.1) hp.2 k d) as [Hg' Ht'].
    split.
    + etransitivity; [exact Hg|]. rewrite Hg'. symmetry. apply add_assoc_swap.
    + etransitivity; [exact Ht|]. rewrite Ht'. symmetry. apply add_assoc_swap.
Qed.

Lemma zero_entry_sums :
  Prog.gene_sum Prog.exact (Prog.zero_entry Prog.exact) = 0 ∧
  Prog.trait_sum Prog.exact (Prog.zero_entry Prog.exact) = 0.
Proof. split; apply Qc_is_canon; reflexivity. Qed.

Lemma evidence_mass_foldr people :
  evidence_mass people = foldr Qcplus 0 (scored people (hypotheses people)).*2.
Proof. unfold evidence_mass, sum. rewrite foldl_Qcplus. apply Qcplus_0_l. Qed.

Lemma prog_accumulated_sums people person d :
  (Prog.update_pairs Prog.exact (scored people (hypotheses people))
     ((λ _, Prog.zero_entry Prog.exact) <$> people)).1 !! person = Some d →
  Prog.gene_sum Prog.exact d = evidence_mass people ∧
  Prog.trait_sum Prog.exact d = evidence_mass people.
Proof.
  rewrite lookup_update_pairs, lookup_fmap.
  destruct (people !! person) as [r|]; [|done]. cbn [fmap option_fmap option_map].
  intros [= <-].
  destruct (fold_update_entry_sums person (Prog.zero_entry Prog.exact)
              (scored people (hypotheses people))) as [Hg Ht].
  destruct zero_entry_sums as [Hg0 Ht0]. rewrite Hg0 in Hg. rewrite Ht0 in Ht.
  split; (etransitivity; [eassumption|]).
  all: rewrite evidence_mass_foldr; apply Qcplus_0_l.
Qed.

(** C4.  In exact arithmetic, after the accumulation and before
    [normalize], the three gene bins of every individual and the two trait
    bins of every individual sum to one and the same number: the sum of the
    joint probabilities of the hypotheses visited, which are, each once,
    exactly the hypotheses consistent with the evidence; every one of these
    probabilities is positive, and so is their sum, the probability of the
    evidence. *)
Theorem C4_totals_are_the_evidence_mass (people : gmap string individual) :
  ∃ hs ps P,
    visited people = Ok hs ∧
    NoDup hs ∧
    (∀ h, h ∈ hs ↔ spec_hypothesis people h) ∧
    mapM (λ h, (Prog.joint_probability Prog.exact
                  (Prog.mk_jp_store people (h_one_gene h) (h_two_genes h)
                                    (h_have_trait h)
                                    (Prog.PROBS Prog.exact))).2) hs
    = Ok ps ∧
    (∀ p, p ∈ ps → 0 < p) ∧
    0 < foldr Qcplus 0 ps ∧
    Prog.accumulate Prog.exact people = Ok P ∧
    dom P = dom people ∧
    ∀ person d, P !! person = Some d →
      Prog.gene_sum Prog.exact d = foldr Qcplus 0 ps ∧
      Prog.trait_sum Prog.exact d = foldr Qcplus 0 ps.
Proof.
  exists (hypotheses people), (scored people (hypotheses people)).*2,
    (Prog.update_pairs Prog.exact (scored people (hypotheses people))
       ((λ _, Prog.zero_entry Prog.exact) <$> people)).1.
  split; [apply visited_hypotheses|].
  split; [apply NoDup_hypotheses|].
  split; [apply elem_of_hypotheses|].
  split.
  { rewrite <-mapM_joint_probability. apply mapM_ext. intros h _.
    by rewrite joint_probability_exact. }
  split.
  { intros p (hp & -> & Hhp)%list_elem_of_fmap. by apply scored_pos in Hhp. }
  split; [rewrite <-evidence_mass_foldr; apply evidence_mass_pos|].
  split; [apply prog_accumulate_exact|].
  split; [by rewrite dom_update_pairs, dom_fmap_L|].
  intros person d Hd. rewrite <-evidence_mass_foldr.
  by apply (prog_accumulated_sums people person d).
Qed.

(** In binary64 the two totals of the one founder differ: the gene bins sum
    to [1.0], the trait bins to [0.9999999999999999]. *)
Lemma C4_counterexample :
  ¬ (∀ people P person d,
       Prog.accumulate Prog.binary64 people = Ok P →
       P !! person = Some d →
       Prog.gene_sum Prog.binary64 d = Prog.trait_sum Prog.binary64 d).
Proof.
  intros H.
  destruct (Prog.accumulate Prog.binary64 lone_founder) as [P|] eqn:HP;
    [|by vm_compute in HP].
  destruct (P !! "A"%string) as [d|] eqn:Hd.
  - specialize (H lone_founder P "A"%string d HP Hd).
    apply (f_equal (λ x, PrimFloat.eqb x 1)) in H.
    injection HP as <-. vm_compute in Hd. injection Hd as <-.
    vm_compute in H. discriminate H.
  - injection HP as <-. by vm_compute in Hd.
Qed.

(** C9.  In exact arithmetic the order of the stream of (hypothesis,
    probability) pairs is irrelevant: [update] called for the pairs of any
    permutation of the stream leaves the same table, and [normalize] after
    it the same result.  In every arithmetic, also that of floats, the order
    in which the loop of [update] takes the persons is irrelevant, since each
    person has its own bins. *)
Theorem C9_accumulation_is_order_independent
    (P : gmap string (Prog.entry Prog.exact))
    (pairs pairs' : list (hypothesis * Qc)) :
  pairs ≡ₚ pairs' →
  Prog.update_pairs Prog.exact pairs P = Prog.update_pairs Prog.exact pairs' P ∧
  Prog.normalize Prog.exact (Prog.update_pairs Prog.exact pairs P).1
  = Prog.normalize Prog.exact (Prog.update_pairs Prog.exact pairs' P).1 ∧
  (∀ A (Pa : gmap string (Prog.entry A)) order one_gene two_genes have_trait p,
     order ≡ₚ keys Pa →
     Prog.update_in_order A order one_gene two_genes have_trait p Pa
     = Prog.update A one_gene two_genes have_trait p Pa).
Proof.
  intros Hp. split; [by apply update_pairs_Permutation|].
  split; [by rewrite (update_pairs_Permutation pairs pairs')|].
  intros A Pa order o t h p. apply update_in_order_Permutation_keys.
Qed.

Lemma C9_witness :
  let P := (λ _, Prog.zero_entry Prog.exact) <$> lone_founder in
  let pairs := scored lone_founder (hypotheses lone_founder) in
  Prog.update_pairs Prog.exact pairs P
  = Prog.update_pairs Prog.exact (reverse pairs) P ∧
  Prog.normalize Prog.exact (Prog.update_pairs Prog.exact pairs P).1
  = Prog.normalize Prog.exact (Prog.update_pairs Prog.exact (reverse pairs) P).1 ∧
  (∀ A (Pa : gmap string (Prog.entry A)) order one_gene two_genes have_trait p,
     order ≡ₚ keys Pa →
     Prog.update_in_order A order one_gene two_genes have_trait p Pa
     = Prog.update A one_gene two_genes have_trait p Pa).
Proof.
  cbv zeta.
  apply (C9_accumulation_is_order_independent
           ((λ _, Prog.zero_entry Prog.exact) <$> lone_founder)
           (scored lone_founder (hypotheses lone_founder))
           (reverse (scored lone_founder (hypotheses lone_founder)))).
  symmetry. apply reverse_Permutation.
Defined.

(** In binary64 the founder's six pairs taken in the reverse order leave
    another table: the bin [False] holds [0.9670999999999998] after the
    program's order and [0.9671] after the reverse order. *)
Lemma C9_counterexample :
  ¬ (∀ (P : gmap string (Prog.entry Prog.binary64)) pairs pairs',
       pairs ≡ₚ pairs' →
       (Prog.update_pairs Prog.binary64 pairs P).1
       = (Prog.update_pairs Prog.binary64 pairs' P).1).
Proof.
  intros H.
  specialize (H ((λ _, Prog.zero_entry Prog.binary64) <$> lone_founder)
                (Prog.scored Prog.binary64 lone_founder
                   (hypotheses lone_founder))
                (reverse (Prog.scored Prog.binary64 lone_founder
                            (hypotheses lone_founder)))).
  specialize (H ltac:(symmetry; apply reverse_Permutation)).
  apply (f_equal (λ P : gmap string (Prog.entry Prog.binary64),
                    match P !! "A"%string with
                    | Some d =>
                      PrimFloat.eqb (Prog.bin_False (@Prog.e_trait Prog.binary64 d))
                                    (Prog.literal Prog.binary64 9671 10000)
                    | None => false
                    end)) in H.
  vm_compute in H. discriminate H.
Qed.

(** ** [normalize] in exact arithmetic *)

Lemma is_zero_exact (x : Qc) : Prog.is_zero Prog.exact x = false ↔ x ≠ 0.
Proof. cbn. by rewrite bool_decide_eq_false. Qed.






Lemma prog_normalize_exact (P : gmap string (Prog.entry Prog.exact)) :
  (∀ person d, P !! person = Some d →
     Prog.gene_sum Prog.exact d ≠ 0 ∧ Prog.trait_sum Prog.exact d ≠ 0) →
  Prog.normalize Prog.exact P = (Prog.rescaled Prog.exact <$> P, Ok tt).
Proof.
  intros H. apply prog_normalize_Ok. intros person d Hd.
  destruct (H person d Hd) as [Hg Ht]. by rewrite !is_zero_exact.
Qed.

Lemma prog_main_on_exact people :
  Prog.main_on Prog.exact people
  = (Prog.rescaled Prog.exact
       <$> (Prog.update_pairs Prog.exact (scored people (hypotheses people))
              ((λ _, Prog.zero_entry Prog.exact) <$> people)).1,
     Ok tt).
Proof.
  unfold Prog.main_on. rewrite prog_accumulate_exact.
  apply prog_normalize_exact. intros person d Hd.
  destruct (prog_accumulated_sums people person d Hd) as [-> ->].
  pose proof (evidence_mass_pos people) as Hpos%Qclt_not_eq.
  split; congruence.
Qed.





(** Totals that are not zero can be too small for [1 / total]: the bins are
    then infinite, and no exception is raised. *)
Example normalize_tiny_totals :
  (Prog.normalize Prog.binary64 tiny_totals).2 = Ok tt ∧
  Prog.bins (A := Prog.binary64)
    <$> (Prog.normalize Prog.binary64 tiny_totals).1 !! "A"%string
  = Some [infinity; infinity; infinity; infinity; infinity].
Proof. split; vm_compute; reflexivity. Qed.




(** ** The lone founder, in every arithmetic *)

Section founder.
Context (A : Prog.arith) (n : string) (r : individual).
Hypothesis Hr : no_parents r = true.

Lemma joint_probability_founder_0 h :
  (Prog.joint_probability A
     (Prog.mk_jp_store {[n := r]} ∅ ∅ h (Prog.PROBS A))).2
  = Ok (Prog.product A [Prog.founder_prob A 0%nat (bool_decide (n ∈ h))]).
Proof using Hr.
  unfold Prog.joint_probability.
  rewrite prog_bind_eq. cbn [Prog.get Prog.jp_one_gene].
  rewrite elements_empty, prog_bind_eq. cbn [mapM mret Prog.prog_ret].
  rewrite prog_bind_eq. cbn [Prog.get Prog.jp_two_genes].
  rewrite elements_empty, prog_bind_eq. cbn [mapM mret Prog.prog_ret].
  rewrite prog_bind_eq. cbn [Prog.get Prog.jp_people].
  unfold keys. rewrite map_to_list_singleton, prog_bind_eq.
  cbn [fmap list_fmap fst mapM]. rewrite prog_bind_eq.
  unfold Prog.no_gene_body at 1.
  rewrite prog_bind_eq. cbn [Prog.get Prog.jp_one_gene Prog.jp_two_genes].
  rewrite !(bool_decide_eq_true_2 (n ∉ ∅)) by apply not_elem_of_empty.
  cbn [andb]. rewrite prog_bind_eq. unfold Prog.lift at 1.
  cbn [Prog.jp_people]. rewrite (getitem_Some _ _ r) by apply lookup_singleton_eq.
  rewrite Hr. cbn [Prog.jp_have_trait Prog.jp_PROBS].
  unfold Prog.founder_prob. by case_bool_decide.
Qed.

Lemma joint_probability_founder_2 h :
  (Prog.joint_probability A
     (Prog.mk_jp_store {[n := r]} ∅ {[n]} h (Prog.PROBS A))).2
  = Ok (Prog.product A [Prog.founder_prob A 2%nat (bool_decide (n ∈ h))]).
Proof using Hr.
  unfold Prog.joint_probability.
  rewrite prog_bind_eq. cbn [Prog.get Prog.jp_one_gene].
  rewrite elements_empty, prog_bind_eq. cbn [mapM mret Prog.prog_ret].
  rewrite prog_bind_eq. cbn [Prog.get Prog.jp_two_genes].
  rewrite elements_singleton, prog_bind_eq. cbn [mapM]. rewrite prog_bind_eq.
  unfold Prog.two_genes_body at 1.
  rewrite prog_bind_eq. cbn [Prog.get]. rewrite prog_bind_eq.
  unfold Prog.lift at 1.
  cbn [Prog.jp_people]. rewrite (getitem_Some _ _ r) by apply lookup_singleton_eq.
  rewrite Hr. cbn [Prog.jp_have_trait Prog.jp_PROBS].
  assert (∀ x y : Prog.num A,
            (if bool_decide (n ∈ h)
             then mret x else mret y : Prog.prog (Prog.jp_store A) _)
            = mret (if bool_decide (n ∈ h) then x else y)) as Hif
    by (intros; by case_bool_decide).
  rewrite Hif. cbn [mret Prog.prog_ret mapM]. rewrite prog_bind_eq.
  cbn [mret Prog.prog_ret]. rewrite prog_bind_eq.
  cbn [Prog.get Prog.jp_people].
  unfold keys. rewrite map_to_list_singleton, prog_bind_eq.
  cbn [fmap list_fmap fst mapM]. rewrite prog_bind_eq.
  unfold Prog.no_gene_body at 1.
  rewrite prog_bind_eq. cbn [Prog.get Prog.jp_one_gene Prog.jp_two_genes].
  rewrite (bool_decide_eq_false_2 (n ∉ {[n]})) by (intros H; apply H; set_solver).
  rewrite andb_false_r. cbn [mret Prog.prog_ret].
  unfold Prog.founder_prob. by case_bool_decide.
Qed.

Lemma joint_probability_founder_1 h :
  (Prog.joint_probability A
     (Prog.mk_jp_store {[n := r]} {[n]} ∅ h (Prog.PROBS A))).2
  = Ok (Prog.product A [Prog.founder_prob A 1%nat (bool_decide (n ∈ h))]).
Proof using Hr.
  unfold Prog.joint_probability.
  rewrite prog_bind_eq. cbn [Prog.get Prog.jp_one_gene].
  rewrite elements_singleton, prog_bind_eq. cbn [mapM]. rewrite prog_bind_eq.
  unfold Prog.one_gene_body at 1.
  rewrite prog_bind_eq. cbn [Prog.get]. rewrite prog_bind_eq.
  unfold Prog.lift at 1.
  cbn [Prog.jp_people]. rewrite (getitem_Some _ _ r) by apply lookup_singleton_eq.
  rewrite Hr. cbn [Prog.jp_have_trait Prog.jp_PROBS].
  assert (∀ x y : Prog.num A,
            (if bool_decide (n ∈ h)
             then mret x else mret y : Prog.prog (Prog.jp_store A) _)
            = mret (if bool_decide (n ∈ h) then x else y)) as Hif
    by (intros; by case_bool_decide).
  rewrite Hif. cbn [mret Prog.prog_ret mapM]. rewrite prog_bind_eq.
  cbn [mret Prog.prog_ret]. rewrite prog_bind_eq.
  cbn [Prog.get Prog.jp_two_genes].
  rewrite elements_empty, prog_bind_eq. cbn [mapM mret Prog.prog_ret].
  rewrite prog_bind_eq.
  cbn [Prog.get Prog.jp_people].
  unfold keys. rewrite map_to_list_singleton, prog_bind_eq.
  cbn [fmap list_fmap fst mapM]. rewrite prog_bind_eq.
  unfold Prog.no_gene_body at 1.
  rewrite prog_bind_eq. cbn [Prog.get Prog.jp_one_gene Prog.jp_two_genes].
  rewrite (bool_decide_eq_false_2 (n ∉ {[n]})) by (intros H; apply H; set_solver).
  cbn [andb mret Prog.prog_ret].
  unfold Prog.founder_prob. by case_bool_decide.
Qed.

End founder.

Lemma update_entry_add_at A o t h p k (d : Prog.entry A) :
  Prog.update_entry A o t h p k d
  = Prog.add_at A (copies o t k) (bool_decide (k ∈ h)) p d.
Proof.
  unfold Prog.update_entry, Prog.add_at, copies.
  by repeat case_bool_decide.
Qed.

Lemma update_singleton A o t h p n (d : Prog.entry A) :
  (Prog.update A o t h p {[n := d]}).1
  = {[n := Prog.add_at A (copies o t n) (bool_decide (n ∈ h)) p d]}.
Proof.
  apply map_eq. intros k. rewrite lookup_prog_update.
  destruct (decide (k = n)) as [->|Hne].
  - rewrite !lookup_singleton_eq. cbn. by rewrite update_entry_add_at.
  - by rewrite !lookup_singleton_ne.
Qed.

Lemma normalize_singleton_Ok A n (d : Prog.entry A) :
  Prog.is_zero A (Prog.gene_sum A d) = false →
  Prog.is_zero A (Prog.trait_sum A d) = false →
  Prog.normalize A {[n := d]} = ({[n := Prog.rescaled A d]}, Ok tt).
Proof.
  intros Hg Ht. rewrite prog_normalize_Ok; [by rewrite map_fmap_singleton|].
  intros person d' [_ <-]%lookup_singleton_Some. done.
Qed.

Lemma copies_founder n :
  copies ∅ ∅ n = 0%nat ∧ copies ∅ {[n]} n = 2%nat ∧ copies {[n]} ∅ n = 1%nat.
Proof.
  unfold copies.
  rewrite (bool_decide_eq_false_2 (n ∈ (∅ : gset string)))
    by apply not_elem_of_empty.
  rewrite (bool_decide_eq_true_2 (n ∈ ({[n]} : gset string)))
    by by apply elem_of_singleton.
  done.
Qed.

Lemma score_founder A n r o t c h (d : Prog.entry A) :
  (Prog.joint_probability A
     (Prog.mk_jp_store {[n := r]} o t h (Prog.PROBS A))).2
  = Ok (Prog.product A [Prog.founder_prob A c (bool_decide (n ∈ h))]) →
  copies o t n = c →
  Prog.score_and_update A {[n := r]} {[n := d]} (mk_hypothesis o t h)
  = Ok {[n := Prog.add_at A c (bool_decide (n ∈ h))
                (Prog.product A [Prog.founder_prob A c (bool_decide (n ∈ h))])
                d]}.
Proof.
  intros Hjp Hc. unfold Prog.score_and_update.
  cbn [h_one_gene h_two_genes h_have_trait].
  rewrite Hjp. cbn [mbind outcome_bind]. by rewrite update_singleton, Hc.
Qed.

Lemma accumulate_founder A n r :
  no_parents r = true →
  trait r = None →
  Prog.accumulate A {[n := r]} = Ok {[n := Prog.founder_totals A]}.
Proof.
  intros Hr Ht. unfold Prog.accumulate.
  rewrite enumerate_hypotheses, hypotheses_founder by done.
  rewrite map_fmap_singleton.
  destruct (copies_founder n) as (H0 & H2 & H1).
  assert (bool_decide (n ∈ (∅ : gset string)) = false) as HF
    by (apply bool_decide_eq_false_2, not_elem_of_empty).
  assert (bool_decide (n ∈ ({[n]} : gset string)) = true) as HT
    by (by apply bool_decide_eq_true_2, elem_of_singleton).
  unfold Prog.founder_totals. cbn [foldlM foldl fst snd].
  rewrite (score_founder A n r ∅ ∅ 0)
    by (done || apply joint_probability_founder_0, Hr).
  cbn [mbind outcome_bind].
  rewrite (score_founder A n r ∅ {[n]} 2)
    by (done || apply joint_probability_founder_2, Hr).
  cbn [mbind outcome_bind].
  rewrite (score_founder A n r {[n]} ∅ 1)
    by (done || apply joint_probability_founder_1, Hr).
  cbn [mbind outcome_bind].
  rewrite (score_founder A n r ∅ ∅ 0)
    by (done || apply joint_probability_founder_0, Hr).
  cbn [mbind outcome_bind].
  rewrite (score_founder A n r ∅ {[n]} 2)
    by (done || apply joint_probability_founder_2, Hr).
  cbn [mbind outcome_bind].
  rewrite (score_founder A n r {[n]} ∅ 1)
    by (done || apply joint_probability_founder_1, Hr).
  cbn [mbind outcome_bind]. by rewrite ?HF, ?HT.
Qed.

Lemma main_on_founder A n r :
  no_parents r = true →
  trait r = None →
  Prog.is_zero A (Prog.gene_sum A (Prog.founder_totals A)) = false →
  Prog.is_zero A (Prog.trait_sum A (Prog.founder_totals A)) = false →
  Prog.main_on A {[n := r]}
  = ({[n := Prog.rescaled A (Prog.founder_totals A)]}, Ok tt).
Proof.
  intros Hr Ht Hg Hs. unfold Prog.main_on.
  rewrite accumulate_founder by done. by apply normalize_singleton_Ok.
Qed.

Lemma entry_exact_eq (d d' : Prog.entry Prog.exact) :
  this <$> Prog.bins d = this <$> Prog.bins d' → d = d'.
Proof.
  destruct d as [[g2 g1 g0] [tT tF]], d' as [[g2' g1' g0'] [tT' tF']].
  cbn. intros [= H2 H1 H0 HT HF].
  assert (∀ a b : Qc, this a = this b → a = b) as E
    by (intros a b E; apply Qc_is_canon; by rewrite E).
  f_equal; f_equal; by apply E.
Qed.

(** C8.  For a pedigree of one founder whose trait is not observed, in
    exact arithmetic [main] leaves the prior as the gene distribution,
    {2: 0.01, 1: 0.03, 0: 0.96}, and the trait distribution True: 0.0329,
    False: 0.9671, where 0.0329 = 0.96·0.01 + 0.03·0.56 + 0.01·0.65.  In
    binary64 it leaves the floats 0.01 and 0.96 for 2 and 0 copies and, for 1
    copy and for both trait bins, the float next above the float of 0.03, of
    0.0329 and of 0.9671: 0.030000000000000002, 0.032900000000000006 and
    0.9671000000000001. *)
Theorem C8_single_founder (n nm : string) :
  Prog.main_on Prog.exact {[n := mk_individual nm None None None]}
  = ({[n := Prog.mk_entry (A := Prog.exact)
              (Prog.t_gene (Prog.PROBS Prog.exact))
              (Prog.mk_trait_bins (A := Prog.exact)
                 (lit 329 10000) (lit 9671 10000))]},
     Ok tt) ∧
  Prog.t_gene (Prog.PROBS Prog.exact)
  = Prog.mk_gene_bins (A := Prog.exact) (lit 1 100) (lit 3 100) (lit 96 100) ∧
  lit 329 10000
  = lit 96 100 * lit 1 100 + lit 3 100 * lit 56 100 + lit 1 100 * lit 65 100 ∧
  lit 9671 10000 = 1 - lit 329 10000 ∧
  Prog.main_on Prog.binary64 {[n := mk_individual nm None None None]}
  = ({[n := Prog.mk_entry (A := Prog.binary64)
              (Prog.mk_gene_bins (A := Prog.binary64)
                 (Prog.literal Prog.binary64 1 100)
                 (PrimFloat.next_up (Prog.literal Prog.binary64 3 100))
                 (Prog.literal Prog.binary64 96 100))
              (Prog.mk_trait_bins (A := Prog.binary64)
                 (PrimFloat.next_up (Prog.literal Prog.binary64 329 10000))
                 (PrimFloat.next_up (Prog.literal Prog.binary64 9671 10000)))]},
     Ok tt) ∧
  load_data [mk_row n blank blank blank]
  = {[n := mk_individual n None None None]}.
Proof.
  split; [|split; [|split; [|split; [|split]]]].
  - rewrite main_on_founder; [|done|done|by vm_compute..].
    do 2 f_equal. apply entry_exact_eq. vm_compute. reflexivity.
  - reflexivity.
  - apply Qc_is_canon. vm_compute. reflexivity.
  - apply Qc_is_canon. vm_compute. reflexivity.
  - rewrite main_on_founder; [|done|done|by vm_compute..].
    reflexivity.
  - unfold load_data. cbn [foldl row_name row_mother row_father row_trait].
    by rewrite insert_empty.
Qed.

(** In binary64 the bin of 1 copy is not the float of the prior 0.03. *)
Lemma C8_counterexample :
  ¬ (∀ d, (Prog.main_on Prog.binary64 lone_founder).1 !! "A"%string = Some d →
          Prog.bin_1 (Prog.e_gene d) = Prog.literal Prog.binary64 3 100).
Proof.
  intros H.
  destruct ((Prog.main_on Prog.binary64 lone_founder).1 !! "A"%string)
    as [d|] eqn:Hd; [|by vm_compute in Hd].
  specialize (H d eq_refl). vm_compute in Hd. injection Hd as <-.
  apply (f_equal (λ x, PrimFloat.eqb x (Prog.literal Prog.binary64 3 100)))
    in H.
  vm_compute in H. discriminate H.
Qed.

(** In binary64 both distributions of the founder sum to 1 within 1e-9
    after [normalize]. *)
Example founder_sums_binary64 :
  (λ d : Prog.entry Prog.binary64,
     (Prog.within_tolerance (Prog.gene_sum Prog.binary64 d),
      Prog.within_tolerance (Prog.trait_sum Prog.binary64 d)))
    <$> (Prog.main_on Prog.binary64 lone_founder).1 !! "A"%string
  = Some (true, true).
Proof. vm_compute. reflexivity. Qed.

(** ** The rational model is the program in exact arithmetic *)

Lemma update_entry_of_distributions o t h p k d :
  Prog.update_entry Prog.exact o t h p k (Prog.of_distributions d)
  = Prog.of_distributions (update_person o t h p k d).
Proof.
  unfold Prog.update_entry, update_person, Prog.of_distributions.
  by repeat case_bool_decide.
Qed.

Lemma update_exact P o t h p :
  (Prog.update Prog.exact o t h p (Prog.of_distributions <$> P)).1
  = Prog.of_distributions <$> update P o t h p.
Proof.
  apply map_eq. intros k.
  rewrite lookup_prog_update, !lookup_fmap, lookup_update.
  destruct (P !! k) as [d|]; [|done]. cbn.
  by rewrite update_entry_of_distributions.
Qed.

Lemma update_pairs_exact P pairs :
  (Prog.update_pairs Prog.exact pairs (Prog.of_distributions <$> P)).1
  = Prog.of_distributions <$> accumulate_pairs P pairs.
Proof.
  rewrite update_pairs_foldl. cbn [fst]. unfold accumulate_pairs. revert P.
  induction pairs as [|[h p] pairs IH]; intros P; [done|].
  cbn [foldl fst snd]. by rewrite update_exact, IH.
Qed.

Lemma scaled_total_three (a b c x : Qc) :
  x * (1 / (0 + a + b + c)) = x * (1 / (a + b + c)).
Proof. do 2 f_equal. ring. Qed.

Lemma scaled_total_two (a b x : Qc) :
  x * (1 / (0 + a + b)) = x * (1 / (a + b)).
Proof. do 2 f_equal. ring. Qed.

Lemma rescaled_of_distributions d :
  Prog.rescaled Prog.exact (Prog.of_distributions d)
  = Prog.of_distributions (scale_person d).
Proof.
  destruct d as [[g2 g1 g0] [tT tF]].
  unfold Prog.rescaled, Prog.scale_trait, Prog.scale_gene, Prog.gene_sum,
    Prog.trait_sum, Prog.sum, Prog.of_distributions, scale_person,
    gene_total, trait_total.
  cbn. change (lit 0 1) with 0. change (lit 1 1) with 1.
  by rewrite !scaled_total_three, !scaled_total_two.
Qed.

(** [main] in the rational model returns the table that the program leaves
    in exact arithmetic. *)
Lemma main_on_exact people :
  ∃ P', main_on people = Ok P' ∧
        Prog.main_on Prog.exact people = (Prog.of_distributions <$> P', Ok tt).
Proof.
  eexists. split; [apply main_on_Ok|].
  rewrite prog_main_on_exact. f_equal.
  change (λ _ : individual, Prog.zero_entry Prog.exact)
    with (λ _ : individual, Prog.of_distributions zero_dist).
  rewrite (map_fmap_compose (λ _, zero_dist) Prog.of_distributions people).
  rewrite update_pairs_exact, <-!map_fmap_compose.
  apply map_fmap_ext. intros k d _. apply rescaled_of_distributions.
Qed.
